(** * FluxFile [fast_fs]: a shallow embedding of the traversal and hashing core

    The development follows [src/cpp_src/fast_fs.cpp]:
    - [calculate_blake3]        streaming single-file hasher,
    - [calculate_blake3_batch]  worker pool over a shared atomic cursor,
    - [scandir_recursive]       recursive directory scan,
    - [get_file_info]           single-path metadata probe.

    C++ exceptions are values of [attempt]; the read loop, whose termination
    depends on its argument, is run with explicit fuel; the filesystem, the
    clocks, the allocator and the BLAKE3 primitive are the environment of
    the functions. *)

From Stdlib Require Import ZArith NArith String Ascii.
From Stdlib.Strings Require Import Byte.
From stdpp Require Import base option list gmap strings.

Local Open Scope string_scope.
Local Open Scope list_scope.
Local Open Scope nat_scope.

(** ** Exceptions *)

(** A call either returns or throws; [what] is the text of [e.what()]. *)
Inductive attempt (A : Type) : Type :=
| Return (a : A)
| Throw (what : string).
Arguments Return {A} a.
Arguments Throw {A} what.

#[global] Instance attempt_ret : MRet attempt := fun A a => Return a.
#[global] Instance attempt_bind : MBind attempt := fun A B k x =>
  match x with
  | Return a => k a
  | Throw w => Throw w
  end.

(** ** The hash primitive ([blake3.h]) *)

Definition BLAKE3_OUT_LEN : N := 32.

(** Only the declarations of the vendored primitive are part of the
    repository, so the three entry points used by [fast_fs.cpp] are the
    operations of an interface. *)
Class HashEngine := {
  blake3_hasher : Type;
  blake3_hasher_init : blake3_hasher;
  blake3_hasher_update : blake3_hasher -> list byte -> blake3_hasher;
  blake3_hasher_finalize : blake3_hasher -> N -> list byte
}.

(** Modelled from the spec: the body of [blake3_hasher_update] is missing;
    section 4.1 requires that any chunking of the input produce the state of
    one call on the concatenation. *)
Definition chunk_insensitive `{HashEngine} : Prop :=
  forall h a b,
    blake3_hasher_update (blake3_hasher_update h a) b
    = blake3_hasher_update h (a ++ b).

(** A small engine that meets the contract; it instantiates the interface in
    the worked examples.  The state is the input absorbed so far and the
    output is that input cut or zero-padded to the requested length. *)
Definition echo_engine : HashEngine := {|
  blake3_hasher := list byte;
  blake3_hasher_init := [];
  blake3_hasher_update := fun h input => h ++ input;
  blake3_hasher_finalize := fun h out_len =>
    take (N.to_nat out_len) (h ++ replicate (N.to_nat out_len) x00)
|}.

(** ** Hexadecimal rendering *)

Definition hex_chars : string := "0123456789abcdef".

Definition hex_char (i : N) : ascii :=
  default "0"%char (String.get (N.to_nat i) hex_chars).

(** [hex_chars[(b >> 4) & 0x0F]] followed by [hex_chars[b & 0x0F]]. *)
Definition hex_of_byte (b : byte) : string :=
  let v := Byte.to_N b in
  String (hex_char (N.land (N.shiftr v 4) 15))
    (String (hex_char (N.land v 15)) EmptyString).

(** The loop [for (i = 0; i < BLAKE3_OUT_LEN; ++i)] over the output buffer. *)
Definition to_hex (output : list byte) : string :=
  foldr (fun i acc => hex_of_byte (nth i output x00) +:+ acc) EmptyString
        (seq 0 (N.to_nat BLAKE3_OUT_LEN)).

(** ** Files and the filesystem *)

(** What a device delivers to a reader: the bytes, then either end of stream
    or an input/output error. *)
Record source := {
  available : list byte;
  then_error : bool
}.

(** What a special file delivers: an input that ends, like the null device
    or a pipe whose writers close, or the same byte for ever, like the zero
    device. *)
Inductive supply :=
| Ends (s : source)
| Unending (fill : byte).

Record stat_t := {
  st_size : N;
  st_mtime : Z;      (* file-clock ticks *)
  st_mode : N
}.

Inductive dir_access :=
| Listable
| PermissionDenied
| OpenError (what : string).

Inductive special_kind := block_file | character_file | fifo_file | socket_file.

#[local] Set Warnings "-register-all".

(** An inode with what the operating system answers about it: the outcome of
    [stat], the outcome of opening it, and, for a directory, its listing. A
    symbolic link carries the inode it resolves to. *)
Inductive inode :=
| Regular (st : attempt stat_t) (content : option source)
| Directory (st : attempt stat_t) (acc : dir_access)
            (entries : list (string * inode))
| Symlink (target : inode)
| DanglingSymlink
| BrokenSymlink (what : string)
| Special (kind : special_kind) (st : attempt stat_t) (content : option supply).

(** [std::filesystem::file_type] *)
Inductive file_type :=
| ft_none | ft_not_found | ft_regular | ft_directory | ft_symlink
| ft_block | ft_character | ft_fifo | ft_socket | ft_unknown.

#[global] Instance file_type_eq_dec : EqDecision file_type.
Proof. solve_decision. Defined.

Record file_status := {
  type : file_type;
  permissions : N
}.

Definition is_link (i : inode) : bool :=
  match i with
  | Symlink _ | DanglingSymlink | BrokenSymlink _ => true
  | _ => false
  end.

(** The type of the inode itself, as a directory listing or [lstat] gives it. *)
Definition own_type (i : inode) : file_type :=
  match i with
  | Regular _ _ => ft_regular
  | Directory _ _ _ => ft_directory
  | Symlink _ | DanglingSymlink | BrokenSymlink _ => ft_symlink
  | Special block_file _ _ => ft_block
  | Special character_file _ _ => ft_character
  | Special fifo_file _ _ => ft_fifo
  | Special socket_file _ _ => ft_socket
  end.

(** Following symbolic links to the end: [None] when the chain ends nowhere,
    a throw when it cannot be walked. *)
Fixpoint resolve (i : inode) : attempt (option inode) :=
  match i with
  | Symlink target => resolve target
  | DanglingSymlink => Return None
  | BrokenSymlink what => Throw what
  | _ => Return (Some i)
  end.

Definition inode_stat (i : inode) : attempt stat_t :=
  match i with
  | Regular st _ | Directory st _ _ | Special _ st _ => st
  | _ => Return {| st_size := 0; st_mtime := 0; st_mode := 511 |}
  end.

Definition perms_mask : N := 4095.

(** [fs::status]: follows symbolic links; a missing target is a status of
    type [not_found], any other failure throws. *)
Definition status (i : inode) : attempt file_status :=
  t ← resolve i;
  match t with
  | None => Return {| type := ft_not_found; permissions := 0 |}
  | Some j =>
      s ← inode_stat j;
      Return {| type := own_type j; permissions := N.land (st_mode s) perms_mask |}
  end.

(** [fs::symlink_status]: the inode itself. *)
Definition symlink_status (i : inode) : attempt file_status :=
  s ← inode_stat i;
  Return {| type := own_type i; permissions := N.land (st_mode s) perms_mask |}.

Definition err_not_found : string :=
  "filesystem error: No such file or directory".
Definition err_is_a_directory : string :=
  "filesystem error: cannot get file size: Is a directory".
Definition err_not_supported : string :=
  "filesystem error: cannot get file size: Operation not supported".

(** [fs::file_size]: defined for regular files only. *)
Definition file_size (i : inode) : attempt N :=
  t ← resolve i;
  match t with
  | None => Throw err_not_found
  | Some j =>
      s ← inode_stat j;
      match j with
      | Regular _ _ => Return (st_size s)
      | Directory _ _ _ => Throw err_is_a_directory
      | _ => Throw err_not_supported
      end
  end.

(** [fs::last_write_time]: the modification time of the resolved inode. The
    time is taken to be one that [file_time_type] can hold. *)
Definition last_write_time (i : inode) : attempt Z :=
  t ← resolve i;
  match t with
  | None => Throw err_not_found
  | Some j => s ← inode_stat j; Return (st_mtime s)
  end.

(** What [open] for reading gives when the input ends. A directory can be
    opened on POSIX but every read from it fails. *)
Definition open_source (i : inode) : option source :=
  match resolve i with
  | Return (Some (Regular _ content)) => content
  | Return (Some (Special _ _ (Some (Ends s)))) => Some s
  | Return (Some (Directory _ _ _)) =>
      Some {| available := []; then_error := true |}
  | _ => None
  end.

(** The inode opens on a device that never runs out: every [read] is
    filled and leaves the stream good. A pipe that no writer ever closes
    keeps its reader waiting in the same way. *)
Definition never_ends (i : inode) : bool :=
  match resolve i with
  | Return (Some (Special _ _ (Some (Unending _)))) => true
  | _ => false
  end.

(** The namespace: a path names an inode or nothing. *)
Definition filesystem := string -> option inode.

Definition path_status (fs : filesystem) (p : string) : attempt file_status :=
  match fs p with
  | None => Return {| type := ft_not_found; permissions := 0 |}
  | Some i => status i
  end.

Definition fs_exists (fs : filesystem) (p : string) : attempt bool :=
  s ← path_status fs p;
  Return (bool_decide (type s ≠ ft_not_found)).

Definition fs_is_regular_file (fs : filesystem) (p : string) : attempt bool :=
  s ← path_status fs p;
  Return (bool_decide (type s = ft_regular)).

Definition fs_is_directory (fs : filesystem) (p : string) : attempt bool :=
  s ← path_status fs p;
  Return (bool_decide (type s = ft_directory)).

(** The path names, possibly through links, a device that never runs
    out. *)
Definition endless (fs : filesystem) (p : string) : bool :=
  match fs p with
  | Some i => never_ends i
  | None => false
  end.

(** ** [std::ifstream] *)

(** A stream over an input that ends: what is still unread, and what the
    device does when it is exhausted. *)

Record ifstream := {
  unread : list byte;
  device_fails : bool;
  eofbit : bool;
  failbit : bool;
  badbit : bool
}.

(** [std::ifstream file(path, std::ios::binary)] on an input that ends;
    [None] when [is_open()] is false. A device that never runs out has no
    stream of this kind: [endless] tells it from a file that cannot be
    opened. *)
Definition ifstream_open (fs : filesystem) (p : string) : option ifstream :=
  i ← fs p;
  s ← open_source i;
  Some {| unread := available s; device_fails := then_error s;
          eofbit := false; failbit := false; badbit := false |}.

(** [while (file)]: neither [failbit] nor [badbit]. *)
Definition stream_ok (f : ifstream) : bool := negb (failbit f || badbit f).

Definition good (f : ifstream) : bool :=
  negb (eofbit f || failbit f || badbit f).

(** [file.read(buffer, n)] with the bytes it stored; [gcount()] is their
    number. A request that the device cannot fill sets [eofbit] and
    [failbit]; a device error sets [badbit] and stores nothing. *)
Definition read (f : ifstream) (n : N) : ifstream * list byte :=
  if negb (good f) then
    ({| unread := unread f; device_fails := device_fails f;
        eofbit := eofbit f; failbit := true; badbit := badbit f |}, [])
  else if (n <=? N.of_nat (length (unread f)))%N then
    ({| unread := drop (N.to_nat n) (unread f); device_fails := device_fails f;
        eofbit := false; failbit := false; badbit := false |},
     take (N.to_nat n) (unread f))
  else if device_fails f then
    ({| unread := []; device_fails := true;
        eofbit := false; failbit := false; badbit := true |}, [])
  else
    ({| unread := []; device_fails := false;
        eofbit := true; failbit := true; badbit := false |}, unread f).

(** ** The free store *)

(** What the allocator answers to a request for [n] bytes when the call is
    made: [None] when the block is there, the text of the exception it
    throws otherwise ([std::bad_alloc] or one derived from it). *)
Definition allocator := N -> option string.

(** [new uint8_t[n]]. A request for no bytes is met. *)
Definition new_array (heap : allocator) (n : N) : option string :=
  if bool_decide (n = 0%N) then None else heap n.

(** ** [calculate_blake3] *)

Section Hashing.
Context `{HashEngine}.

(** The loop
    [while (file) { file.read(buffer, chunk_size); if (gcount > 0) update; }]
    with a bound on the number of iterations; [None] when the bound is
    reached with the stream still readable. *)
Fixpoint read_loop (fuel : nat) (chunk_size : N) (file : ifstream)
         (hasher : blake3_hasher) : option (ifstream * blake3_hasher) :=
  if negb (stream_ok file) then Some (file, hasher)
  else
    match fuel with
    | O => None
    | S fuel' =>
        let '(file', buffer) := read file chunk_size in
        let bytes_read := length buffer in
        let hasher' :=
          if bool_decide (0 < bytes_read)
          then blake3_hasher_update hasher buffer
          else hasher in
        read_loop fuel' chunk_size file' hasher'
    end.

(** The loop itself has no bound. It is run with one more iteration than
    there are unread bytes: [read_loop_fuel_exact] below shows that a run
    which finishes at all finishes within that many, so [None] stands for
    a loop that never exits. *)
Definition hash_stream (chunk_size : N) (file : ifstream)
           (hasher : blake3_hasher) : option (ifstream * blake3_hasher) :=
  read_loop (S (length (unread file))) chunk_size file hasher.

(** [calculate_blake3(file_path, chunk_size)]; [None]: the call does not
    return. The buffer is allocated after the two checks of the path and
    before the file is opened; when the allocation throws, so does the
    call. Only a regular file reaches the open, and a regular file ends. *)
Definition calculate_blake3 (fs : filesystem) (heap : allocator)
           (file_path : string) (chunk_size : N) : option (attempt string) :=
  match fs_exists fs file_path with
  | Throw w => Some (Throw w)
  | Return false => Some (Throw ("File does not exist: " +:+ file_path))
  | Return true =>
    match fs_is_regular_file fs file_path with
    | Throw w => Some (Throw w)
    | Return false =>
        Some (Throw ("Path is not a regular file: " +:+ file_path))
    | Return true =>
      match new_array heap chunk_size with
      | Some what => Some (Throw what)
      | None =>
        match ifstream_open fs file_path with
        | None => Some (Throw ("Cannot open file: " +:+ file_path))
        | Some file =>
            '(file', hasher) ← hash_stream chunk_size file blake3_hasher_init;
            if badbit file'
            then Some (Throw ("Error reading file: " +:+ file_path))
            else Some (Return
                   (to_hex (blake3_hasher_finalize hasher BLAKE3_OUT_LEN)))
        end
      end
    end
  end.

End Hashing.

(** ** [calculate_blake3_batch] *)

(** A value of the returned dictionary: the digest string, or the nested
    dictionary with the single key "error". *)
Inductive py_value :=
| py_str (s : string)
| py_error_info (error : string).

(** How the [try] block of a worker is left. *)
Inductive job_exit :=
| Stored (hex_result : string)
| Failed (message : string).

Inductive worker :=
| Claiming
| Hashing (idx : nat)
| Exited.

(** The state shared by the workers, and where each worker stands. *)
Record pool := {
  next_index : nat;
  results : list (string * string);
  errors : list string;
  threads : list worker
}.

(** [num_threads] after the fallbacks; [hardware_concurrency] is the value
    of the [static_cast<int>]. *)
Definition resolve_num_threads (hardware_concurrency num_threads : Z) : Z :=
  if bool_decide (num_threads ≤ 0)%Z then
    if bool_decide (hardware_concurrency ≤ 0)%Z then 4%Z
    else hardware_concurrency
  else num_threads.

Definition batch_chunk_size : N := 1024 * 1024.

Section Batch.
Context `{HashEngine}.
Variable fs : filesystem.

(** The body of the [try] block for one path; no operation in it throws,
    stream failures are state bits. [None]: the block is never left. The
    worker opens whatever the path names: on a device that never runs out
    every [read] fills the buffer, so [while (file)] goes on for ever. The
    buffer of one mebibyte, allocated before the loop, is taken to be
    there. *)
Definition hash_job (path : string) : option (attempt job_exit) :=
  if endless fs path then None
  else
  match ifstream_open fs path with
  | None => Some (Return (Failed "Cannot open file"))
  | Some file =>
      '(file', hasher) ← hash_stream batch_chunk_size file blake3_hasher_init;
      if badbit file' then Some (Return (Failed "Error reading file"))
      else Some (Return
             (Stored (to_hex (blake3_hasher_finalize hasher BLAKE3_OUT_LEN))))
  end.

(** The worker loop is parameterised by the [try] block so that the
    [catch (const std::exception &)] handler is exercised as well. *)
Variable job : string -> option (attempt job_exit).
Variable file_paths : list string.

(** One atomic action of worker [t]: either the [fetch_add] with the bounds
    test, or the processing of the claimed index with the write to its
    slot. *)
Definition worker_step (t : nat) (p : pool) : pool :=
  match threads p !! t with
  | Some Claiming =>
      let idx := next_index p in
      {| next_index := S idx;
         results := results p;
         errors := errors p;
         threads :=
           <[t := if bool_decide (length file_paths ≤ idx)%nat
                  then Exited else Hashing idx]> (threads p) |}
  | Some (Hashing idx) =>
      match file_paths !! idx with
      | None => p
      | Some path =>
          match job path with
          | None => p
          | Some (Return (Stored hex_result)) =>
              {| next_index := next_index p;
                 results := <[idx := (path, hex_result)]> (results p);
                 errors := errors p;
                 threads := <[t := Claiming]> (threads p) |}
          | Some (Return (Failed message)) =>
              {| next_index := next_index p;
                 results := results p;
                 errors := <[idx := message]> (errors p);
                 threads := <[t := Claiming]> (threads p) |}
          | Some (Throw what) =>
              {| next_index := next_index p;
                 results := results p;
                 errors := <[idx := what]> (errors p);
                 threads := <[t := Claiming]> (threads p) |}
          end
      end
  | _ => p
  end.

Definition pool_init (num_threads : nat) : pool :=
  {| next_index := 0;
     results := replicate (length file_paths) (EmptyString, EmptyString);
     errors := replicate (length file_paths) EmptyString;
     threads := replicate num_threads Claiming |}.

(** The workers run in the order the scheduler picks them. *)
Definition run_pool (schedule : list nat) (p : pool) : pool :=
  foldl (fun p t => worker_step t p) p schedule.

(** Every [join] has returned. *)
Definition joined (p : pool) : Prop := Forall (fun w => w = Exited) (threads p).

#[global] Instance joined_dec p : Decision (joined p).
Proof. unfold joined. apply Forall_dec. intros w. destruct w; solve_decision. Defined.

(** One iteration of the final loop over the slots. *)
Definition build_entry (p : pool) (py_results : gmap string py_value)
           (i : nat) : gmap string py_value :=
  let r := default (EmptyString, EmptyString) (results p !! i) in
  let e := default EmptyString (errors p !! i) in
  if bool_decide (e = EmptyString) && negb (bool_decide (r.2 = EmptyString))
  then <[r.1 := py_str r.2]> py_results
  else <[default EmptyString (file_paths !! i) :=
           py_error_info (if bool_decide (e = EmptyString)
                          then "Unknown error" else e)]> py_results.

Definition build_results (p : pool) : gmap string py_value :=
  foldl (build_entry p) ∅ (seq 0 (length file_paths)).

(** The call under a given schedule; [None] when the schedule ends before
    every worker has left its loop. *)
Definition batch_under (schedule : list nat) (num_threads : Z)
  : option (gmap string py_value) :=
  let p := run_pool schedule (pool_init (Z.to_nat num_threads)) in
  if decide (joined p) then Some (build_results p) else None.

End Batch.

Definition calculate_blake3_batch `{HashEngine} (fs : filesystem)
    (hardware_concurrency : Z) (schedule : list nat)
    (file_paths : list string) (num_threads : Z)
  : option (gmap string py_value) :=
  batch_under (hash_job fs) file_paths schedule
    (resolve_num_threads hardware_concurrency num_threads).

(** ** Clocks and the reconciled modification time *)

(** One sample of [file_time_type::clock::now()] followed by
    [system_clock::now()]. Both clocks count nanoseconds. *)
Record clock_reading := {
  file_clock_now : Z;
  sys_clock_now : Z
}.

Definition ticks_per_second : Z := 1000000000.

(** [time_point_cast<seconds>(sys_clock_now + (ftime - file_clock_now))]
    and its [time_since_epoch().count()]. The cast rounds toward zero; the
    count is then stored in a [double], which holds it exactly below 2^53. *)
Definition to_unix_seconds (ftime : Z) (c : clock_reading) : Z :=
  (sys_clock_now c + (ftime - file_clock_now c)) ÷ ticks_per_second.

(** ** [scandir_recursive] *)

Module FileInfo.
Record t := {
  path : string;
  name : string;
  size : N;
  mtime : Z;
  is_directory : bool;
  is_symlink : bool
}.
End FileInfo.

(** [directory_entry::is_symlink]: the type read with the listing. *)
Definition entry_is_symlink (entry : inode) : bool := is_link entry.

(** [directory_entry::is_directory]: the type read with the listing, except
    for a symbolic link, whose target is examined with [status]. *)
Definition entry_is_directory (entry : inode) : attempt bool :=
  if is_link entry then
    s ← status entry; Return (bool_decide (type s = ft_directory))
  else Return (bool_decide (own_type entry = ft_directory)).

Definition ends_with_separator (p : string) : bool :=
  match last (list_ascii_of_string p) with
  | Some c => bool_decide (c = "/"%char)
  | None => false
  end.

(** [dir / filename] *)
Definition path_append (dir filename : string) : string :=
  if ends_with_separator dir then dir +:+ filename
  else dir +:+ "/" +:+ filename.

(** [!filename.empty() && filename[0] == '.'] *)
Definition is_hidden (filename : string) : bool :=
  match filename with
  | String c _ => bool_decide (c = "."%char)
  | EmptyString => false
  end.

(** The statements from [FileInfo info;] to the computation of [info.mtime]. *)
Definition make_info (c : clock_reading) (path filename : string)
           (entry : inode) : attempt FileInfo.t :=
  let is_symlink := entry_is_symlink entry in
  '(is_directory, size) ←
    (if is_symlink then
       d ← entry_is_directory entry; Return (d, 0%N)
     else
       d ← entry_is_directory entry;
       sz ← (if d : bool then Return 0%N else file_size entry);
       Return (d, sz));
  ftime ← last_write_time entry;
  Return {| FileInfo.path := path;
            FileInfo.name := filename;
            FileInfo.size := size;
            FileInfo.mtime := to_unix_seconds ftime c;
            FileInfo.is_directory := is_directory;
            FileInfo.is_symlink := is_symlink |}.

(** How one iteration of the loop ends: by [continue], with the recursion
    into the entry still pending or disabled; in the inner [catch]; or after
    [results.push_back]. *)
Inductive body_exit :=
| Skipped (recursion_pending : bool)
| Caught (what : string)
| Pushed (info : FileInfo.t).

Definition loop_body (max_depth : Z) (include_hidden : bool)
           (c : clock_reading) (depth : nat) (path filename : string)
           (entry : inode) : body_exit :=
  if bool_decide (0 < max_depth ∧ max_depth ≤ Z.of_nat depth)%Z then
    Skipped false
  else if negb include_hidden && is_hidden filename then
    match entry_is_directory entry with
    | Throw what => Caught what
    | Return true => Skipped false
    | Return false => Skipped true
    end
  else
    match make_info c path filename entry with
    | Throw what => Caught what
    | Return info => Pushed info
    end.

Definition recursion_pending_after (x : body_exit) : bool :=
  match x with
  | Skipped pending => pending
  | _ => true
  end.

(** One dereference of the iterator: the entry, its [it.depth()], and the
    number of clock samples taken before it. *)
Record visit := {
  v_depth : nat;
  v_path : string;
  v_name : string;
  v_entry : inode;
  v_sample : nat
}.

(** The two vectors of the function, the position in the sequence of clock
    samples, and whether the outer [catch] has been entered. [visited] is
    history only: the iterations of the loop so far, in order. *)
Record scan_state := {
  scan_results : list FileInfo.t;
  scan_errors : list string;
  samples : nat;
  aborted : bool;
  visited : list visit
}.

Definition scan_init : scan_state :=
  {| scan_results := []; scan_errors := []; samples := 0;
     aborted := false; visited := [] |}.

Definition after_body (v : visit) (x : body_exit) (s : scan_state)
  : scan_state :=
  match x with
  | Skipped _ =>
      {| scan_results := scan_results s; scan_errors := scan_errors s;
         samples := samples s; aborted := aborted s;
         visited := visited s ++ [v] |}
  | Caught what =>
      {| scan_results := scan_results s;
         scan_errors := scan_errors s ++ [what];
         samples := samples s; aborted := aborted s;
         visited := visited s ++ [v] |}
  | Pushed info =>
      {| scan_results := scan_results s ++ [info];
         scan_errors := scan_errors s;
         samples := S (samples s); aborted := aborted s;
         visited := visited s ++ [v] |}
  end.

(** The outer [catch]: the message is stored with its prefix and the loop
    is over. *)
Definition fatal (what : string) (s : scan_state) : scan_state :=
  {| scan_results := scan_results s;
     scan_errors := scan_errors s ++ ["Fatal error: " +:+ what];
     samples := samples s; aborted := true; visited := visited s |}.

Section Scan.
Variable clk : nat -> clock_reading.
Variable max_depth : Z.
Variable include_hidden : bool.

Definition body_of (v : visit) : body_exit :=
  loop_body max_depth include_hidden (clk (v_sample v))
            (v_depth v) (v_path v) (v_name v) (v_entry v).

(** The loop over [recursive_directory_iterator] with the option
    [skip_permission_denied]: the body runs on the entry, then the
    increment enters the entry when it is a directory (not a link to one)
    whose recursion is still pending. A directory that cannot be opened is
    passed over when the reason is a denied permission and makes the
    increment throw otherwise. *)
Fixpoint scan_entry (depth : nat) (dir filename : string) (entry : inode)
         (s : scan_state) {struct entry} : scan_state :=
  if aborted s then s
  else
    let path := path_append dir filename in
    let v := {| v_depth := depth; v_path := path; v_name := filename;
                v_entry := entry; v_sample := samples s |} in
    let x := body_of v in
    let s1 := after_body v x s in
    match entry with
    | Directory _ acc entries =>
        if recursion_pending_after x then
          match acc with
          | Listable =>
              (fix scan_list (l : list (string * inode)) (s : scan_state)
                 : scan_state :=
                 match l with
                 | [] => s
                 | (n, e) :: l' => scan_list l' (scan_entry (S depth) path n e s)
                 end) entries s1
          | PermissionDenied => s1
          | OpenError what => fatal what s1
          end
        else s1
    | _ => s1
    end.

Definition scan_list (depth : nat) (dir : string)
  : list (string * inode) -> scan_state -> scan_state :=
  fix go l s :=
    match l with
    | [] => s
    | (n, e) :: l' => go l' (scan_entry depth dir n e s)
    end.

(** The construction of the iterator on the root and the whole loop. *)
Definition scan_root (root_path : string) (root : inode) : scan_state :=
  match resolve root with
  | Return (Some (Directory _ Listable entries)) =>
      scan_list 0 root_path entries scan_init
  | Return (Some (Directory _ PermissionDenied _)) => scan_init
  | Return (Some (Directory _ (OpenError what) _)) => fatal what scan_init
  | Return _ => fatal err_not_found scan_init
  | Throw what => fatal what scan_init
  end.

End Scan.

(** [err.find("Fatal error:") == 0] *)
Definition is_fatal (err : string) : bool := String.prefix "Fatal error:" err.

(** The function returns the list of records; the vector of messages is
    local to it. *)
Definition scandir_recursive (clk : nat -> clock_reading) (fs : filesystem)
    (root_path : string) (max_depth : Z) (include_hidden : bool)
  : attempt (list FileInfo.t) :=
  ex ← fs_exists fs root_path;
  if negb ex then Throw ("Path does not exist: " +:+ root_path)
  else
    d ← fs_is_directory fs root_path;
    if negb d then Throw ("Path is not a directory: " +:+ root_path)
    else
      match fs root_path with
      | None => Throw ("Path does not exist: " +:+ root_path)
      | Some root =>
          let s := scan_root clk max_depth include_hidden root_path root in
          match List.find is_fatal (scan_errors s) with
          | Some err => Throw err
          | None => Return (scan_results s)
          end
      end.

(** ** [get_file_info] *)

Module FileMetadata.
Record t := {
  path : string;
  name : string;
  extension : string;
  parent : string;
  is_regular_file : bool;
  is_directory : bool;
  is_symlink : bool;
  is_block_file : bool;
  is_character_file : bool;
  is_fifo : bool;
  is_socket : bool;
  size : N;
  mtime : Z;
  permissions : N;
  is_readable : bool;
  is_writable : bool;
  is_executable : bool
}.
End FileMetadata.

(** The lexical decompositions of [std::filesystem::path]. *)
Class PathLexer := {
  path_filename : string -> string;
  path_extension : string -> string;
  path_parent_path : string -> string
}.

Definition owner_read : N := 256.
Definition owner_write : N := 128.
Definition owner_exec : N := 64.

Definition path_symlink_status (fs : filesystem) (p : string)
  : attempt file_status :=
  match fs p with
  | None => Return {| type := ft_not_found; permissions := 0 |}
  | Some i => symlink_status i
  end.

Definition path_file_size (fs : filesystem) (p : string) : attempt N :=
  match fs p with
  | None => Throw err_not_found
  | Some i => file_size i
  end.

Definition path_last_write_time (fs : filesystem) (p : string) : attempt Z :=
  match fs p with
  | None => Throw err_not_found
  | Some i => last_write_time i
  end.

Definition get_file_info `{PathLexer} (c : clock_reading) (fs : filesystem)
    (file_path : string) : attempt FileMetadata.t :=
  ex ← fs_exists fs file_path;
  if negb ex then Throw ("Path does not exist: " +:+ file_path)
  else
    status ← path_status fs file_path;
    symlink_status ← path_symlink_status fs file_path;
    reg ← fs_is_regular_file fs file_path;
    size_val ← (if reg : bool then path_file_size fs file_path else Return 0%N);
    ftime ← path_last_write_time fs file_path;
    let perms := permissions status in
    Return {|
      FileMetadata.path := file_path;
      FileMetadata.name := path_filename file_path;
      FileMetadata.extension := path_extension file_path;
      FileMetadata.parent := path_parent_path file_path;
      FileMetadata.is_regular_file := bool_decide (type status = ft_regular);
      FileMetadata.is_directory := bool_decide (type status = ft_directory);
      FileMetadata.is_symlink := bool_decide (type symlink_status = ft_symlink);
      FileMetadata.is_block_file := bool_decide (type status = ft_block);
      FileMetadata.is_character_file := bool_decide (type status = ft_character);
      FileMetadata.is_fifo := bool_decide (type status = ft_fifo);
      FileMetadata.is_socket := bool_decide (type status = ft_socket);
      FileMetadata.size := size_val;
      FileMetadata.mtime := to_unix_seconds ftime c;
      FileMetadata.permissions := perms;
      FileMetadata.is_readable := negb (N.land perms owner_read =? 0)%N;
      FileMetadata.is_writable := negb (N.land perms owner_write =? 0)%N;
      FileMetadata.is_executable := negb (N.land perms owner_exec =? 0)%N
    |}.

(** * Vocabulary of the statements, and worked inputs *)

(** The hasher state after a stream delivering [bytes] has been read to its
    end: untouched when there was nothing to read. *)
Definition feed `{HashEngine} (h : blake3_hasher) (bytes : list byte)
  : blake3_hasher :=
  if bool_decide (0 < length bytes) then blake3_hasher_update h bytes else h.

(** The digest string of a byte sequence. *)
Definition digest_of `{HashEngine} (bytes : list byte) : string :=
  to_hex (blake3_hasher_finalize (feed blake3_hasher_init bytes) BLAKE3_OUT_LEN).

Definition at_eof : ifstream :=
  {| unread := []; device_fails := false;
     eofbit := true; failbit := true; badbit := false |}.

Definition at_error : ifstream :=
  {| unread := []; device_fails := true;
     eofbit := false; failbit := false; badbit := true |}.

(** [file_path] names, possibly through symbolic links, a regular file whose
    [stat] succeeds and which can be opened on [src]. *)
Definition readable_regular_file (fs : filesystem) (file_path : string)
           (st : stat_t) (src : source) : Prop :=
  exists i, fs file_path = Some i
            /\ resolve i = Return (Some (Regular (Return st) (Some src))).

Definition hello : list byte := [x68; x65; x6c; x6c; x6f].

Definition plain_stat (size : N) : stat_t :=
  {| st_size := size; st_mtime := 2500000000; st_mode := 420 |}.

Definition a_txt : inode :=
  Regular (Return (plain_stat 5))
          (Some {| available := hello; then_error := false |}).

(** The null device: a character file that opens and is at end of stream. *)
Definition dev_null : inode :=
  Special character_file (Return (plain_stat 0))
          (Some (Ends {| available := []; then_error := false |})).

(** An allocator with a gibibyte to give. *)
Definition gibibyte : allocator := fun n =>
  if bool_decide (n ≤ 1073741824)%N then None else Some "std::bad_alloc".

(** The zero device: a character file that opens and never runs out. *)
Definition dev_zero : inode :=
  Special character_file (Return (plain_stat 0)) (Some (Unending x00)).

Definition device_fs : filesystem := fun p =>
  if bool_decide (p = "/tmp/a.txt") then Some a_txt
  else if bool_decide (p = "/dev/zero") then Some dev_zero
  else None.

Definition hashing_fs : filesystem := fun p =>
  if bool_decide (p = "/tmp/a.txt") then Some a_txt
  else if bool_decide (p = "/dev/null") then Some dev_null
  else None.

(** The pair of slots [results[idx]], [errors[idx]] after the [try] block
    for [path] was left by [j]. *)
Definition slot_of (path : string) (j : attempt job_exit)
  : (string * string) * string :=
  match j with
  | Return (Stored hex_result) => ((path, hex_result), EmptyString)
  | Return (Failed message) => ((EmptyString, EmptyString), message)
  | Throw what => ((EmptyString, EmptyString), what)
  end.

Definition or_unknown (message : string) : string :=
  if bool_decide (message = EmptyString) then "Unknown error" else message.

(** The dictionary value the final loop builds from such a pair of slots. *)
Definition value_of (j : attempt job_exit) : py_value :=
  match j with
  | Return (Stored hex_result) =>
      if bool_decide (hex_result = EmptyString)
      then py_error_info "Unknown error" else py_str hex_result
  | Return (Failed message) => py_error_info (or_unknown message)
  | Throw what => py_error_info (or_unknown what)
  end.

Definition in_flight (p : pool) (i : nat) : Prop :=
  exists t, threads p !! t = Some (Hashing i).

(** Index [idx] is still to be claimed and no worker has left its loop, or
    a worker is working on it. *)
Definition held_up (idx : nat) (p : pool) : Prop :=
  (next_index p ≤ idx /\ Forall (fun w => w ≠ Exited) (threads p))
  \/ in_flight p idx.

(** What holds of the pool between any two atomic actions. *)
Record pool_inv (job : string -> option (attempt job_exit))
       (file_paths : list string) (num_threads : nat) (p : pool) : Prop := {
  inv_threads : length (threads p) = num_threads;
  inv_results : length (results p) = length file_paths;
  inv_errors : length (errors p) = length file_paths;
  inv_claimed : forall t i, threads p !! t = Some (Hashing i) ->
                            i < next_index p /\ i < length file_paths;
  inv_owner : forall t t' i, threads p !! t = Some (Hashing i) ->
                             threads p !! t' = Some (Hashing i) -> t = t';
  inv_done : forall i path,
      file_paths !! i = Some path -> i < next_index p -> ~ in_flight p i ->
      exists j, job path = Some j
                /\ results p !! i = Some (slot_of path j).1
                /\ errors p !! i = Some (slot_of path j).2;
  inv_fresh : forall i,
      i < length file_paths -> next_index p ≤ i \/ in_flight p i ->
      results p !! i = Some (EmptyString, EmptyString)
      /\ errors p !! i = Some EmptyString;
  inv_exited : forall t, threads p !! t = Some Exited ->
                         length file_paths ≤ next_index p
}.

(** A schedule under which the call returns: the first worker takes every
    path, then each worker finds the cursor exhausted. *)
Definition sequential_schedule (n num_threads : nat) : list nat :=
  replicate (2 * n) 0 ++ seq 0 num_threads.

(** Where an entry sits below a listing: under the chain of listable
    directories named [chain], outermost first. *)
Inductive occurs
  : list (string * inode) -> list string -> string -> inode -> Prop :=
| occurs_here entries filename e :
    (filename, e) ∈ entries -> occurs entries [] filename e
| occurs_below entries d st kids chain filename e :
    (d, Directory st Listable kids) ∈ entries ->
    occurs kids chain filename e ->
    occurs entries (d :: chain) filename e.

Definition path_below (dir : string) (chain : list string) : string :=
  foldl path_append dir chain.

Definition pushed_of (x : body_exit) : option FileInfo.t :=
  match x with
  | Pushed info => Some info
  | _ => None
  end.

Section ScanVocabulary.
Variable clk : nat -> clock_reading.
Variable max_depth : Z.
Variable include_hidden : bool.

(** The messages one iteration and the increment after it add to the
    vector of errors. *)
Definition errors_of (v : visit) : list string :=
  match body_of clk max_depth include_hidden v with
  | Caught what => [what]
  | _ => []
  end
  ++ match v_entry v with
     | Directory _ (OpenError what) _ =>
         if recursion_pending_after (body_of clk max_depth include_hidden v)
         then ["Fatal error: " +:+ what] else []
     | _ => []
     end.

(** The iteration [v] is on an entry of the tree below [entries], reached
    through directories that were neither hidden from the scan nor at the
    depth limit. [depth] and [dir] are the depth and the path of the
    listing [entries] itself. *)
Definition visit_ok (depth : nat) (dir : string)
           (entries : list (string * inode)) (v : visit) : Prop :=
  exists chain,
    occurs entries chain (v_name v) (v_entry v)
    /\ v_depth v = depth + length chain
    /\ v_path v = path_append (path_below dir chain) (v_name v)
    /\ (include_hidden = false -> Forall (fun d => is_hidden d = false) chain)
    /\ ((0 < max_depth)%Z -> chain ≠ [] -> (Z.of_nat (v_depth v) ≤ max_depth)%Z).

(** [s'] is [s] after the iterations [vs]. *)
Definition extends_by (depth : nat) (dir : string)
           (entries : list (string * inode)) (s s' : scan_state)
           (vs : list visit) : Prop :=
  visited s' = visited s ++ vs
  /\ scan_results s'
     = scan_results s
       ++ omap (fun v => pushed_of (body_of clk max_depth include_hidden v)) vs
  /\ scan_errors s' = scan_errors s ++ (vs ≫= errors_of)
  /\ Forall (visit_ok depth dir entries) vs
  /\ (aborted s = true -> aborted s' = true)
  /\ (aborted s' = true ->
      aborted s = true
      \/ Exists (fun w => is_fatal w = true) (vs ≫= errors_of)).

End ScanVocabulary.

(** [root_path] names, possibly through symbolic links, a directory whose
    [stat] succeeds and which opens on the listing [entries]. *)
Definition root_listing (fs : filesystem) (root_path : string)
           (entries : list (string * inode)) : Prop :=
  exists root st,
    fs root_path = Some root
    /\ resolve root = Return (Some (Directory (Return st) Listable entries)).

(** A file clock five seconds after its epoch, read together with a system
    clock at 1700000100 s. *)
Definition steady_clock (t : nat) : clock_reading :=
  {| file_clock_now := 5000000000; sys_clock_now := 1700000100000000000 |}.

Definition dir_stat : stat_t :=
  {| st_size := 4096; st_mtime := 2500000000; st_mode := 493 |}.

Definition listing (entries : list (string * inode)) : inode :=
  Directory (Return dir_stat) Listable entries.

Definition single_root (root_path : string) (root : inode) : filesystem :=
  fun p => if bool_decide (p = root_path) then Some root else None.

(** The scenario of the specification: [a.txt] next to [.hidden/b.txt]. *)
Definition scenario_entries : list (string * inode) :=
  [("a.txt", a_txt); (".hidden", listing [("b.txt", a_txt)])].

(** Three levels: [a/b/c]. *)
Definition nested_entries : list (string * inode) :=
  [("a", listing [("b", listing [("c", a_txt)])])].

(** A dangling link before a regular file. *)
Definition broken_entries : list (string * inode) :=
  [("broken", DanglingSymlink); ("ok.txt", a_txt)].

(** A symbolic link to an empty directory. *)
Definition dir_link : inode := Symlink (listing []).

Definition link_entries : list (string * inode) := [("link", dir_link)].

Fixpoint before_last (sep : ascii) (l : list ascii) : list ascii :=
  match l with
  | [] => []
  | c :: l' =>
      if bool_decide (sep ∈ l') then c :: before_last sep l'
      else if bool_decide (c = sep) then [] else [c]
  end.

Fixpoint after_last (sep : ascii) (l : list ascii) : list ascii :=
  match l with
  | [] => []
  | c :: l' =>
      if bool_decide (sep ∈ l') then after_last sep l'
      else if bool_decide (c = sep) then l' else c :: l'
  end.

(** The decompositions on paths of the form [/dir/.../name] without
    repeated or trailing separators and whose last name is neither [.] nor
    [..]. *)
Definition plain_lexer : PathLexer := {|
  path_filename := fun p =>
    string_of_list_ascii (after_last "/"%char (list_ascii_of_string p));
  path_extension := fun p =>
    let f := after_last "/"%char (list_ascii_of_string p) in
    match f with
    | [] => EmptyString
    | c :: rest =>
        if bool_decide ("."%char ∈ rest)
        then string_of_list_ascii ("."%char :: after_last "."%char rest)
        else EmptyString
    end;
  path_parent_path := fun p =>
    let l := list_ascii_of_string p in
    if bool_decide ("/"%char ∈ l) then
      match before_last "/"%char l with
      | [] => "/"
      | d => string_of_list_ascii d
      end
    else EmptyString
|}.

(** The iteration of the loop on [e], found in the directory [dir] at depth
    [depth], when the scan is in state [s]. *)
Definition visit_at (depth : nat) (dir filename : string) (e : inode)
           (s : scan_state) : visit :=
  {| v_depth := depth; v_path := path_append dir filename;
     v_name := filename; v_entry := e; v_sample := samples s |}.

(** A directory that exists but cannot be opened, for a reason other than a
    denied permission. *)
Definition unopenable_entries : list (string * inode) :=
  [("a", Directory (Return dir_stat) (OpenError "Input/output error") [])].

(** Induction on inodes that reaches into the listings of directories. *)
Section inode_induction.
Variable P : inode -> Prop.
Hypothesis HRegular : forall st content, P (Regular st content).
Hypothesis HDirectory : forall st acc entries,
    Forall (fun ne => P ne.2) entries -> P (Directory st acc entries).
Hypothesis HSymlink : forall target, P target -> P (Symlink target).
Hypothesis HDangling : P DanglingSymlink.
Hypothesis HBroken : forall what, P (BrokenSymlink what).
Hypothesis HSpecial : forall kind st content, P (Special kind st content).

Fixpoint inode_nested_ind (i : inode) : P i :=
  match i with
  | Regular st content => HRegular st content
  | Directory st acc entries =>
      HDirectory st acc entries
        ((fix all (l : list (string * inode)) : Forall (fun ne => P ne.2) l :=
            match l with
            | [] => List.Forall_nil _
            | ne :: l' =>
                @List.Forall_cons _ _ ne l'
                  (match ne return P ne.2 with
                   | (_, e) => inode_nested_ind e
                   end)
                  (all l')
            end) entries)
  | Symlink target => HSymlink target (inode_nested_ind target)
  | DanglingSymlink => HDangling
  | BrokenSymlink what => HBroken what
  | Special kind st content => HSpecial kind st content
  end.
End inode_induction.

(** ** Further vocabulary *)

(** The position of a character among the hexadecimal digits. *)
Fixpoint hex_index (c : ascii) (digits : list ascii) : option N :=
  match digits with
  | [] => None
  | d :: ds =>
      if bool_decide (d = c) then Some 0%N else N.succ <$> hex_index c ds
  end.

(** Reading a rendering back: two digits per byte, high nibble first. *)
Fixpoint of_hex (s : string) : list byte :=
  match s with
  | String hi (String lo rest) =>
      match hex_index hi (list_ascii_of_string hex_chars),
            hex_index lo (list_ascii_of_string hex_chars) with
      | Some h, Some l =>
          match Byte.of_N (16 * h + l) with
          | Some b => b :: of_hex rest
          | None => []
          end
      | _, _ => []
      end
  | _ => []
  end.

(** An engine that keeps the arguments of its [update] calls, in order. *)
Definition recording_engine : HashEngine := {|
  blake3_hasher := list (list byte);
  blake3_hasher_init := [];
  blake3_hasher_update := fun h input => h ++ [input];
  blake3_hasher_finalize := fun _ _ => []
|}.

(** The values [FileInfo::to_dict] stores: a string, the unsigned size, the
    [double] of whole seconds, a flag. *)
Inductive py_object :=
| py_text (s : string)
| py_int (n : N)
| py_float (seconds : Z)
| py_bool (b : bool).

(** [FileInfo::to_dict] *)
Definition to_dict (info : FileInfo.t) : gmap string py_object :=
  <["is_symlink" := py_bool (FileInfo.is_symlink info)]>
    (<["is_directory" := py_bool (FileInfo.is_directory info)]>
       (<["mtime" := py_float (FileInfo.mtime info)]>
          (<["size" := py_int (FileInfo.size info)]>
             (<["name" := py_text (FileInfo.name info)]>
                (<["path" := py_text (FileInfo.path info)]> ∅))))).

#[global] Instance worker_eq_dec : EqDecision worker.
Proof. solve_decision. Defined.

(** The number of workers that have left their loop. *)
Definition exited_count (p : pool) : nat :=
  length (filter (fun w => w = Exited) (threads p)).

(** The cursor counts the claims: up to the number of paths no worker has
    left, and beyond it each further claim is the last one of a worker. *)
Definition cursor_inv (file_paths : list string) (p : pool) : Prop :=
  (next_index p ≤ length file_paths -> exited_count p = 0)
  /\ (length file_paths ≤ next_index p ->
      next_index p = length file_paths + exited_count p).

(** The fields of a record that do not come from the clocks. *)
Definition same_entry (r r' : FileInfo.t) : Prop :=
  FileInfo.path r = FileInfo.path r'
  /\ FileInfo.name r = FileInfo.name r'
  /\ FileInfo.size r = FileInfo.size r'
  /\ FileInfo.is_directory r = FileInfo.is_directory r'
  /\ FileInfo.is_symlink r = FileInfo.is_symlink r'.

(** A regular file whose device fails after three bytes. *)
Definition failing_txt : inode :=
  Regular (Return (plain_stat 5))
          (Some {| available := [x68; x65; x6c]; then_error := true |}).

(** A regular file that cannot be opened. *)
Definition locked_txt : inode := Regular (Return (plain_stat 5)) None.


(** What [get_file_info] returns for [/tmp/a.txt] and [/dev/null] of
    [hashing_fs], and the scan record of an entry [a.txt]. *)
Definition a_txt_metadata : FileMetadata.t :=
  {| FileMetadata.path := "/tmp/a.txt";
     FileMetadata.name := "a.txt";
     FileMetadata.extension := ".txt";
     FileMetadata.parent := "/tmp";
     FileMetadata.is_regular_file := true;
     FileMetadata.is_directory := false;
     FileMetadata.is_symlink := false;
     FileMetadata.is_block_file := false;
     FileMetadata.is_character_file := false;
     FileMetadata.is_fifo := false;
     FileMetadata.is_socket := false;
     FileMetadata.size := 5;
     FileMetadata.mtime := 1700000097;
     FileMetadata.permissions := 420;
     FileMetadata.is_readable := true;
     FileMetadata.is_writable := true;
     FileMetadata.is_executable := false |}.

Definition dev_null_metadata : FileMetadata.t :=
  {| FileMetadata.path := "/dev/null";
     FileMetadata.name := "null";
     FileMetadata.extension := "";
     FileMetadata.parent := "/dev";
     FileMetadata.is_regular_file := false;
     FileMetadata.is_directory := false;
     FileMetadata.is_symlink := false;
     FileMetadata.is_block_file := false;
     FileMetadata.is_character_file := true;
     FileMetadata.is_fifo := false;
     FileMetadata.is_socket := false;
     FileMetadata.size := 0;
     FileMetadata.mtime := 1700000097;
     FileMetadata.permissions := 420;
     FileMetadata.is_readable := true;
     FileMetadata.is_writable := true;
     FileMetadata.is_executable := false |}.

Definition a_txt_record (path : string) : FileInfo.t :=
  {| FileInfo.path := path; FileInfo.name := "a.txt";
     FileInfo.size := 5; FileInfo.mtime := 1700000097;
     FileInfo.is_directory := false; FileInfo.is_symlink := false |}.

Definition hidden_record : FileInfo.t :=
  {| FileInfo.path := "/tmp/root/.hidden"; FileInfo.name := ".hidden";
     FileInfo.size := 0; FileInfo.mtime := 1700000097;
     FileInfo.is_directory := true; FileInfo.is_symlink := false |}.

Definition b_txt_record : FileInfo.t :=
  {| FileInfo.path := "/tmp/root/.hidden/b.txt"; FileInfo.name := "b.txt";
     FileInfo.size := 5; FileInfo.mtime := 1700000097;
     FileInfo.is_directory := false; FileInfo.is_symlink := false |}.

(** A directory that may not be listed. *)
Definition denied_dir : inode :=
  Directory (Return dir_stat) PermissionDenied [("x", a_txt)].

(** One path for each way of failing. *)
Definition failure_fs : filesystem := fun p =>
  if bool_decide (p = "/d") then Some (listing [])
  else if bool_decide (p = "/locked") then Some locked_txt
  else if bool_decide (p = "/failing") then Some failing_txt
  else if bool_decide (p = "/dangling") then Some DanglingSymlink
  else if bool_decide (p = "/denied") then Some denied_dir
  else None.

(** What the two clocks differ by in one reading. *)
Definition clock_offset (c : clock_reading) : Z :=
  (sys_clock_now c - file_clock_now c)%Z.

(** Two clocks that advance together, a microsecond per sample. *)
Definition advancing_clock (t : nat) : clock_reading :=
  {| file_clock_now := 5000000000 + 1000 * Z.of_nat t;
     sys_clock_now := 1700000100000000000 + 1000 * Z.of_nat t |}.

(** An upper bound on the atomic actions a worker still has before it leaves
    its loop, given the number of paths and the cursor. *)
Definition steps_left (n next : nat) (w : worker) : nat :=
  match w with
  | Exited => 0
  | Claiming => 2 * (n - next) + 1
  | Hashing _ => 2 * (n - next) + 2
  end.

Definition steps_left_of (n t : nat) (p : pool) : nat :=
  from_option (steps_left n (next_index p)) 0 (threads p !! t).

(** How often the scheduler picks worker [t]. *)
Definition turns (t : nat) (schedule : list nat) : nat :=
  length (filter (fun x => x = t) schedule).
(** * Properties *)

(** ** The read loop *)

Section HashingFacts.
Context `{HashEngine}.

Lemma read_loop_exit fuel chunk_size file hasher :
  stream_ok file = false ->
  read_loop fuel chunk_size file hasher = Some (file, hasher).
Proof. intros Hok. destruct fuel; simpl; rewrite Hok; reflexivity. Qed.

Lemma good_stream_ok file : good file = true -> stream_ok file = true.
Proof.
  unfold good, stream_ok.
  destruct (eofbit file), (failbit file), (badbit file); simpl; congruence.
Qed.

(** An iteration on a readable stream with a positive chunk size either
    consumes input or leaves the stream in a failed state. *)
Lemma read_progress file chunk_size :
  good file = true -> (1 ≤ chunk_size)%N ->
  length (unread (read file chunk_size).1) < length (unread file)
  ∨ stream_ok (read file chunk_size).1 = false.
Proof.
  intros Hgood Hpos. unfold read. rewrite Hgood. simpl.
  destruct (N.leb_spec chunk_size (N.of_nat (length (unread file)))) as [Hle|Hgt].
  - left. simpl. rewrite length_drop. lia.
  - right. destruct (device_fails file); reflexivity.
Qed.

(** With chunk size zero a read changes nothing. *)
Lemma read_zero file : good file = true -> read file 0 = (file, []).
Proof.
  intros Hgood. unfold read. rewrite Hgood. simpl.
  replace (0 <=? N.of_nat (length (unread file)))%N with true
    by (symmetry; apply N.leb_le; lia).
  destruct file as [u d e f b]; simpl in *.
  unfold good in Hgood; simpl in Hgood.
  destruct e, f, b; simpl in Hgood; try discriminate.
  reflexivity.
Qed.

Lemma read_loop_zero fuel file hasher :
  good file = true -> read_loop fuel 0 file hasher = None.
Proof.
  intros Hgood. induction fuel as [|fuel IH]; simpl;
    rewrite (good_stream_ok _ Hgood); simpl; [reflexivity|].
  rewrite (read_zero _ Hgood). simpl. exact IH.
Qed.

(** Reading to the end of a device that does not fail. *)
Lemma read_loop_eof (Hci : chunk_insensitive) chunk_size :
  (1 ≤ chunk_size)%N ->
  forall fuel file hasher,
    good file = true -> device_fails file = false ->
    length (unread file) < fuel ->
    read_loop fuel chunk_size file hasher
    = Some (at_eof, feed hasher (unread file)).
Proof.
  intros Hpos. induction fuel as [|fuel IH]; intros file hasher Hgood Hdev Hlen;
    [lia|].
  simpl. rewrite (good_stream_ok _ Hgood). simpl.
  unfold read. rewrite Hgood. simpl.
  destruct (N.leb_spec chunk_size (N.of_nat (length (unread file)))) as [Hle|Hgt].
  - set (n := N.to_nat chunk_size).
    assert (Hn : (1 ≤ n ≤ length (unread file))%nat) by (unfold n; lia).
    rewrite bool_decide_eq_true_2 by (rewrite length_take; lia).
    rewrite IH; simpl; [| reflexivity | assumption | rewrite length_drop; lia].
    f_equal. f_equal. unfold feed.
    rewrite (bool_decide_eq_true_2 (0 < length (unread file))) by lia.
    case_bool_decide as Hrest.
    + rewrite Hci, take_drop. reflexivity.
    + rewrite length_drop in Hrest.
      rewrite take_ge by lia. reflexivity.
  - rewrite Hdev. rewrite read_loop_exit by reflexivity.
    reflexivity.
Qed.

(** Reading from a device that fails after its last byte ends with
    [badbit] set. *)
Lemma read_loop_error chunk_size :
  (1 ≤ chunk_size)%N ->
  forall fuel file hasher,
    good file = true -> device_fails file = true ->
    length (unread file) < fuel ->
    exists hasher', read_loop fuel chunk_size file hasher
                    = Some (at_error, hasher').
Proof.
  intros Hpos. induction fuel as [|fuel IH]; intros file hasher Hgood Hdev Hlen;
    [lia|].
  simpl. rewrite (good_stream_ok _ Hgood). simpl.
  unfold read. rewrite Hgood. simpl.
  destruct (N.leb_spec chunk_size (N.of_nat (length (unread file)))) as [Hle|Hgt].
  - apply IH; simpl; [reflexivity | assumption | rewrite length_drop; lia].
  - rewrite Hdev. rewrite read_loop_exit by reflexivity. eauto.
Qed.

Lemma read_loop_total chunk_size fuel file hasher :
  (1 ≤ chunk_size)%N -> good file = true ->
  length (unread file) < fuel ->
  is_Some (read_loop fuel chunk_size file hasher).
Proof.
  intros Hpos. revert file hasher.
  induction fuel as [|fuel IH]; intros file hasher Hgood Hlen; [lia|].
  simpl. rewrite (good_stream_ok _ Hgood). simpl.
  unfold read. rewrite Hgood. simpl.
  destruct (N.leb_spec chunk_size (N.of_nat (length (unread file)))) as [Hle|Hgt].
  - apply IH; simpl; [reflexivity | rewrite length_drop; lia].
  - destruct (device_fails file); rewrite read_loop_exit by reflexivity; eauto.
Qed.

(** More fuel does not change the outcome of a run that finished. *)
Lemma read_loop_more_fuel chunk_size fuel fuel' file hasher r :
  read_loop fuel chunk_size file hasher = Some r -> fuel ≤ fuel' ->
  read_loop fuel' chunk_size file hasher = Some r.
Proof.
  revert fuel' file hasher.
  induction fuel as [|fuel IH]; intros fuel' file hasher Hrun Hle.
  - simpl in Hrun. destruct (stream_ok file) eqn:Hok; simpl in Hrun;
      [discriminate|].
    rewrite read_loop_exit by assumption. assumption.
  - destruct fuel' as [|fuel']; [lia|]. simpl in *.
    destruct (stream_ok file); simpl in *; [|assumption].
    destruct (read file chunk_size) as [file' buffer].
    apply IH; [assumption | lia].
Qed.

(** [hash_stream] is the loop: whatever some bound lets the loop produce,
    [hash_stream] produces. *)
Lemma read_loop_fuel_exact chunk_size fuel file hasher r :
  good file = true ->
  read_loop fuel chunk_size file hasher = Some r ->
  hash_stream chunk_size file hasher = Some r.
Proof.
  intros Hgood Hrun. unfold hash_stream.
  destruct (N.eq_dec chunk_size 0%N) as [->|Hnz].
  - rewrite read_loop_zero in Hrun by assumption. discriminate.
  - destruct (read_loop_total chunk_size (S (length (unread file))) file hasher)
      as [r' Hr']; [lia | assumption | lia |].
    rewrite Hr'. f_equal.
    destruct (Nat.le_ge_cases fuel (S (length (unread file)))) as [Hle|Hge].
    + rewrite (read_loop_more_fuel _ _ _ _ _ _ Hrun Hle) in Hr'. congruence.
    + rewrite (read_loop_more_fuel _ _ _ _ _ _ Hr' Hge) in Hrun. congruence.
Qed.

Lemma ifstream_open_good fs p file :
  ifstream_open fs p = Some file -> good file = true.
Proof.
  unfold ifstream_open. intros Hopen.
  destruct (fs p) as [i|]; simpl in Hopen; [|discriminate].
  destruct (open_source i) as [s|]; simpl in Hopen; [|discriminate].
  injection Hopen as <-. reflexivity.
Qed.

End HashingFacts.

Section HashFileFacts.
Context `{HashEngine}.

Lemma hash_stream_eof (Hci : chunk_insensitive) chunk_size file hasher :
  (1 ≤ chunk_size)%N -> good file = true -> device_fails file = false ->
  hash_stream chunk_size file hasher
  = Some (at_eof, feed hasher (unread file)).
Proof. intros. apply read_loop_eof; auto. Qed.

Lemma hash_stream_error chunk_size file hasher :
  (1 ≤ chunk_size)%N -> good file = true -> device_fails file = true ->
  exists hasher', hash_stream chunk_size file hasher = Some (at_error, hasher').
Proof. intros. apply read_loop_error; auto. Qed.

Lemma regular_file_open fs file_path st src :
  readable_regular_file fs file_path st src ->
  fs_exists fs file_path = Return true
  /\ fs_is_regular_file fs file_path = Return true
  /\ ifstream_open fs file_path
     = Some {| unread := available src; device_fails := then_error src;
               eofbit := false; failbit := false; badbit := false |}.
Proof.
  intros (i & Hfs & Hres).
  unfold fs_exists, fs_is_regular_file, path_status, ifstream_open,
    open_source, status.
  rewrite Hfs. simpl. rewrite Hres. simpl. auto.
Qed.

(** C10: on an existing, readable regular file and with [chunk_size >= 1]
    every iteration of the read loop either consumes input or ends the
    stream, the loop exits within one more iteration than there are unread
    bytes, and [calculate_blake3] returns; with [chunk_size = 0] no bound on
    the iterations lets the loop exit and the call does not return. *)
Theorem calculate_blake3_loop_terminates fs heap file_path st src :
  readable_regular_file fs file_path st src ->
  exists file,
    ifstream_open fs file_path = Some file
    /\ (forall chunk_size, (1 ≤ chunk_size)%N ->
          (forall f, good f = true ->
             length (unread (read f chunk_size).1) < length (unread f)
             ∨ stream_ok (read f chunk_size).1 = false)
          /\ (forall fuel hasher, length (unread file) < fuel ->
                is_Some (read_loop fuel chunk_size file hasher))
          /\ is_Some (calculate_blake3 fs heap file_path chunk_size))
    /\ (forall fuel hasher, read_loop fuel 0 file hasher = None)
    /\ calculate_blake3 fs heap file_path 0 = None.
Proof.
  intros Hreg.
  destruct (regular_file_open _ _ _ _ Hreg) as (Hex & Hisreg & Hopen).
  eexists. split; [exact Hopen|].
  split; [|split].
  - intros chunk_size Hpos. split; [|split].
    + intros f Hgood. apply read_progress; assumption.
    + intros fuel hasher Hfuel. apply read_loop_total; auto.
    + unfold calculate_blake3. rewrite Hex, Hisreg.
      destruct (new_array heap chunk_size); [eauto|]. rewrite Hopen.
      destruct (read_loop_total chunk_size
                  (S (length (available src)))
                  {| unread := available src; device_fails := then_error src;
                     eofbit := false; failbit := false; badbit := false |}
                  blake3_hasher_init) as [[file' hasher] Hrun];
        [assumption | reflexivity | simpl; lia |].
      unfold hash_stream. simpl unread. rewrite Hrun. simpl.
      destruct (badbit file'); eauto.
  - intros fuel hasher. apply read_loop_zero. reflexivity.
  - unfold calculate_blake3. rewrite Hex, Hisreg.
    change (new_array heap 0) with (@None string). rewrite Hopen.
    unfold hash_stream. rewrite read_loop_zero by reflexivity. reflexivity.
Qed.

(** C6, amended: for positive chunk sizes whose buffer can be allocated
    the outcome of [calculate_blake3] on a path does not depend on the chunk
    size, and on a readable regular file it is the digest of the file's
    bytes, provided [blake3_hasher_update] is insensitive to chunk
    boundaries; with a chunk size whose buffer cannot be allocated the call
    on such a file throws what the allocator throws and returns no
    digest. *)
Theorem calculate_blake3_chunk_size_independent fs heap file_path c1 c2 :
  chunk_insensitive ->
  (1 ≤ c1)%N -> heap c1 = None -> (1 ≤ c2)%N -> heap c2 = None ->
  calculate_blake3 fs heap file_path c1 = calculate_blake3 fs heap file_path c2
  /\ (forall st src,
        readable_regular_file fs file_path st src ->
        (then_error src = false ->
         calculate_blake3 fs heap file_path c1
         = Some (Return (digest_of (available src))))
        /\ (forall c what, (1 ≤ c)%N -> heap c = Some what ->
              calculate_blake3 fs heap file_path c = Some (Throw what))).
Proof.
  intros Hci H1 Hm1 H2 Hm2.
  assert (Hnew : forall c, (1 ≤ c)%N -> new_array heap c = heap c).
  { intros c Hc. unfold new_array. rewrite bool_decide_eq_false_2 by lia.
    reflexivity. }
  split.
  - unfold calculate_blake3.
    destruct (fs_exists fs file_path) as [[|]|]; try reflexivity.
    destruct (fs_is_regular_file fs file_path) as [[|]|]; try reflexivity.
    rewrite !Hnew, Hm1, Hm2 by assumption.
    destruct (ifstream_open fs file_path) as [file|] eqn:Hopen;
      [|reflexivity].
    pose proof (ifstream_open_good _ _ _ Hopen) as Hgood.
    destruct (device_fails file) eqn:Hdev.
    + destruct (hash_stream_error c1 file blake3_hasher_init H1 Hgood Hdev)
        as [h1 ->].
      destruct (hash_stream_error c2 file blake3_hasher_init H2 Hgood Hdev)
        as [h2 ->].
      reflexivity.
    + rewrite !hash_stream_eof by assumption. reflexivity.
  - intros st src Hreg.
    destruct (regular_file_open _ _ _ _ Hreg) as (Hex & Hisreg & Hopen).
    unfold calculate_blake3. rewrite Hex, Hisreg. split.
    + intros Hnoerr. rewrite Hnew, Hm1, Hopen by assumption.
      rewrite hash_stream_eof by (assumption || reflexivity).
      reflexivity.
    + intros c what Hc Hfail. rewrite Hnew, Hfail by assumption. reflexivity.
Qed.

End HashFileFacts.

Lemma echo_engine_chunk_insensitive : @chunk_insensitive echo_engine.
Proof. intros h a b. simpl. symmetry. apply app_assoc. Qed.

Lemma calculate_blake3_loop_terminates_witness :
  exists file,
    ifstream_open hashing_fs "/tmp/a.txt" = Some file
    /\ (forall chunk_size, (1 ≤ chunk_size)%N ->
          (forall f, good f = true ->
             length (unread (read f chunk_size).1) < length (unread f)
             ∨ stream_ok (read f chunk_size).1 = false)
          /\ (forall fuel hasher, length (unread file) < fuel ->
                is_Some (read_loop (H := echo_engine) fuel chunk_size file hasher))
          /\ is_Some (calculate_blake3 (H := echo_engine) hashing_fs
                        gibibyte "/tmp/a.txt" chunk_size))
    /\ (forall fuel hasher,
          read_loop (H := echo_engine) fuel 0 file hasher = None)
    /\ calculate_blake3 (H := echo_engine) hashing_fs gibibyte
         "/tmp/a.txt" 0 = None.
Proof.
  apply (calculate_blake3_loop_terminates (H := echo_engine) hashing_fs
           gibibyte "/tmp/a.txt" (plain_stat 5)
           {| available := hello; then_error := false |}).
  exists a_txt. split; reflexivity.
Defined.

Lemma calculate_blake3_chunk_size_independent_witness :
  calculate_blake3 (H := echo_engine) hashing_fs gibibyte "/tmp/a.txt" 1
  = calculate_blake3 (H := echo_engine) hashing_fs gibibyte "/tmp/a.txt" 17
  /\ (forall st src,
        readable_regular_file hashing_fs "/tmp/a.txt" st src ->
        (then_error src = false ->
         calculate_blake3 (H := echo_engine) hashing_fs gibibyte
           "/tmp/a.txt" 1
         = Some (Return (digest_of (H := echo_engine) (available src))))
        /\ (forall c what, (1 ≤ c)%N -> gibibyte c = Some what ->
              calculate_blake3 (H := echo_engine) hashing_fs gibibyte
                "/tmp/a.txt" c
              = Some (Throw what))).
Proof.
  apply (calculate_blake3_chunk_size_independent (H := echo_engine)
           hashing_fs gibibyte "/tmp/a.txt" 1 17).
  - intros h a b. simpl. symmetry. apply app_assoc.
  - lia.
  - reflexivity.
  - lia.
  - reflexivity.
Defined.

(** C6 as stated fails: with a gibibyte to allocate from, chunk size 1
    gives the digest of [/tmp/a.txt] and chunk size 2^62 throws. *)
Lemma calculate_blake3_chunk_size_beyond_memory :
  (1 ≤ 1)%N /\ (1 ≤ 4611686018427387904)%N
  /\ calculate_blake3 (H := echo_engine) hashing_fs gibibyte "/tmp/a.txt" 1
     = Some (Return
         "68656c6c6f000000000000000000000000000000000000000000000000000000")
  /\ calculate_blake3 (H := echo_engine) hashing_fs gibibyte "/tmp/a.txt"
       4611686018427387904
     = Some (Throw "std::bad_alloc")
  /\ calculate_blake3 (H := echo_engine) hashing_fs gibibyte "/tmp/a.txt" 1
     ≠ calculate_blake3 (H := echo_engine) hashing_fs gibibyte "/tmp/a.txt"
         4611686018427387904.
Proof. vm_compute. repeat split; try discriminate; congruence. Qed.

Example calculate_blake3_hello :
  calculate_blake3 (H := echo_engine) hashing_fs gibibyte "/tmp/a.txt" 2
  = Some (Return
      "68656c6c6f000000000000000000000000000000000000000000000000000000").
Proof. vm_compute. reflexivity. Qed.

(** ** The batch scheduler *)

Lemma string_length_append (a b : string) :
  String.length (a +:+ b) = String.length a + String.length b.
Proof.
  induction a as [|c a IH]; [reflexivity|].
  change (String c a +:+ b) with (String c (a +:+ b)).
  cbn [String.length]. rewrite IH. reflexivity.
Qed.

Lemma to_hex_length output : String.length (to_hex output) = 64.
Proof.
  unfold to_hex.
  assert (Hgen : forall l,
    String.length
      (foldr (fun i acc => hex_of_byte (nth i output x00) +:+ acc)
             EmptyString l) = 2 * length l).
  { induction l as [|i l IH]; [reflexivity|].
    cbn [foldr length]. rewrite string_length_append, IH.
    unfold hex_of_byte. cbn [String.length]. lia. }
  rewrite Hgen. reflexivity.
Qed.

Section PoolFacts.
Variable job : string -> option (attempt job_exit).
Variable file_paths : list string.
Variable num_threads : nat.

Local Abbreviation inv := (pool_inv job file_paths num_threads).
Local Abbreviation step := (worker_step job file_paths).

Lemma pool_init_inv : inv (pool_init file_paths num_threads).
Proof.
  split; simpl.
  - apply length_replicate.
  - apply length_replicate.
  - apply length_replicate.
  - intros t i Ht. apply lookup_replicate_1 in Ht as [? _]. discriminate.
  - intros t t' i Ht. apply lookup_replicate_1 in Ht as [? _]. discriminate.
  - intros i path _ Hlt. lia.
  - intros i Hi _. rewrite !lookup_replicate_2 by assumption. auto.
  - intros t Ht. apply lookup_replicate_1 in Ht as [? _]. discriminate.
Qed.

Lemma in_flight_insert_other p t w i :
  (forall k, w ≠ Hashing k) ->
  in_flight {| next_index := next_index p; results := results p;
               errors := errors p; threads := <[t := w]> (threads p) |} i ->
  in_flight p i.
Proof.
  intros Hw [t0 Ht0]. simpl in Ht0.
  destruct (decide (t = t0)) as [->|Hne].
  - apply list_lookup_insert_Some in Ht0 as [(_ & Heq & _)|(? & _)];
      [|congruence]. exfalso. eapply Hw. eauto.
  - rewrite list_lookup_insert_ne in Ht0 by assumption. exists t0. assumption.
Qed.

Lemma claim_preserves p t :
  inv p -> threads p !! t = Some Claiming ->
  inv {| next_index := S (next_index p);
         results := results p; errors := errors p;
         threads := <[t := if bool_decide (length file_paths ≤ next_index p)
                           then Exited else Hashing (next_index p)]>
                      (threads p) |}.
Proof.
  intros [Hth Hr He Hcl Hown Hdone Hfresh Hex] Ht.
  assert (Htlt : t < length (threads p)) by (eapply lookup_lt_Some; eauto).
  split; simpl.
  - rewrite length_insert. assumption.
  - assumption.
  - assumption.
  - intros t0 i Ht0. apply list_lookup_insert_Some in Ht0
      as [(-> & Heq & _)|(Hne & Hold)].
    + case_bool_decide; [discriminate|]. injection Heq as <-. lia.
    + destruct (Hcl _ _ Hold). lia.
  - intros t1 t2 i H1 H2.
    apply list_lookup_insert_Some in H1 as [(-> & Heq1 & _)|(Hne1 & Hold1)];
      apply list_lookup_insert_Some in H2 as [(-> & Heq2 & _)|(Hne2 & Hold2)].
    + reflexivity.
    + case_bool_decide; [discriminate|]. injection Heq1 as <-.
      destruct (Hcl _ _ Hold2). lia.
    + case_bool_decide; [discriminate|]. injection Heq2 as <-.
      destruct (Hcl _ _ Hold1). lia.
    + eauto.
  - intros i path Hpath Hlt Hnot.
    assert (Hi : i < length file_paths) by (eapply lookup_lt_Some; eauto).
    destruct (decide (i = next_index p)) as [->|Hne].
    + exfalso. apply Hnot. exists t. simpl.
      rewrite list_lookup_insert_eq by assumption.
      rewrite bool_decide_eq_false_2 by lia. reflexivity.
    + apply Hdone; [assumption | lia |].
      intros [t0 Ht0]. apply Hnot. exists t0. simpl.
      rewrite list_lookup_insert_ne; [assumption|]. congruence.
  - intros i Hi Hor. apply Hfresh; [assumption|].
    destruct Hor as [Hge|[t0 Ht0]]; [left; lia|]. simpl in Ht0.
    apply list_lookup_insert_Some in Ht0 as [(-> & Heq & _)|(Hne & Hold)].
    + case_bool_decide; [discriminate|]. injection Heq as <-. left. lia.
    + right. exists t0. assumption.
  - intros t0 Ht0.
    apply list_lookup_insert_Some in Ht0 as [(-> & Heq & _)|(Hne & Hold)].
    + case_bool_decide; [lia|discriminate].
    + specialize (Hex _ Hold). lia.
Qed.

Lemma finish_preserves p t idx path j rs es :
  inv p -> threads p !! t = Some (Hashing idx) ->
  file_paths !! idx = Some path -> job path = Some j ->
  length rs = length (results p) -> length es = length (errors p) ->
  rs !! idx = Some (slot_of path j).1 ->
  es !! idx = Some (slot_of path j).2 ->
  (forall i, i ≠ idx -> rs !! i = results p !! i /\ es !! i = errors p !! i) ->
  inv {| next_index := next_index p; results := rs; errors := es;
         threads := <[t := Claiming]> (threads p) |}.
Proof.
  intros Hinv Ht Hpath Hjob Hlr Hle Hrs Hes Hother.
  destruct Hinv as [Hth Hr He Hcl Hown Hdone Hfresh Hex].
  split; simpl.
  - rewrite length_insert. assumption.
  - congruence.
  - congruence.
  - intros t0 i Ht0.
    apply list_lookup_insert_Some in Ht0 as [(_ & Heq & _)|(Hne & Hold)];
      [discriminate | eauto].
  - intros t1 t2 i H1 H2.
    apply list_lookup_insert_Some in H1 as [(_ & Heq & _)|(Hne1 & Hold1)];
      [discriminate|].
    apply list_lookup_insert_Some in H2 as [(_ & Heq & _)|(Hne2 & Hold2)];
      [discriminate|]. eauto.
  - intros i path' Hpath' Hlt Hnot.
    destruct (decide (i = idx)) as [->|Hne].
    + assert (path' = path) as -> by congruence. eauto.
    + assert (Hold : ~ in_flight p i).
      { intros [t0 Ht0]. apply Hnot. exists t0. simpl.
        rewrite list_lookup_insert_ne; [assumption|].
        intros ->. congruence. }
      destruct (Hdone _ _ Hpath' Hlt Hold) as (j' & Hj' & Hr' & He').
      destruct (Hother i Hne) as [-> ->]. eauto.
  - intros i Hi Hor.
    assert (Hor' : next_index p ≤ i \/ in_flight p i).
    { destruct Hor as [?|Hfl]; [auto|]. right.
      eapply in_flight_insert_other; [|exact Hfl]. discriminate. }
    assert (Hne : i ≠ idx).
    { destruct Hor as [?|[t0 Ht0]]; [destruct (Hcl _ _ Ht); lia|].
      simpl in Ht0.
      apply list_lookup_insert_Some in Ht0 as [(_ & Heq & _)|(Hne & Hold)];
        [discriminate|].
      intros ->. apply Hne. eauto. }
    destruct (Hother i Hne) as [-> ->]. auto.
  - intros t0 Ht0.
    apply list_lookup_insert_Some in Ht0 as [(_ & Heq & _)|(Hne & Hold)];
      [discriminate | eauto].
Qed.

Lemma worker_step_inv t p : inv p -> inv (step t p).
Proof.
  intros Hinv. unfold worker_step.
  destruct (threads p !! t) as [[| idx |]|] eqn:Ht; try assumption.
  - apply claim_preserves; assumption.
  - destruct (file_paths !! idx) as [path|] eqn:Hpath; [|assumption].
    destruct (job path) as [j|] eqn:Hjob; [|assumption].
    pose proof Hinv as [_ Hr He Hcl _ _ Hfresh _].
    destruct (Hcl _ _ Ht) as [_ Hidxn].
    destruct (Hfresh idx Hidxn) as [Hr0 He0]; [right; exists t; assumption|].
    assert (Hir : idx < length (results p)) by lia.
    assert (Hie : idx < length (errors p)) by lia.
    destruct j as [[hex|msg]|w];
      (apply (finish_preserves p t idx path _ _ _ Hinv Ht Hpath Hjob);
       [ rewrite ?length_insert; reflexivity
       | rewrite ?length_insert; reflexivity
       | cbn [slot_of fst snd];
         first [ apply list_lookup_insert_eq; assumption | assumption ]
       | cbn [slot_of fst snd];
         first [ apply list_lookup_insert_eq; assumption | assumption ]
       | intros i Hne; rewrite ?list_lookup_insert_ne by congruence; auto ]).
Qed.

Lemma run_pool_inv schedule p :
  inv p -> inv (run_pool job file_paths schedule p).
Proof.
  revert p. induction schedule as [|t schedule IH]; intros p Hinv;
    [assumption|].
  simpl. apply IH. apply worker_step_inv. assumption.
Qed.

(** After the joins every slot holds the outcome of its own path. *)
Lemma joined_slots p :
  0 < num_threads -> inv p -> joined p ->
  forall i path, file_paths !! i = Some path ->
    exists j, job path = Some j
              /\ results p !! i = Some (slot_of path j).1
              /\ errors p !! i = Some (slot_of path j).2.
Proof.
  intros Hpos Hinv Hjoin i path Hpath.
  pose proof Hinv as [Hth _ _ _ _ Hdone _ Hex].
  assert (H0 : threads p !! 0 = Some Exited).
  { destruct (threads p) as [|w ws] eqn:Hws; simpl in Hth; [lia|].
    unfold joined in Hjoin. rewrite Hws in Hjoin.
    inversion Hjoin; subst. reflexivity. }
  apply Hdone; [assumption | |].
  - specialize (Hex _ H0). apply lookup_lt_Some in Hpath. lia.
  - intros [t Ht]. unfold joined in Hjoin.
    rewrite Forall_lookup in Hjoin. specialize (Hjoin _ _ Ht). discriminate.
Qed.

End PoolFacts.

Section BuildFacts.
Variable job : string -> option (attempt job_exit).
Variable file_paths : list string.

Lemma build_entry_slot p m i path j :
  file_paths !! i = Some path ->
  results p !! i = Some (slot_of path j).1 ->
  errors p !! i = Some (slot_of path j).2 ->
  build_entry file_paths p m i = <[path := value_of j]> m.
Proof.
  intros Hpath Hr He. unfold build_entry. rewrite Hr, He, Hpath. simpl.
  destruct j as [[hex|msg]|w]; simpl; unfold or_unknown.
  - destruct (bool_decide (hex = EmptyString)); reflexivity.
  - rewrite andb_false_r. reflexivity.
  - rewrite andb_false_r. reflexivity.
Qed.

Lemma build_prefix p k :
  NoDup file_paths -> k ≤ length file_paths ->
  (forall i path, file_paths !! i = Some path ->
     exists j, job path = Some j
               /\ results p !! i = Some (slot_of path j).1
               /\ errors p !! i = Some (slot_of path j).2) ->
  dom (foldl (build_entry file_paths p) ∅ (seq 0 k))
  = list_to_set (take k file_paths)
  /\ forall i path, i < k -> file_paths !! i = Some path ->
       exists j, job path = Some j
                 /\ foldl (build_entry file_paths p) ∅ (seq 0 k) !! path
                    = Some (value_of j).
Proof.
  intros Hnodup Hk Hslots. induction k as [|k IH].
  - simpl. split; [apply dom_empty_L | intros; lia].
  - destruct IH as [IHdom IHlook]; [lia|].
    destruct (lookup_lt_is_Some_2 file_paths k) as [pk Hpk]; [lia|].
    destruct (Hslots _ _ Hpk) as (jk & Hjk & Hrk & Hek).
    rewrite seq_S, foldl_app. simpl.
    rewrite (build_entry_slot _ _ _ _ _ Hpk Hrk Hek).
    split.
    + rewrite dom_insert_L, IHdom, (take_S_r _ _ _ Hpk), list_to_set_app_L.
      simpl. rewrite union_empty_r_L. apply union_comm_L.
    + intros i path Hi Hpath.
      destruct (decide (i = k)) as [->|Hne].
      * assert (path = pk) as -> by congruence.
        exists jk. rewrite lookup_insert_eq. auto.
      * destruct (IHlook i path) as (j & Hj & Hlook); [lia | assumption |].
        exists j. split; [assumption|].
        rewrite lookup_insert_ne; [assumption|].
        intros ->. apply Hne. symmetry.
        eapply NoDup_lookup; eauto.
Qed.

(** Whatever the [try] block does and in whatever order the workers run,
    once every worker has been joined the dictionary has one key per
    path, bound to the outcome of that path. *)
Lemma batch_under_entries schedule num_threads m :
  NoDup file_paths -> (0 < num_threads)%Z ->
  batch_under job file_paths schedule num_threads = Some m ->
  dom m = list_to_set file_paths
  /\ base.size m = length file_paths
  /\ forall path, path ∈ file_paths ->
       exists j, job path = Some j /\ m !! path = Some (value_of j).
Proof.
  intros Hnodup Hpos. unfold batch_under.
  set (p := run_pool job file_paths schedule _).
  destruct (decide (joined p)) as [Hjoin|]; [|discriminate].
  intros [= <-].
  assert (Hinv : pool_inv job file_paths (Z.to_nat num_threads) p)
    by (apply run_pool_inv, pool_init_inv).
  pose proof (joined_slots job file_paths (Z.to_nat num_threads) p
                ltac:(lia) Hinv Hjoin) as Hslots.
  destruct (build_prefix p (length file_paths) Hnodup (le_n _) Hslots)
    as [Hdom Hlook].
  rewrite firstn_all in Hdom. unfold build_results.
  split; [exact Hdom|]. split.
  - rewrite <- size_dom, Hdom. apply size_list_to_set. assumption.
  - intros path Hin. apply list_elem_of_lookup in Hin as [i Hi].
    apply (Hlook i); [eapply lookup_lt_Some; eauto | assumption].
Qed.

Lemma worker_step_claim t p :
  threads p !! t = Some Claiming ->
  worker_step job file_paths t p
  = {| next_index := S (next_index p);
       results := results p; errors := errors p;
       threads := <[t := if bool_decide (length file_paths ≤ next_index p)
                         then Exited else Hashing (next_index p)]>
                    (threads p) |}.
Proof. intros Ht. unfold worker_step. rewrite Ht. reflexivity. Qed.

Lemma worker_step_finish t p idx path j :
  threads p !! t = Some (Hashing idx) ->
  file_paths !! idx = Some path -> job path = Some j ->
  next_index (worker_step job file_paths t p) = next_index p
  /\ threads (worker_step job file_paths t p) = <[t := Claiming]> (threads p).
Proof.
  intros Ht Hpath Hjob. unfold worker_step. rewrite Ht, Hpath, Hjob.
  destruct j as [[hex|msg]|w]; auto.
Qed.

Lemma run_first_worker num_threads k :
  0 < num_threads -> k ≤ length file_paths ->
  (forall path, path ∈ file_paths -> is_Some (job path)) ->
  next_index (run_pool job file_paths (replicate (2 * k) 0)
                (pool_init file_paths num_threads)) = k
  /\ threads (run_pool job file_paths (replicate (2 * k) 0)
                (pool_init file_paths num_threads))
     = replicate num_threads Claiming.
Proof.
  intros Hpos Hk Htotal. induction k as [|k IH]; [auto|].
  destruct IH as [IHn IHt]; [lia|].
  replace (2 * S k) with (2 * k + 2) by lia.
  rewrite replicate_add. unfold run_pool in *. rewrite foldl_app.
  set (p := foldl _ _ (replicate (2 * k) 0)) in *.
  destruct (lookup_lt_is_Some_2 file_paths k) as [path Hpath]; [lia|].
  destruct (Htotal path) as [j Hj]; [eapply list_elem_of_lookup_2; eauto|].
  simpl.
  assert (Hc : threads p !! 0 = Some Claiming)
    by (rewrite IHt; apply lookup_replicate_2; assumption).
  rewrite (worker_step_claim 0 p Hc).
  rewrite bool_decide_eq_false_2 by lia. rewrite IHn, IHt.
  match goal with |- context [worker_step job file_paths 0 ?q] =>
    destruct (worker_step_finish 0 q k path j) as [-> ->]; simpl
  end.
  - apply list_lookup_insert_eq. rewrite length_replicate. assumption.
  - assumption.
  - assumption.
  - split; [reflexivity|].
    rewrite list_insert_insert_eq. apply list_insert_id.
    apply lookup_replicate_2. assumption.
Qed.

Lemma run_exits num_threads m : forall k p,
  k + m = num_threads -> length (threads p) = num_threads ->
  length file_paths ≤ next_index p ->
  (forall t, t < k -> threads p !! t = Some Exited) ->
  (forall t, k ≤ t < num_threads -> threads p !! t = Some Claiming) ->
  joined (run_pool job file_paths (seq k m) p).
Proof.
  induction m as [|m IH]; intros k p Hkm Hlen Hnext Hdone Htodo.
  - simpl. unfold joined. apply Forall_lookup. intros t w Hw.
    assert (t < k) by (apply lookup_lt_Some in Hw; lia).
    rewrite Hdone in Hw by assumption. congruence.
  - simpl. rewrite worker_step_claim by (apply Htodo; lia).
    rewrite bool_decide_eq_true_2 by assumption.
    apply IH; simpl.
    + lia.
    + rewrite length_insert. assumption.
    + lia.
    + intros t Ht. destruct (decide (t = k)) as [->|Hne].
      * apply list_lookup_insert_eq. lia.
      * rewrite list_lookup_insert_ne by congruence. apply Hdone. lia.
    + intros t Ht. rewrite list_lookup_insert_ne by lia. apply Htodo. lia.
Qed.

(** There is a schedule under which every worker is joined. *)
Lemma batch_under_returns num_threads :
  (0 < num_threads)%Z ->
  (forall path, path ∈ file_paths -> is_Some (job path)) ->
  is_Some (batch_under job file_paths
             (sequential_schedule (length file_paths) (Z.to_nat num_threads))
             num_threads).
Proof.
  intros Hpos Htotal. unfold batch_under, sequential_schedule.
  set (T := Z.to_nat num_threads).
  assert (HT : 0 < T) by (unfold T; lia).
  destruct (run_first_worker T (length file_paths) HT (le_n _) Htotal)
    as [Hn Ht].
  unfold run_pool in *. rewrite foldl_app.
  set (p := foldl _ _ (replicate _ 0)) in *.
  destruct (decide (joined _)) as [|Hnot]; [eauto|].
  exfalso. apply Hnot.
  apply (run_exits T T 0 p); try lia.
  - rewrite Ht. apply length_replicate.
  - intros t Hlt. rewrite Ht. apply lookup_replicate_2. lia.
Qed.

End BuildFacts.

(** ** A [try] block that is never left *)

Section HeldUp.
Variable job : string -> option (attempt job_exit).
Variable file_paths : list string.
Variable idx : nat.
Variable path : string.
Hypothesis Hpath : file_paths !! idx = Some path.
Hypothesis Hjob : job path = None.

Lemma held_up_init num_threads :
  held_up idx (pool_init file_paths num_threads).
Proof.
  left. simpl. split; [lia|].
  apply Forall_forall. intros w Hw.
  apply elem_of_replicate in Hw as [-> _]. discriminate.
Qed.

Lemma held_up_step t p :
  held_up idx p -> held_up idx (worker_step job file_paths t p).
Proof.
  intros Hheld. unfold worker_step.
  destruct (threads p !! t) as [[| i |]|] eqn:Ht; try assumption.
  - pose proof (lookup_lt_Some _ _ _ Hpath) as Hidx.
    destruct Hheld as [[Hnext Hnone]|[t0 Ht0]].
    + rewrite bool_decide_eq_false_2 by lia.
      destruct (decide (next_index p = idx)) as [Heq|Hne].
      * right. exists t. simpl. rewrite Heq.
        apply list_lookup_insert_eq. eapply lookup_lt_Some; eauto.
      * left. simpl. split; [lia|].
        apply Forall_insert; [assumption | discriminate].
    + right. exists t0. simpl.
      rewrite list_lookup_insert_ne by congruence. assumption.
  - destruct (file_paths !! i) as [path'|] eqn:Hpath'; [|assumption].
    destruct (job path') as [j|] eqn:Hjob'; [|assumption].
    assert (Hthreads :
      held_up idx {| next_index := next_index p; results := results p;
                     errors := errors p;
                     threads := <[t := Claiming]> (threads p) |}
      -> forall r e, held_up idx {| next_index := next_index p; results := r;
                                    errors := e;
                                    threads := <[t := Claiming]> (threads p) |}).
    { intros Hh r e. exact Hh. }
    assert (Hh : held_up idx {| next_index := next_index p;
                                results := results p; errors := errors p;
                                threads := <[t := Claiming]> (threads p) |}).
    { destruct Hheld as [[Hnext Hnone]|[t0 Ht0]].
      - left. simpl. split; [assumption|].
        apply Forall_insert; [assumption | discriminate].
      - right. exists t0. simpl.
        destruct (decide (t = t0)) as [->|Hne].
        + rewrite Ht in Ht0. injection Ht0 as ->.
          rewrite Hpath in Hpath'. injection Hpath' as <-. congruence.
        + rewrite list_lookup_insert_ne by assumption. assumption. }
    destruct j as [[hex|msg]|w]; apply Hthreads; exact Hh.
Qed.

Lemma held_up_run schedule : forall p,
  held_up idx p -> held_up idx (run_pool job file_paths schedule p).
Proof.
  induction schedule as [|t schedule IH]; intros p Hheld; [assumption|].
  simpl. apply IH, held_up_step. assumption.
Qed.

Lemma held_up_not_joined p :
  held_up idx p -> 0 < length (threads p) -> ~ joined p.
Proof.
  intros [[_ Hnone]|[t Ht]] Hlen Hjoined; unfold joined in Hjoined.
  - destruct (threads p) as [|w ws]; [simpl in Hlen; lia|].
    apply Forall_cons in Hnone as [Hw _].
    apply Forall_cons in Hjoined as [Hw' _]. contradiction.
  - rewrite Forall_lookup in Hjoined. specialize (Hjoined t _ Ht).
    discriminate.
Qed.

(** While the block of one path is never left the workers are never all
    joined, whatever the schedule and the number of workers. *)
Lemma batch_under_held_up schedule num_threads :
  (0 < num_threads)%Z ->
  batch_under job file_paths schedule num_threads = None.
Proof.
  intros Hpos. unfold batch_under.
  destruct (decide (joined _)) as [Hjoined|]; [|reflexivity].
  exfalso. revert Hjoined. apply held_up_not_joined.
  - apply held_up_run, held_up_init.
  - rewrite (inv_threads job file_paths (Z.to_nat num_threads)); [lia|].
    apply run_pool_inv, pool_init_inv.
Qed.

End HeldUp.

Section HashJobFacts.
Context `{HashEngine}.
Variable fs : filesystem.

Lemma batch_chunk_size_positive : (1 ≤ batch_chunk_size)%N.
Proof. unfold batch_chunk_size. lia. Qed.

(** On anything but a device that never runs out the [try] block is left,
    with a digest of sixty-four characters or with one of its two
    messages. *)
Lemma hash_job_total path :
  endless fs path = false ->
  (exists hex, hash_job fs path = Some (Return (Stored hex))
               /\ String.length hex = 64)
  \/ (exists message, hash_job fs path = Some (Return (Failed message))
                      /\ message ≠ EmptyString).
Proof.
  intros Hends. unfold hash_job. rewrite Hends.
  destruct (ifstream_open fs path) as [file|] eqn:Hopen.
  - pose proof (ifstream_open_good _ _ _ Hopen) as Hgood.
    destruct (read_loop_total batch_chunk_size (S (length (unread file)))
                file blake3_hasher_init batch_chunk_size_positive Hgood)
      as [[file' hasher] Hrun]; [lia|].
    unfold hash_stream. rewrite Hrun. simpl.
    destruct (badbit file').
    + right. eexists. split; [reflexivity | discriminate].
    + left. eexists. split; [reflexivity | apply to_hex_length].
  - right. eexists. split; [reflexivity | discriminate].
Qed.

Lemma hash_job_endless path :
  hash_job fs path = None <-> endless fs path = true.
Proof.
  split.
  - intros Hnone. destruct (endless fs path) eqn:Hends; [reflexivity|].
    destruct (hash_job_total path Hends) as [(? & Heq & _)|(? & Heq & _)];
      rewrite Heq in Hnone; discriminate.
  - intros Hends. unfold hash_job. rewrite Hends. reflexivity.
Qed.

Lemma regular_exists path :
  fs_is_regular_file fs path = Return true ->
  fs_exists fs path = Return true.
Proof.
  unfold fs_is_regular_file, fs_exists.
  destruct (path_status fs path) as [s|w]; simpl; [|discriminate].
  intros [= Hreg]. apply bool_decide_eq_true_1 in Hreg.
  rewrite bool_decide_eq_true_2; [reflexivity|]. rewrite Hreg. discriminate.
Qed.

(** A regular file ends. *)
Lemma regular_ends path :
  fs_is_regular_file fs path = Return true -> endless fs path = false.
Proof.
  unfold fs_is_regular_file, path_status, endless, never_ends, status.
  destruct (fs path) as [i|]; [|reflexivity].
  destruct (resolve i) as [[j|]|]; simpl; try reflexivity.
  destruct j as [| | | | |kind st [[|]|]]; try reflexivity.
  destruct st as [st|]; simpl; [|discriminate].
  destruct kind; simpl; intros [= Hreg];
    apply bool_decide_eq_true_1 in Hreg; discriminate.
Qed.

(** On a path that [calculate_blake3] accepts as a regular file, a digest
    stored by the worker is the digest [calculate_blake3] returns with any
    chunk size it can allocate. *)
Lemma hash_job_matches_calculate_blake3 heap path hex chunk_size :
  chunk_insensitive -> (1 ≤ chunk_size)%N -> heap chunk_size = None ->
  fs_is_regular_file fs path = Return true ->
  hash_job fs path = Some (Return (Stored hex)) ->
  calculate_blake3 fs heap path chunk_size = Some (Return hex).
Proof.
  intros Hci Hpos Hmem Hreg. unfold hash_job, calculate_blake3.
  rewrite (regular_exists _ Hreg), Hreg, (regular_ends _ Hreg).
  unfold new_array. rewrite bool_decide_eq_false_2 by lia. rewrite Hmem.
  destruct (ifstream_open fs path) as [file|] eqn:Hopen; [|discriminate].
  pose proof (ifstream_open_good _ _ _ Hopen) as Hgood.
  destruct (device_fails file) eqn:Hdev.
  - destruct (hash_stream_error batch_chunk_size file blake3_hasher_init
                batch_chunk_size_positive Hgood Hdev) as [h ->].
    simpl. discriminate.
  - rewrite !hash_stream_eof
      by (assumption || apply batch_chunk_size_positive || lia).
    simpl. intros [= <-]. reflexivity.
Qed.

End HashJobFacts.

Lemma resolve_num_threads_positive hardware_concurrency num_threads :
  (0 < resolve_num_threads hardware_concurrency num_threads)%Z.
Proof.
  unfold resolve_num_threads. repeat case_bool_decide; lia.
Qed.

(** C2: a path that names the zero device keeps the call from returning.
    The worker opens the device without the test for a regular file that
    [calculate_blake3] makes, every read fills the buffer, the worker is
    never joined: with no schedule and no worker count is there a
    dictionary, and the regular file of the same list gets no entry either,
    although its own block is left with a digest. [calculate_blake3] on the
    device throws. *)
Theorem calculate_blake3_batch_held_up_by_zero_device :
  (forall hardware_concurrency schedule num_threads,
     calculate_blake3_batch (H := echo_engine) device_fs hardware_concurrency
       schedule ["/tmp/a.txt"; "/dev/zero"] num_threads = None)
  /\ hash_job (H := echo_engine) device_fs "/dev/zero" = None
  /\ hash_job (H := echo_engine) device_fs "/tmp/a.txt"
     = Some (Return (Stored
         "68656c6c6f000000000000000000000000000000000000000000000000000000"))
  /\ (forall heap,
        calculate_blake3 (H := echo_engine) device_fs heap "/dev/zero"
          batch_chunk_size
        = Some (Throw "Path is not a regular file: /dev/zero")).
Proof.
  split; [|split; [|split]].
  - intros hardware_concurrency schedule num_threads.
    unfold calculate_blake3_batch.
    apply (batch_under_held_up _ _ 1 "/dev/zero");
      [reflexivity | reflexivity | apply resolve_num_threads_positive].
  - reflexivity.
  - vm_compute. reflexivity.
  - intros heap. reflexivity.
Qed.

(** Two workers, interleaved: the three entries of the dictionary. *)
Example calculate_blake3_batch_run :
  let m := calculate_blake3_batch (H := echo_engine) hashing_fs 2
             [0; 1; 1; 0; 1; 0; 1; 1]
             ["/tmp/a.txt"; "/tmp/missing"; "/dev/null"] 0 in
  (m ≫= lookup "/tmp/a.txt",
   m ≫= lookup "/tmp/missing",
   m ≫= lookup "/dev/null")
  = (Some (py_str
       "68656c6c6f000000000000000000000000000000000000000000000000000000"),
     Some (py_error_info "Cannot open file"),
     Some (py_str
       "0000000000000000000000000000000000000000000000000000000000000000")).
Proof. vm_compute. reflexivity. Qed.

(** C3: at the null device the two hashers part. The worker of
    [calculate_blake3_batch] opens the path without asking what it names and
    stores the digest of the empty input; [calculate_blake3] on the same path
    throws because the path is not a regular file. *)
Theorem batch_digest_where_calculate_blake3_throws :
  (calculate_blake3_batch (H := echo_engine) hashing_fs 1 [0; 0; 0]
     ["/dev/null"] 1 ≫= lookup "/dev/null")
  = Some (py_str
      "0000000000000000000000000000000000000000000000000000000000000000")
  /\ hash_job (H := echo_engine) hashing_fs "/dev/null"
     = Some (Return (Stored
         "0000000000000000000000000000000000000000000000000000000000000000"))
  /\ (forall heap,
        calculate_blake3 (H := echo_engine) hashing_fs heap "/dev/null"
          batch_chunk_size
        = Some (Throw "Path is not a regular file: /dev/null")).
Proof.
  split; [vm_compute; reflexivity|]. split; [vm_compute; reflexivity|].
  intros heap. reflexivity.
Qed.

(** ** The directory scan *)


Section ScanFacts.
Variable clk : nat -> clock_reading.
Variable max_depth : Z.
Variable include_hidden : bool.

Local Abbreviation body := (body_of clk max_depth include_hidden).
Local Abbreviation scan1 := (scan_entry clk max_depth include_hidden).
Local Abbreviation scanl := (scan_list clk max_depth include_hidden).
Local Abbreviation ext := (extends_by clk max_depth include_hidden).

Lemma scan_entry_eq depth dir filename e s :
  scan1 depth dir filename e s
  = if aborted s then s
    else
      let v := visit_at depth dir filename e s in
      let s1 := after_body v (body v) s in
      match e with
      | Directory _ acc entries =>
          if recursion_pending_after (body v) then
            match acc with
            | Listable => scanl (S depth) (path_append dir filename) entries s1
            | PermissionDenied => s1
            | OpenError what => fatal what s1
            end
          else s1
      | _ => s1
      end.
Proof. destruct e; reflexivity. Qed.

Lemma scan_list_cons depth dir filename e l s :
  scanl depth dir ((filename, e) :: l) s
  = scanl depth dir l (scan1 depth dir filename e s).
Proof. reflexivity. Qed.

Lemma ext_refl depth dir entries s : ext depth dir entries s s [].
Proof.
  unfold extends_by. simpl. rewrite !app_nil_r.
  repeat split; auto using Forall_nil_2.
Qed.

Lemma ext_trans depth dir entries s s1 s2 vs1 vs2 :
  ext depth dir entries s s1 vs1 -> ext depth dir entries s1 s2 vs2 ->
  ext depth dir entries s s2 (vs1 ++ vs2).
Proof.
  intros (Hv1 & Hr1 & He1 & Hok1 & Hab1 & Hlog1)
         (Hv2 & Hr2 & He2 & Hok2 & Hab2 & Hlog2).
  unfold extends_by.
  rewrite Hv2, Hv1, Hr2, Hr1, He2, He1, omap_app, bind_app, <- !app_assoc.
  repeat split; auto.
  - apply Forall_app; auto.
  - intros Hab. rewrite Exists_app.
    destruct (Hlog2 Hab) as [Hs1|?]; [|auto].
    destruct (Hlog1 Hs1); auto.
Qed.

(** The recursion into a directory is pending after the body only when the
    directory is below the depth limit and not hidden from the scan. *)
Lemma pending_directory c depth p filename st acc kids :
  recursion_pending_after
    (loop_body max_depth include_hidden c depth p filename
       (Directory st acc kids)) = true ->
  ~ (0 < max_depth ∧ max_depth ≤ Z.of_nat depth)%Z
  /\ (include_hidden = false -> is_hidden filename = false).
Proof.
  unfold loop_body. case_bool_decide as Hdepth; [discriminate|].
  intros Hpend. split; [assumption|]. intros ->.
  destruct (is_hidden filename); [|reflexivity]. simpl in Hpend. discriminate.
Qed.

(** Below the depth limit and not hidden from the scan, the body runs to
    the construction of the record and leaves the recursion pending. *)
Lemma body_in_scope c depth p filename e :
  ~ (0 < max_depth ∧ max_depth ≤ Z.of_nat depth)%Z ->
  (include_hidden = false -> is_hidden filename = false) ->
  loop_body max_depth include_hidden c depth p filename e
  = match make_info c p filename e with
    | Throw what => Caught what
    | Return info => Pushed info
    end.
Proof.
  intros Hdepth Hvis. unfold loop_body.
  rewrite bool_decide_eq_false_2 by assumption.
  destruct include_hidden; [reflexivity|]. rewrite Hvis; reflexivity.
Qed.

Lemma visit_ok_here depth dir entries filename e s :
  (filename, e) ∈ entries ->
  visit_ok max_depth include_hidden depth dir entries
    (visit_at depth dir filename e s).
Proof.
  intros Hin. exists []. simpl.
  split; [constructor; assumption|].
  split; [lia|]. split; [reflexivity|].
  split; [intros; constructor | intros _ Hne; congruence].
Qed.

Lemma visit_ok_below depth dir entries d st kids v :
  (d, Directory st Listable kids) ∈ entries ->
  ~ (0 < max_depth ∧ max_depth ≤ Z.of_nat depth)%Z ->
  (include_hidden = false -> is_hidden d = false) ->
  visit_ok max_depth include_hidden (S depth) (path_append dir d) kids v ->
  visit_ok max_depth include_hidden depth dir entries v.
Proof.
  intros Hin Hdepth Hvis (chain & Hocc & Hd & Hp & Hh & Hlim).
  exists (d :: chain). simpl.
  split; [econstructor; eauto|].
  split; [lia|]. split; [assumption|].
  split; [intros Hih; constructor; auto|].
  intros Hpos _. destruct chain as [|c chain]; [|apply Hlim; congruence].
  simpl in Hd. lia.
Qed.

(** One iteration and the increment after it, when the increment does not
    enter a directory. *)
Lemma ext_single depth dir entries filename e s s' :
  (filename, e) ∈ entries ->
  let v := visit_at depth dir filename e s in
  visited s' = visited s ++ [v] ->
  scan_results s' = scan_results s ++ omap (fun v => pushed_of (body v)) [v] ->
  scan_errors s' = scan_errors s ++ errors_of clk max_depth include_hidden v ->
  (aborted s = true -> aborted s' = true) ->
  (aborted s' = true ->
   aborted s = true
   \/ Exists (fun w => is_fatal w = true)
             (errors_of clk max_depth include_hidden v)) ->
  ext depth dir entries s s' [v].
Proof.
  intros Hin v Hv Hr He Hab Hlog. unfold extends_by.
  rewrite Hv, Hr, He. simpl. rewrite app_nil_r.
  repeat split; auto.
  apply Forall_singleton, visit_ok_here. assumption.
Qed.

Lemma after_body_fields v s :
  visited (after_body v (body v) s) = visited s ++ [v]
  /\ scan_results (after_body v (body v) s)
     = scan_results s ++ omap (fun v => pushed_of (body v)) [v]
  /\ scan_errors (after_body v (body v) s)
     = scan_errors s ++ match body v with Caught what => [what] | _ => [] end
  /\ aborted (after_body v (body v) s) = aborted s.
Proof.
  simpl. destruct (body_of clk max_depth include_hidden v); simpl;
    rewrite ?app_nil_r; auto.
Qed.

Lemma scan_list_extends l :
  Forall (fun ne =>
            forall depth dir s entries, ne ∈ entries ->
              exists vs, ext depth dir entries s
                           (scan1 depth dir ne.1 ne.2 s) vs) l ->
  forall depth dir s entries,
    (forall ne, ne ∈ l -> ne ∈ entries) ->
    exists vs, ext depth dir entries s (scanl depth dir l s) vs.
Proof.
  induction 1 as [|[n e] l Hhd _ IH]; intros depth dir s entries Hsub.
  - exists []. apply ext_refl.
  - rewrite scan_list_cons.
    destruct (Hhd depth dir s entries) as [vs1 H1];
      [apply Hsub; left|].
    destruct (IH depth dir (scan1 depth dir n e s) entries) as [vs2 H2];
      [intros ne Hne; apply Hsub; right; assumption|].
    exists (vs1 ++ vs2). eapply ext_trans; eauto.
Qed.

(** Every run of the loop on an entry adds iterations on the tree below
    the listing the entry is in, and the two vectors grow by what those
    iterations push and catch. *)
Lemma scan_entry_extends e :
  forall depth dir filename s entries,
    (filename, e) ∈ entries ->
    exists vs, ext depth dir entries s (scan1 depth dir filename e s) vs.
Proof.
  induction e as [st content | st acc kids IHkids | target _ | | what
                 | kind st content] using inode_nested_ind;
    intros depth dir filename s entries Hin;
    rewrite scan_entry_eq;
    (destruct (aborted s) eqn:Hab; [exists []; apply ext_refl|]);
    cbv zeta;
    set (v := visit_at depth dir filename _ s);
    destruct (after_body_fields v s) as (Hv & Hr & He & Ha).
  all: try (exists [v];
            apply ext_single;
            [ assumption | assumption | assumption
            | rewrite He; unfold errors_of; simpl; rewrite app_nil_r;
              reflexivity
            | congruence
            | left; congruence ]).
  destruct (recursion_pending_after (body v)) eqn:Hpend.
  - destruct acc as [| | what].
    + destruct (pending_directory _ _ _ _ _ _ _ Hpend) as [Hdepth Hvis].
      destruct (scan_list_extends kids) with
        (depth := S depth) (dir := path_append dir filename)
        (s := after_body v (body v) s) (entries := kids) as [vs Hvs].
      { eapply Forall_impl; [exact IHkids|].
        intros [n e] IHe d p s0 en Hen. apply IHe. exact Hen. }
      { auto. }
      exists ([v] ++ vs).
      apply (ext_trans _ _ _ _ (after_body v (body v) s)).
      * apply ext_single;
          [ assumption | assumption | assumption
          | rewrite He; unfold errors_of; simpl; rewrite app_nil_r;
            reflexivity
          | congruence
          | left; congruence ].
      * destruct Hvs as (Hv' & Hr' & He' & Hok' & Hab' & Hlog').
        repeat split; auto.
        eapply Forall_impl; [exact Hok'|].
        intros v0 Hv0. eapply visit_ok_below; eauto.
    + exists [v].
      apply ext_single;
        [ assumption | assumption | assumption
        | rewrite He; unfold errors_of; simpl; rewrite app_nil_r;
          reflexivity
        | congruence
        | left; congruence ].
    + exists [v].
      apply ext_single;
        [ assumption | assumption | assumption
        | simpl; rewrite He; unfold errors_of; simpl; fold v;
          rewrite Hpend, <- app_assoc; reflexivity
        | reflexivity
        | intros _; right; unfold errors_of; simpl; fold v; rewrite Hpend;
          apply Exists_app; right; left; reflexivity ].
  - exists [v].
    apply ext_single;
      [ assumption | assumption | assumption
      | rewrite He; unfold errors_of; simpl; fold v; rewrite Hpend;
        destruct acc; rewrite app_nil_r; reflexivity
      | congruence
      | left; congruence ].
Qed.

Lemma scan_list_ext depth dir entries s :
  exists vs, ext depth dir entries s (scanl depth dir entries s) vs.
Proof.
  apply scan_list_extends; [|auto].
  apply Forall_forall. intros [n e] _ d p s0 en Hen.
  apply scan_entry_extends. exact Hen.
Qed.

Lemma scan_list_app depth dir l1 l2 s :
  scanl depth dir (l1 ++ l2) s = scanl depth dir l2 (scanl depth dir l1 s).
Proof.
  revert s. induction l1 as [|[n e] l1 IH]; intros s; [reflexivity|].
  rewrite <- app_comm_cons, !scan_list_cons. apply IH.
Qed.

Lemma scan_list_visited_mono depth dir l s v :
  v ∈ visited s -> v ∈ visited (scanl depth dir l s).
Proof.
  destruct (scan_list_ext depth dir l s) as (vs & -> & _).
  intros Hin. apply elem_of_app. auto.
Qed.

Lemma scan_list_not_aborted depth dir l s :
  aborted (scanl depth dir l s) = false -> aborted s = false.
Proof.
  destruct (scan_list_ext depth dir l s) as (vs & _ & _ & _ & _ & Hab & _).
  destruct (aborted s); [|reflexivity]. rewrite Hab; auto.
Qed.

Lemma scan_entry_not_aborted depth dir filename e s :
  aborted (scan1 depth dir filename e s) = false -> aborted s = false.
Proof.
  destruct (scan_entry_extends e depth dir filename s [(filename, e)])
    as (vs & _ & _ & _ & _ & Hab & _); [left|].
  destruct (aborted s); [|reflexivity]. rewrite Hab; auto.
Qed.

Lemma scan_entry_visits depth dir filename e s :
  aborted s = false ->
  visit_at depth dir filename e s ∈ visited (scan1 depth dir filename e s).
Proof.
  intros Hab. rewrite scan_entry_eq, Hab. cbv zeta.
  set (v := visit_at depth dir filename e s).
  destruct (after_body_fields v s) as (Hv & _).
  assert (Hin : v ∈ visited (after_body v (body v) s))
    by (rewrite Hv; apply elem_of_app; right; left).
  destruct e as [| st acc kids | | | |]; try exact Hin.
  destruct (recursion_pending_after (body v)); [|exact Hin].
  destruct acc; [apply scan_list_visited_mono| |]; exact Hin.
Qed.

(** Unless the outer [catch] was entered, the loop runs on every entry
    that lies under directories below the depth limit and not hidden from
    the scan. *)
Lemma occurs_visited entries chain filename e :
  occurs entries chain filename e ->
  forall depth dir s,
    aborted (scanl depth dir entries s) = false ->
    (include_hidden = false -> Forall (fun d => is_hidden d = false) chain) ->
    ((0 < max_depth)%Z -> chain ≠ [] ->
     (Z.of_nat (depth + length chain) ≤ max_depth)%Z) ->
    exists t,
      {| v_depth := depth + length chain;
         v_path := path_append (path_below dir chain) filename;
         v_name := filename; v_entry := e; v_sample := t |}
      ∈ visited (scanl depth dir entries s).
Proof.
  induction 1 as [entries filename e Hin
                 | entries d st kids chain filename e Hin _ IH];
    intros depth dir s Hab Hvis Hlim;
    apply list_elem_of_split in Hin as (l1 & l2 & ->);
    rewrite scan_list_app, scan_list_cons in Hab |- *;
    set (s1 := scanl depth dir l1 s) in *;
    pose proof (scan_list_not_aborted _ _ _ _ Hab) as Hab2;
    pose proof (scan_entry_not_aborted _ _ _ _ _ Hab2) as Hab1.
  - exists (samples s1). apply scan_list_visited_mono.
    replace (depth + length []) with depth by (simpl; lia).
    apply (scan_entry_visits depth dir filename e s1 Hab1).
  - assert (Hdepth : ~ (0 < max_depth ∧ max_depth ≤ Z.of_nat depth)%Z).
    { intros [Hpos Hle]. specialize (Hlim Hpos ltac:(discriminate)).
      simpl in Hlim. lia. }
    assert (Hd : include_hidden = false -> is_hidden d = false).
    { intros Hih. specialize (Hvis Hih). inversion Hvis; assumption. }
    rewrite scan_entry_eq, Hab1 in Hab2 |- *. cbv zeta in Hab2 |- *.
    set (v := visit_at depth dir d (Directory st Listable kids) s1) in *.
    assert (Hpend : recursion_pending_after (body v) = true).
    { unfold body_of. simpl. rewrite body_in_scope by assumption.
      destruct (make_info _ _ _ _); reflexivity. }
    rewrite Hpend in Hab2 |- *.
    destruct (IH (S depth) (path_append dir d) (after_body v (body v) s1))
      as [t Ht].
    + exact Hab2.
    + intros Hih. specialize (Hvis Hih). inversion Hvis; assumption.
    + intros Hpos Hne. specialize (Hlim Hpos ltac:(discriminate)).
      simpl in Hlim. lia.
    + exists t. apply scan_list_visited_mono.
      replace (depth + length (d :: chain)) with (S depth + length chain)
        by (simpl; lia).
      exact Ht.
Qed.

End ScanFacts.

(** ** The scan as a whole *)

Section ScanTheorems.
Variable clk : nat -> clock_reading.
Variable max_depth : Z.
Variable include_hidden : bool.

Local Abbreviation body := (body_of clk max_depth include_hidden).
Local Abbreviation scanl := (scan_list clk max_depth include_hidden).

Lemma loop_body_pushed c depth p filename e r :
  loop_body max_depth include_hidden c depth p filename e = Pushed r ->
  ~ (0 < max_depth ∧ max_depth ≤ Z.of_nat depth)%Z
  /\ (include_hidden = false -> is_hidden filename = false)
  /\ make_info c p filename e = Return r.
Proof.
  unfold loop_body. case_bool_decide as Hdepth; [discriminate|].
  destruct (negb include_hidden && is_hidden filename) eqn:Hhid.
  - destruct (entry_is_directory e) as [[|]|]; discriminate.
  - destruct (make_info c p filename e) as [info|w]; [|discriminate].
    intros [= ->]. split; [assumption|]. split; [|reflexivity].
    intros ->. simpl in Hhid. exact Hhid.
Qed.

Lemma loop_body_at_limit c depth p filename e :
  (0 < max_depth)%Z -> (max_depth ≤ Z.of_nat depth)%Z ->
  loop_body max_depth include_hidden c depth p filename e = Skipped false.
Proof.
  intros Hpos Hle. unfold loop_body.
  rewrite bool_decide_eq_true_2 by auto. reflexivity.
Qed.

Lemma scandir_recursive_on_listing fs root_path entries :
  root_listing fs root_path entries ->
  scandir_recursive clk fs root_path max_depth include_hidden
  = match List.find is_fatal
            (scan_errors (scanl 0 root_path entries scan_init)) with
    | Some err => Throw err
    | None => Return (scan_results (scanl 0 root_path entries scan_init))
    end.
Proof.
  intros (root & st & Hfs & Hres).
  unfold scandir_recursive, fs_exists, fs_is_directory, path_status, status,
    scan_root.
  rewrite Hfs. simpl. rewrite Hres. reflexivity.
Qed.

Lemma scan_from_init root_path entries :
  extends_by clk max_depth include_hidden 0 root_path entries scan_init
    (scanl 0 root_path entries scan_init)
    (visited (scanl 0 root_path entries scan_init)).
Proof.
  destruct (scan_list_ext clk max_depth include_hidden 0 root_path entries
              scan_init) as (vs & Hext).
  pose proof Hext as (Hv & _). simpl in Hv. rewrite Hv. exact Hext.
Qed.

Lemma returned_not_aborted root_path entries :
  List.find is_fatal (scan_errors (scanl 0 root_path entries scan_init))
  = None ->
  aborted (scanl 0 root_path entries scan_init) = false.
Proof.
  intros Hfind.
  destruct (scan_from_init root_path entries)
    as (_ & _ & He & _ & _ & Hlog).
  destruct (aborted _) eqn:Hab; [|reflexivity].
  destruct (Hlog eq_refl) as [Hinit|Hex]; [discriminate|].
  apply Exists_exists in Hex as (w & Hin & Hw).
  pose proof (List.find_none _ _ Hfind w) as Hnone.
  rewrite Hnone in Hw; [discriminate|].
  rewrite He. simpl. apply list_elem_of_In. exact Hin.
Qed.

(** Every record was pushed by an iteration on an entry of the tree that
    is below the depth limit and, when hidden entries are excluded, has no
    hidden name on its path below the root. *)
Lemma records_sound root_path entries r :
  r ∈ scan_results (scanl 0 root_path entries scan_init) ->
  exists chain filename e t,
    occurs entries chain filename e
    /\ (include_hidden = false ->
        Forall (fun d => is_hidden d = false) (chain ++ [filename]))
    /\ ((0 < max_depth)%Z -> (Z.of_nat (length chain) < max_depth)%Z)
    /\ make_info (clk t) (path_append (path_below root_path chain) filename)
         filename e = Return r.
Proof.
  destruct (scan_from_init root_path entries) as (_ & Hr & _ & Hok & _).
  rewrite Hr. simpl. intros Hin.
  apply list_elem_of_omap in Hin as (v & Hv & Hpush).
  rewrite Forall_forall in Hok.
  destruct (Hok v Hv) as (chain & Hocc & Hd & Hp & Hh & Hlim).
  destruct (body v) as [| |info] eqn:Hbody; try discriminate.
  injection Hpush as ->.
  unfold body_of in Hbody.
  apply loop_body_pushed in Hbody as (Hdepth & Hvis & Hmake).
  exists chain, (v_name v), (v_entry v), (v_sample v).
  split; [assumption|]. split; [|split].
  - intros Hih. apply Forall_app. split; [auto|].
    apply Forall_singleton. auto.
  - intros Hpos. simpl in Hd. lia.
  - rewrite <- Hp. exact Hmake.
Qed.

(** When the loop ran to its end, every entry in scope was iterated, and
    what its iteration produced is in the vectors. *)
Lemma entries_complete root_path entries chain filename e :
  aborted (scanl 0 root_path entries scan_init) = false ->
  occurs entries chain filename e ->
  (include_hidden = false ->
   Forall (fun d => is_hidden d = false) (chain ++ [filename])) ->
  ((0 < max_depth)%Z -> (Z.of_nat (length chain) < max_depth)%Z) ->
  exists t,
    {| v_depth := length chain;
       v_path := path_append (path_below root_path chain) filename;
       v_name := filename; v_entry := e; v_sample := t |}
    ∈ visited (scanl 0 root_path entries scan_init)
    /\ (forall r,
          make_info (clk t) (path_append (path_below root_path chain) filename)
            filename e = Return r ->
          r ∈ scan_results (scanl 0 root_path entries scan_init))
    /\ (forall what,
          make_info (clk t) (path_append (path_below root_path chain) filename)
            filename e = Throw what ->
          what ∈ scan_errors (scanl 0 root_path entries scan_init)).
Proof.
  intros Hab Hocc Hvis Hlim.
  destruct (occurs_visited clk max_depth include_hidden _ _ _ _ Hocc
              0 root_path scan_init Hab) as [t Ht].
  { intros Hih. specialize (Hvis Hih).
    destruct (proj1 (Forall_app _ _ _) Hvis) as [? _]. assumption. }
  { intros Hpos _. specialize (Hlim Hpos). lia. }
  simpl in Ht. exists t. split; [exact Ht|].
  destruct (scan_from_init root_path entries) as (_ & Hr & He & _).
  set (v := {| v_depth := length chain; v_path := _; v_name := filename;
               v_entry := e; v_sample := t |}) in *.
  assert (Hbody : body v
                  = match make_info (clk t) (v_path v) filename e with
                    | Throw what => Caught what
                    | Return info => Pushed info
                    end).
  { unfold body_of. simpl. apply body_in_scope.
    - intros [Hpos Hle]. specialize (Hlim Hpos). lia.
    - intros Hih. specialize (Hvis Hih).
      destruct (proj1 (Forall_app _ _ _) Hvis) as [_ Hf].
      exact (proj1 (Forall_singleton _ _) Hf). }
  split.
  - intros r Hmake. rewrite Hr. simpl.
    apply list_elem_of_omap. exists v. split; [exact Ht|].
    rewrite Hbody. subst v. simpl. rewrite Hmake. reflexivity.
  - intros what Hmake. rewrite He. simpl.
    apply list_elem_of_bind. exists v. split; [|exact Ht].
    unfold errors_of. rewrite Hbody. subst v. simpl. rewrite Hmake.
    apply elem_of_app. left. left.
Qed.

End ScanTheorems.

Lemma make_info_names c p filename e r :
  make_info c p filename e = Return r ->
  FileInfo.path r = p /\ FileInfo.name r = filename.
Proof.
  unfold make_info.
  destruct (entry_is_symlink e);
    destruct (entry_is_directory e) as [d|]; simpl; try discriminate.
  - destruct (last_write_time e) as [ftime|]; simpl; [|discriminate].
    intros [= <-]. auto.
  - destruct (if d then Return 0%N else file_size e) as [sz|]; simpl;
      [|discriminate].
    destruct (last_write_time e) as [ftime|]; simpl; [|discriminate].
    intros [= <-]. auto.
Qed.

(** C5: with [include_hidden = false] every returned record is the record
    of an entry none of whose names below the root, its own included, begins
    with a dot, and it carries that entry's name and path, so a hidden entry
    yields no record and neither does anything under a hidden directory;
    with [include_hidden = true] every entry below the depth limit yields
    its record whatever the names on its path. *)
Theorem hidden_subtrees_pruned clk fs root_path entries max_depth :
  root_listing fs root_path entries ->
  (forall records r,
     scandir_recursive clk fs root_path max_depth false = Return records ->
     r ∈ records ->
     exists chain filename e t,
       occurs entries chain filename e
       /\ Forall (fun d => is_hidden d = false) (chain ++ [filename])
       /\ FileInfo.name r = filename
       /\ FileInfo.path r = path_append (path_below root_path chain) filename
       /\ make_info (clk t) (path_append (path_below root_path chain) filename)
            filename e = Return r)
  /\ (forall records chain filename e,
        scandir_recursive clk fs root_path max_depth true = Return records ->
        occurs entries chain filename e ->
        ((0 < max_depth)%Z -> (Z.of_nat (length chain) < max_depth)%Z) ->
        exists t,
          forall r,
            make_info (clk t) (path_append (path_below root_path chain) filename)
              filename e = Return r ->
            r ∈ records).
Proof.
  intros Hroot. split.
  - intros records r Hscan Hin.
    rewrite (scandir_recursive_on_listing _ _ _ _ _ _ Hroot) in Hscan.
    destruct (List.find is_fatal _); [discriminate|]. injection Hscan as <-.
    destruct (records_sound _ _ _ _ _ _ Hin)
      as (chain & filename & e & t & Hocc & Hvis & _ & Hmake).
    destruct (make_info_names _ _ _ _ _ Hmake) as [Hpath Hname].
    exists chain, filename, e, t. auto 6.
  - intros records chain filename e Hscan Hocc Hlim.
    rewrite (scandir_recursive_on_listing _ _ _ _ _ _ Hroot) in Hscan.
    destruct (List.find is_fatal _) eqn:Hfind; [discriminate|].
    injection Hscan as <-.
    destruct (entries_complete clk max_depth true root_path entries
                chain filename e) as (t & _ & Hrec & _); auto.
    + apply returned_not_aborted. exact Hfind.
    + discriminate.
    + eauto.
Qed.

Lemma hidden_subtrees_pruned_witness :
  (forall r,
     r ∈ [ {| FileInfo.path := "/tmp/root/a.txt"; FileInfo.name := "a.txt";
              FileInfo.size := 5; FileInfo.mtime := 1700000097;
              FileInfo.is_directory := false;
              FileInfo.is_symlink := false |} ] ->
     exists chain filename e t,
       occurs scenario_entries chain filename e
       /\ Forall (fun d => is_hidden d = false) (chain ++ [filename])
       /\ FileInfo.name r = filename
       /\ FileInfo.path r = path_append (path_below "/tmp/root" chain) filename
       /\ make_info (steady_clock t)
            (path_append (path_below "/tmp/root" chain) filename)
            filename e = Return r)
  /\ (exists t r,
        make_info (steady_clock t) "/tmp/root/.hidden/b.txt" "b.txt" a_txt
        = Return r
        /\ forall records,
             scandir_recursive steady_clock
               (single_root "/tmp/root" (listing scenario_entries))
               "/tmp/root" 0 true = Return records ->
             r ∈ records).
Proof.
  destruct (hidden_subtrees_pruned steady_clock
              (single_root "/tmp/root" (listing scenario_entries))
              "/tmp/root" scenario_entries 0) as [Hfalse Htrue].
  - exists (listing scenario_entries), dir_stat. split; reflexivity.
  - split.
    + intros r Hin. apply (Hfalse _ r eq_refl Hin).
    + destruct (Htrue _ [".hidden"] "b.txt" a_txt eq_refl) as [t Ht].
      * eapply occurs_below; [right; left|]. apply occurs_here. left.
      * lia.
      * exists t. eexists. split; [reflexivity|].
        intros records Hscan. injection Hscan as <-. apply Ht. reflexivity.
Defined.

(** The scenario of the specification, both ways. *)
Example scandir_recursive_scenario :
  scandir_recursive steady_clock
    (single_root "/tmp/root" (listing scenario_entries)) "/tmp/root" 0 false
  = Return [ {| FileInfo.path := "/tmp/root/a.txt"; FileInfo.name := "a.txt";
                FileInfo.size := 5; FileInfo.mtime := 1700000097;
                FileInfo.is_directory := false;
                FileInfo.is_symlink := false |} ]
  /\ (FileInfo.path <$>
        match scandir_recursive steady_clock
                (single_root "/tmp/root" (listing scenario_entries))
                "/tmp/root" 0 true with
        | Return records => records
        | Throw _ => []
        end)
     = ["/tmp/root/a.txt"; "/tmp/root/.hidden"; "/tmp/root/.hidden/b.txt"].
Proof. split; reflexivity. Qed.

(** C4, as stated, fails whichever way levels are counted. On [a/b/c] with
    [max_depth = 1], [b] is iterated at [it.depth() = 1], where the limit is
    reached, and is not recorded; [a], one level below the root, is recorded
    and entered as well, its child [b] being iterated. Entering has an
    effect of its own: when [a] cannot be opened the whole call throws,
    although nothing inside [a] could have been recorded. *)
Lemma depth_limit_entry_at_limit_not_recorded :
  let s := scan_root steady_clock 1 false "/r" (listing nested_entries) in
  (v_path <$> visited s) = ["/r/a"; "/r/a/b"]
  /\ (v_depth <$> visited s) = [0; 1]
  /\ (FileInfo.path <$> scan_results s) = ["/r/a"]
  /\ scan_errors s = []
  /\ (FileInfo.path <$>
        match scandir_recursive steady_clock
                (single_root "/r" (listing nested_entries)) "/r" 1 false with
        | Return records => records
        | Throw _ => []
        end) = ["/r/a"]
  /\ scandir_recursive steady_clock
       (single_root "/r" (listing unopenable_entries)) "/r" 1 false
     = Throw "Fatal error: Input/output error".
Proof. repeat split; reflexivity. Qed.

(** C4, amended: with a depth limit [d > 0] the loop never iterates below
    [it.depth() = d]; an iteration at that depth is left by [continue] with
    the recursion disabled, producing neither record nor message; unless the
    outer handler was entered the entries at that depth are iterated, so the
    directories one level above them are entered; every record comes from an
    entry with fewer than [d] directories between it and the root, that is
    at nesting depth at most [d]; and when the call returns, every such
    entry that is not hidden from the scan has its record in the result. *)
Theorem depth_limit_skips_at_limit clk fs root_path entries max_depth
    include_hidden :
  root_listing fs root_path entries -> (0 < max_depth)%Z ->
  let s := scan_list clk max_depth include_hidden 0 root_path entries
             scan_init in
  Forall (fun v =>
            (Z.of_nat (v_depth v) ≤ max_depth)%Z
            /\ ((max_depth ≤ Z.of_nat (v_depth v))%Z ->
                body_of clk max_depth include_hidden v = Skipped false
                /\ errors_of clk max_depth include_hidden v = []))
         (visited s)
  /\ (aborted s = false ->
      forall chain filename e,
        occurs entries chain filename e ->
        (Z.of_nat (length chain) ≤ max_depth)%Z ->
        (include_hidden = false -> Forall (fun d => is_hidden d = false) chain) ->
        exists t,
          {| v_depth := length chain;
             v_path := path_append (path_below root_path chain) filename;
             v_name := filename; v_entry := e; v_sample := t |} ∈ visited s)
  /\ (forall r, r ∈ scan_results s ->
        exists chain filename e t,
          occurs entries chain filename e
          /\ (Z.of_nat (length chain) < max_depth)%Z
          /\ make_info (clk t) (path_append (path_below root_path chain) filename)
               filename e = Return r)
  /\ (forall records,
        scandir_recursive clk fs root_path max_depth include_hidden
        = Return records ->
        records = scan_results s
        /\ forall chain filename e,
             occurs entries chain filename e ->
             (Z.of_nat (length chain) < max_depth)%Z ->
             (include_hidden = false ->
              Forall (fun d => is_hidden d = false) (chain ++ [filename])) ->
             exists t,
               forall r,
                 make_info (clk t)
                   (path_append (path_below root_path chain) filename)
                   filename e = Return r ->
                 r ∈ records).
Proof.
  intros Hroot Hpos s. split; [|split; [|split]].
  - destruct (scan_from_init clk max_depth include_hidden root_path entries)
      as (_ & _ & _ & Hok & _).
    fold s in Hok. eapply Forall_impl; [exact Hok|].
    intros v (chain & _ & Hd & _ & _ & Hlim). split.
    + destruct chain as [|c chain]; [simpl in Hd; lia|].
      apply Hlim; [assumption | discriminate].
    + intros Hle.
      assert (Hbody : body_of clk max_depth include_hidden v = Skipped false)
        by (apply loop_body_at_limit; assumption).
      split; [exact Hbody|].
      unfold errors_of. rewrite Hbody. simpl. destruct (v_entry v) as
        [| ? [] ?| | | |]; reflexivity.
  - intros Hab chain filename e Hocc Hlim Hvis.
    destruct (occurs_visited clk max_depth include_hidden _ _ _ _ Hocc
                0 root_path scan_init Hab Hvis) as [t Ht]; [|eauto].
    intros _ _. simpl. exact Hlim.
  - intros r Hin.
    destruct (records_sound _ _ _ _ _ _ Hin)
      as (chain & filename & e & t & Hocc & _ & Hlim & Hmake).
    exists chain, filename, e, t. auto.
  - intros records Hscan.
    rewrite (scandir_recursive_on_listing _ _ _ _ _ _ Hroot) in Hscan.
    fold s in Hscan.
    destruct (List.find is_fatal _) eqn:Hfind; [discriminate|].
    injection Hscan as <-. split; [reflexivity|].
    intros chain filename e Hocc Hlim Hvis.
    destruct (entries_complete clk max_depth include_hidden root_path entries
                chain filename e) as (t & _ & Hrec & _); auto.
    + apply returned_not_aborted. exact Hfind.
    + eauto.
Qed.

Lemma depth_limit_skips_at_limit_witness :
  let s := scan_list steady_clock 1 false 0 "/r" nested_entries scan_init in
  Forall (fun v =>
            (Z.of_nat (v_depth v) ≤ 1)%Z
            /\ ((1 ≤ Z.of_nat (v_depth v))%Z ->
                body_of steady_clock 1 false v = Skipped false
                /\ errors_of steady_clock 1 false v = []))
         (visited s)
  /\ (aborted s = false ->
      forall chain filename e,
        occurs nested_entries chain filename e ->
        (Z.of_nat (length chain) ≤ 1)%Z ->
        (false = false -> Forall (fun d => is_hidden d = false) chain) ->
        exists t,
          {| v_depth := length chain;
             v_path := path_append (path_below "/r" chain) filename;
             v_name := filename; v_entry := e; v_sample := t |} ∈ visited s)
  /\ (forall r, r ∈ scan_results s ->
        exists chain filename e t,
          occurs nested_entries chain filename e
          /\ (Z.of_nat (length chain) < 1)%Z
          /\ make_info (steady_clock t)
               (path_append (path_below "/r" chain) filename)
               filename e = Return r)
  /\ (forall records,
        scandir_recursive steady_clock
          (single_root "/r" (listing nested_entries)) "/r" 1 false
        = Return records ->
        records = scan_results s
        /\ forall chain filename e,
             occurs nested_entries chain filename e ->
             (Z.of_nat (length chain) < 1)%Z ->
             (false = false ->
              Forall (fun d => is_hidden d = false) (chain ++ [filename])) ->
             exists t,
               forall r,
                 make_info (steady_clock t)
                   (path_append (path_below "/r" chain) filename)
                   filename e = Return r ->
                 r ∈ records).
Proof.
  apply (depth_limit_skips_at_limit steady_clock
           (single_root "/r" (listing nested_entries)) "/r" nested_entries
           1 false).
  - exists (listing nested_entries), dir_stat. split; reflexivity.
  - lia.
Defined.

(** C1, as stated, fails on a directory holding a dangling link and a
    regular file: the scan catches the failure on the link and stores its
    message, then returns the one record and nothing else, the same value
    it returns for the directory without the link, where no message was
    stored. *)
Lemma scandir_recursive_drops_diagnostics :
  let ok := {| FileInfo.path := "/r/ok.txt"; FileInfo.name := "ok.txt";
               FileInfo.size := 5; FileInfo.mtime := 1700000097;
               FileInfo.is_directory := false; FileInfo.is_symlink := false |} in
  scan_errors (scan_root steady_clock 0 false "/r" (listing broken_entries))
  = ["filesystem error: No such file or directory"]
  /\ scandir_recursive steady_clock
       (single_root "/r" (listing broken_entries)) "/r" 0 false
     = Return [ok]
  /\ scan_errors
       (scan_root steady_clock 0 false "/r" (listing [("ok.txt", a_txt)]))
     = []
  /\ scandir_recursive steady_clock
       (single_root "/r" (listing [("ok.txt", a_txt)])) "/r" 0 false
     = Return [ok].
Proof. repeat split; reflexivity. Qed.

(** C1, amended: on a valid root the records are what the iterations of the
    loop pushed and the local vector of messages is what they caught, in
    order, each caught failure leaving the loop running: whenever the call
    returns, every entry in scope was iterated, its record is among the
    returned ones when it could be built, and the failure to build it is
    among the messages otherwise. The call returns the records alone; the
    messages only decide whether it throws, which it does with the first
    message that begins with the fatal prefix. *)
Theorem scandir_recursive_returns_records_only clk fs root_path entries
    max_depth include_hidden :
  root_listing fs root_path entries ->
  let s := scan_list clk max_depth include_hidden 0 root_path entries
             scan_init in
  scan_results s
  = omap (fun v => pushed_of (body_of clk max_depth include_hidden v))
         (visited s)
  /\ scan_errors s = visited s ≫= errors_of clk max_depth include_hidden
  /\ (forall v what,
        v ∈ visited s ->
        body_of clk max_depth include_hidden v = Caught what ->
        what ∈ scan_errors s)
  /\ (forall records,
        scandir_recursive clk fs root_path max_depth include_hidden
        = Return records ->
        records = scan_results s
        /\ forall chain filename e,
             occurs entries chain filename e ->
             (include_hidden = false ->
              Forall (fun d => is_hidden d = false) (chain ++ [filename])) ->
             ((0 < max_depth)%Z -> (Z.of_nat (length chain) < max_depth)%Z) ->
             exists t,
               {| v_depth := length chain;
                  v_path := path_append (path_below root_path chain) filename;
                  v_name := filename; v_entry := e; v_sample := t |}
               ∈ visited s
               /\ (forall r,
                     make_info (clk t)
                       (path_append (path_below root_path chain) filename)
                       filename e = Return r ->
                     r ∈ records)
               /\ (forall what,
                     make_info (clk t)
                       (path_append (path_below root_path chain) filename)
                       filename e = Throw what ->
                     what ∈ scan_errors s))
  /\ scandir_recursive clk fs root_path max_depth include_hidden
     = match List.find is_fatal (scan_errors s) with
       | Some err => Throw err
       | None => Return (scan_results s)
       end.
Proof.
  intros Hroot s.
  destruct (scan_from_init clk max_depth include_hidden root_path entries)
    as (_ & Hr & He & _).
  fold s in Hr, He. simpl in Hr, He.
  split; [exact Hr|]. split; [exact He|]. split; [|split].
  - intros v what Hv Hbody. rewrite He.
    apply list_elem_of_bind. exists v. split; [|exact Hv].
    unfold errors_of. rewrite Hbody. apply elem_of_app. left. left.
  - intros records Hscan.
    rewrite (scandir_recursive_on_listing _ _ _ _ _ _ Hroot) in Hscan.
    fold s in Hscan.
    destruct (List.find is_fatal (scan_errors s)) eqn:Hfind; [discriminate|].
    injection Hscan as <-. split; [reflexivity|].
    intros chain filename e Hocc Hvis Hlim.
    apply (entries_complete clk max_depth include_hidden root_path entries
             chain filename e); try assumption.
    apply returned_not_aborted. exact Hfind.
  - apply scandir_recursive_on_listing. exact Hroot.
Qed.

Lemma scandir_recursive_returns_records_only_witness :
  let s := scan_list steady_clock 0 false 0 "/r" broken_entries scan_init in
  scan_results s
  = omap (fun v => pushed_of (body_of steady_clock 0 false v)) (visited s)
  /\ scan_errors s = visited s ≫= errors_of steady_clock 0 false
  /\ (forall v what,
        v ∈ visited s ->
        body_of steady_clock 0 false v = Caught what ->
        what ∈ scan_errors s)
  /\ (forall records,
        scandir_recursive steady_clock
          (single_root "/r" (listing broken_entries)) "/r" 0 false
        = Return records ->
        records = scan_results s
        /\ forall chain filename e,
             occurs broken_entries chain filename e ->
             (false = false ->
              Forall (fun d => is_hidden d = false) (chain ++ [filename])) ->
             ((0 < 0)%Z -> (Z.of_nat (length chain) < 0)%Z) ->
             exists t,
               {| v_depth := length chain;
                  v_path := path_append (path_below "/r" chain) filename;
                  v_name := filename; v_entry := e; v_sample := t |}
               ∈ visited s
               /\ (forall r,
                     make_info (steady_clock t)
                       (path_append (path_below "/r" chain) filename)
                       filename e = Return r ->
                     r ∈ records)
               /\ (forall what,
                     make_info (steady_clock t)
                       (path_append (path_below "/r" chain) filename)
                       filename e = Throw what ->
                     what ∈ scan_errors s))
  /\ scandir_recursive steady_clock
       (single_root "/r" (listing broken_entries)) "/r" 0 false
     = match List.find is_fatal (scan_errors s) with
       | Some err => Throw err
       | None => Return (scan_results s)
       end.
Proof.
  apply (scandir_recursive_returns_records_only steady_clock
           (single_root "/r" (listing broken_entries)) "/r" broken_entries
           0 false).
  exists (listing broken_entries), dir_stat. split; reflexivity.
Defined.

(** ** Modification times and type classification *)






(** The two functions on one file under one pair of samples: a file
    modified 2.5 s after the file-clock epoch, read when the file clock
    shows 5 s and the system clock 1700000100 s. *)
Example mtime_of_a_txt :
  FileMetadata.mtime <$>
    match get_file_info (H := plain_lexer) (steady_clock 0)
            (single_root "/tmp/root/a.txt" a_txt) "/tmp/root/a.txt" with
    | Return m => Some m
    | Throw _ => None
    end = Some 1700000097%Z
  /\ to_unix_seconds (-2500000000)
       {| file_clock_now := 0; sys_clock_now := 1999999999 |} = 0%Z.
Proof. split; reflexivity. Qed.

(** What the record of an entry holds, by kind of entry. A link has size
    zero and is classified by [status], which follows it; any other entry is
    classified by its own type, a directory has size zero and a regular
    file the size [stat] reports. *)
Lemma make_info_fields c p filename e r :
  make_info c p filename e = Return r ->
  FileInfo.is_symlink r = is_link e
  /\ (is_link e = true ->
      FileInfo.size r = 0%N
      /\ exists s, status e = Return s
                   /\ FileInfo.is_directory r
                      = bool_decide (type s = ft_directory))
  /\ (is_link e = false ->
      FileInfo.is_directory r = bool_decide (own_type e = ft_directory)
      /\ (own_type e = ft_directory -> FileInfo.size r = 0%N)
      /\ (forall st content, e = Regular (Return st) content ->
            FileInfo.size r = st_size st)).
Proof.
  unfold make_info, entry_is_symlink, entry_is_directory.
  destruct (is_link e) eqn:Hlink.
  - destruct (status e) as [s|]; simpl; [|discriminate].
    destruct (last_write_time e) as [ftime|]; simpl; [|discriminate].
    intros [= <-]. simpl. split; [reflexivity|]. split; [|discriminate].
    intros _. split; [reflexivity|]. eauto.
  - simpl.
    destruct (if bool_decide (own_type e = ft_directory)
              then Return 0%N else file_size e) as [sz|] eqn:Hsz;
      simpl; [|discriminate].
    destruct (last_write_time e) as [ftime|]; simpl; [|discriminate].
    intros [= <-]. simpl. split; [reflexivity|]. split; [discriminate|].
    intros _. split; [reflexivity|]. split.
    + intros Hdir. rewrite bool_decide_eq_true_2 in Hsz by assumption.
      congruence.
    + intros st content ->. simpl in Hsz. injection Hsz as <-. reflexivity.
Qed.

(** C8: the scan of a directory holding a symbolic link to a directory. The
    record of the link has size zero and [is_symlink] set, and its
    [is_directory] is set as well: [entry.is_directory()] has followed the
    link, whose own type is that of a symbolic link. *)
Theorem symlink_record_classified_by_target :
  scandir_recursive steady_clock
    (single_root "/srv" (listing link_entries)) "/srv" 0 false
  = Return [ {| FileInfo.path := "/srv/link"; FileInfo.name := "link";
                FileInfo.size := 0; FileInfo.mtime := 1700000097;
                FileInfo.is_directory := true;
                FileInfo.is_symlink := true |} ]
  /\ own_type dir_link = ft_symlink
  /\ entry_is_directory dir_link = Return true.
Proof. repeat split; reflexivity. Qed.

(** C9, as stated, fails on a symbolic link to a directory: [is_symlink] is
    reported, and with it [is_directory], which is the type of the target;
    the link's own type is that of a symbolic link, for which every one of
    the six type fields would be unset. *)
Lemma get_file_info_link_reports_target_type :
  own_type dir_link = ft_symlink
  /\ get_file_info (H := plain_lexer) (steady_clock 0)
       (single_root "/srv/link" dir_link) "/srv/link"
     = Return
         {| FileMetadata.path := "/srv/link";
            FileMetadata.name := "link";
            FileMetadata.extension := "";
            FileMetadata.parent := "/srv";
            FileMetadata.is_regular_file := false;
            FileMetadata.is_directory := true;
            FileMetadata.is_symlink := true;
            FileMetadata.is_block_file := false;
            FileMetadata.is_character_file := false;
            FileMetadata.is_fifo := false;
            FileMetadata.is_socket := false;
            FileMetadata.size := 0;
            FileMetadata.mtime := 1700000097;
            FileMetadata.permissions := 493;
            FileMetadata.is_readable := true;
            FileMetadata.is_writable := true;
            FileMetadata.is_executable := true |}.
Proof. split; reflexivity. Qed.

(** C9, amended: for a path that is a symbolic link resolving to a
    directory, [get_file_info] returns with [is_symlink] set and with the
    six type fields describing the target: [is_directory] set, the other
    five unset. *)
Theorem get_file_info_link_to_directory `{PathLexer} c fs file_path link st acc
    entries :
  fs file_path = Some link ->
  is_link link = true ->
  resolve link = Return (Some (Directory (Return st) acc entries)) ->
  exists m,
    get_file_info c fs file_path = Return m
    /\ FileMetadata.is_symlink m = true
    /\ FileMetadata.is_directory m = true
    /\ FileMetadata.is_regular_file m = false
    /\ FileMetadata.is_block_file m = false
    /\ FileMetadata.is_character_file m = false
    /\ FileMetadata.is_fifo m = false
    /\ FileMetadata.is_socket m = false.
Proof.
  intros Hfs Hlink Hres.
  unfold get_file_info, fs_exists, fs_is_regular_file, path_status,
    path_symlink_status, path_last_write_time, status, symlink_status,
    last_write_time.
  rewrite Hfs. simpl. rewrite Hres. simpl.
  assert (Hown : own_type link = ft_symlink)
    by (destruct link; simpl in *; congruence).
  assert (Hstat : inode_stat link
                  = Return {| st_size := 0; st_mtime := 0; st_mode := 511 |})
    by (destruct link; simpl in *; congruence).
  rewrite Hstat. simpl. rewrite Hown.
  eexists. split; [reflexivity|]. simpl. repeat split; reflexivity.
Qed.

Lemma get_file_info_link_to_directory_witness :
  exists m,
    get_file_info (H := plain_lexer) (steady_clock 0)
      (single_root "/srv/link" dir_link) "/srv/link" = Return m
    /\ FileMetadata.is_symlink m = true
    /\ FileMetadata.is_directory m = true
    /\ FileMetadata.is_regular_file m = false
    /\ FileMetadata.is_block_file m = false
    /\ FileMetadata.is_character_file m = false
    /\ FileMetadata.is_fifo m = false
    /\ FileMetadata.is_socket m = false.
Proof.
  apply (get_file_info_link_to_directory (H := plain_lexer) (steady_clock 0)
           (single_root "/srv/link" dir_link) "/srv/link" dir_link
           dir_stat Listable []); reflexivity.
Defined.

(** * Further properties *)

(** ** Rendering of the digest *)

Lemma list_ascii_of_string_append (a b : string) :
  list_ascii_of_string (a +:+ b)
  = list_ascii_of_string a ++ list_ascii_of_string b.
Proof.
  induction a as [|c a IH]; [reflexivity|].
  change (String c a +:+ b) with (String c (a +:+ b)).
  cbn [list_ascii_of_string]. rewrite IH. reflexivity.
Qed.

Lemma hex_of_byte_digits b :
  Forall (fun c => c ∈ list_ascii_of_string hex_chars)
         (list_ascii_of_string (hex_of_byte b)).
Proof.
  apply (bool_decide_unpack _). destruct b; vm_compute; reflexivity.
Qed.

Lemma of_hex_byte b s : of_hex (hex_of_byte b +:+ s) = b :: of_hex s.
Proof. destruct b; reflexivity. Qed.

(** The digest string has exactly 64 characters, each one of
    [0123456789abcdef]. *)
Theorem to_hex_lowercase_digits output :
  String.length (to_hex output) = 64
  /\ Forall (fun c => c ∈ list_ascii_of_string hex_chars)
            (list_ascii_of_string (to_hex output)).
Proof.
  split; [apply to_hex_length|].
  unfold to_hex. generalize (seq 0 (N.to_nat BLAKE3_OUT_LEN)).
  induction l as [|i l IH]; [constructor|].
  cbn [foldr]. rewrite list_ascii_of_string_append.
  apply Forall_app. split; [apply hex_of_byte_digits | exact IH].
Qed.

Lemma of_hex_foldr output l :
  of_hex (foldr (fun i acc => hex_of_byte (nth i output x00) +:+ acc)
                EmptyString l)
  = (fun i => nth i output x00) <$> l.
Proof.
  induction l as [|i l IH]; [reflexivity|].
  cbn [foldr fmap list_fmap]. rewrite of_hex_byte, IH. reflexivity.
Qed.

(** Reading the digest string back, two digits per byte with the high
    nibble first, gives the 32 bytes that were rendered. *)
Theorem of_hex_to_hex output :
  length output = N.to_nat BLAKE3_OUT_LEN ->
  of_hex (to_hex output) = output.
Proof.
  intros Hlen. unfold to_hex. rewrite of_hex_foldr, <- Hlen.
  clear Hlen. induction output as [|b output IH]; [reflexivity|].
  cbn [length]. rewrite <- cons_seq, fmap_cons. cbn [nth]. f_equal.
  rewrite <- fmap_S_seq, <- list_fmap_compose. exact IH.
Qed.

Lemma of_hex_to_hex_witness :
  of_hex (to_hex (replicate 31 x00 ++ [xff])) = replicate 31 x00 ++ [xff].
Proof. apply of_hex_to_hex. reflexivity. Defined.

(** ** What the read loop passes to the hash primitive *)

Lemma recorded_chunks chunk_size :
  (1 ≤ chunk_size)%N ->
  forall fuel file (h : list (list byte)),
    good file = true -> device_fails file = false ->
    length (unread file) < fuel ->
    exists chunks,
      read_loop (H := recording_engine) fuel chunk_size file h
      = Some (at_eof, h ++ chunks)
      /\ concat chunks = unread file
      /\ Forall (fun b => 0 < length b
                          /\ (N.of_nat (length b) ≤ chunk_size)%N) chunks.
Proof.
  intros Hpos. induction fuel as [|fuel IH]; intros file h Hgood Hdev Hlen;
    [lia|].
  simpl. rewrite (good_stream_ok _ Hgood). simpl.
  unfold read. rewrite Hgood. simpl.
  destruct (N.leb_spec chunk_size (N.of_nat (length (unread file)))) as [Hle|Hgt].
  - set (n := N.to_nat chunk_size).
    assert (Hn : (1 ≤ n ≤ length (unread file))%nat) by (unfold n; lia).
    rewrite bool_decide_eq_true_2 by (rewrite length_take; lia).
    edestruct IH as (chunks & -> & Hcat & Hall);
      [| | | exists (take n (unread file) :: chunks)]; simpl.
    + reflexivity.
    + assumption.
    + rewrite length_drop. lia.
    + rewrite <- app_assoc. split; [reflexivity|]. split.
      * rewrite Hcat. apply take_drop.
      * constructor; [|exact Hall]. rewrite length_take. unfold n. lia.
  - rewrite Hdev. rewrite read_loop_exit by reflexivity.
    case_bool_decide as Hnonempty.
    + exists [unread file]. simpl. rewrite app_nil_r.
      split; [reflexivity|]. split; [reflexivity|].
      constructor; [|constructor]. lia.
    + exists []. rewrite app_nil_r. split; [reflexivity|].
      split; [|constructor].
      destruct (unread file); [reflexivity | simpl in Hnonempty; lia].
Qed.

(** On a readable regular file and with a positive chunk size, the
    arguments of the successive [blake3_hasher_update] calls are non-empty,
    none longer than [chunk_size], and put end to end they are the bytes of
    the file: every byte is hashed once, in order, through a buffer of
    [chunk_size] bytes. *)
Theorem read_loop_feeds_file_in_bounded_chunks fs file_path st src chunk_size :
  readable_regular_file fs file_path st src ->
  then_error src = false ->
  (1 ≤ chunk_size)%N ->
  exists file chunks,
    ifstream_open fs file_path = Some file
    /\ hash_stream (H := recording_engine) chunk_size file [] = Some (at_eof, chunks)
    /\ concat chunks = available src
    /\ Forall (fun b => 0 < length b
                        /\ (N.of_nat (length b) ≤ chunk_size)%N) chunks.
Proof.
  intros Hreg Hnoerr Hpos.
  destruct (regular_file_open _ _ _ _ Hreg) as (_ & _ & Hopen).
  eexists. 
  destruct (recorded_chunks chunk_size Hpos
              (S (length (available src)))
              {| unread := available src; device_fails := then_error src;
                 eofbit := false; failbit := false; badbit := false |} [])
    as (chunks & Hrun & Hcat & Hall); [reflexivity | exact Hnoerr | simpl; lia |].
  exists chunks. split; [exact Hopen|]. split; [exact Hrun|]. auto.
Qed.

Lemma read_loop_feeds_file_in_bounded_chunks_witness :
  exists file chunks,
    ifstream_open hashing_fs "/tmp/a.txt" = Some file
    /\ hash_stream (H := recording_engine) 2 file [] = Some (at_eof, chunks)
    /\ concat chunks = hello
    /\ Forall (fun b => 0 < length b /\ (N.of_nat (length b) ≤ 2)%N) chunks.
Proof.
  apply (read_loop_feeds_file_in_bounded_chunks hashing_fs "/tmp/a.txt"
           (plain_stat 5) {| available := hello; then_error := false |} 2).
  - exists a_txt. split; reflexivity.
  - reflexivity.
  - lia.
Defined.

Example recorded_chunks_of_hello :
  (ifstream_open hashing_fs "/tmp/a.txt"
     ≫= fun file => hash_stream (H := recording_engine) 2 file [])
  = Some (at_eof, [[x68; x65]; [x6c; x6c]; [x6f]]).
Proof. reflexivity. Qed.

(** ** Outcomes of [calculate_blake3] *)

Section CalculateOutcomes.
Context `{HashEngine}.
Variable fs : filesystem.
Variable file_path : string.

Lemma status_regular i s :
  status i = Return s -> type s = ft_regular ->
  exists st content, resolve i = Return (Some (Regular (Return st) content)).
Proof.
  unfold status. destruct (resolve i) as [[j|]|w]; simpl; try discriminate.
  - destruct (inode_stat j) as [st|] eqn:Hst; simpl; [|discriminate].
    intros [= <-]. simpl. intros Hty.
    destruct j as [st' content| | | | |[] ? ?]; simpl in *; try discriminate.
    subst st'. eauto.
  - intros [= <-]. discriminate.
Qed.

(** [calculate_blake3] returns a digest exactly when the buffer can be
    allocated and the path leads to a regular file whose [stat] succeeds,
    which can be opened and which is read to its end without error; the
    digest is that of the file's bytes. *)
Theorem calculate_blake3_returns_digest_iff heap chunk_size digest :
  chunk_insensitive -> (1 ≤ chunk_size)%N ->
  calculate_blake3 fs heap file_path chunk_size = Some (Return digest)
  <-> heap chunk_size = None
      /\ exists st src,
            readable_regular_file fs file_path st src
            /\ then_error src = false
            /\ digest = digest_of (available src).
Proof.
  intros Hci Hpos.
  assert (Hnew : new_array heap chunk_size = heap chunk_size).
  { unfold new_array. rewrite bool_decide_eq_false_2 by lia. reflexivity. }
  split.
  - unfold calculate_blake3.
    destruct (fs_exists fs file_path) as [[|]|] eqn:Hex; try discriminate.
    destruct (fs_is_regular_file fs file_path) as [[|]|] eqn:Hreg;
      try discriminate.
    rewrite Hnew.
    destruct (heap chunk_size) as [what|] eqn:Hmem; [discriminate|].
    destruct (ifstream_open fs file_path) as [file|] eqn:Hopen;
      [|discriminate].
    unfold fs_is_regular_file, path_status in Hreg.
    unfold ifstream_open in Hopen.
    destruct (fs file_path) as [i|] eqn:Hfs; simpl in Hopen; [|discriminate].
    destruct (status i) as [s|] eqn:Hstatus; simpl in Hreg; [|discriminate].
    injection Hreg as Hty. apply bool_decide_eq_true_1 in Hty.
    destruct (status_regular _ _ Hstatus Hty) as (st & content & Hres).
    unfold open_source in Hopen. rewrite Hres in Hopen.
    destruct content as [src|]; simpl in Hopen; [|discriminate].
    injection Hopen as <-.
    destruct (then_error src) eqn:Herr.
    + edestruct (hash_stream_error chunk_size) as [h ->];
        [exact Hpos | reflexivity | reflexivity |].
      simpl. discriminate.
    + rewrite hash_stream_eof by (assumption || reflexivity).
      simpl. intros [= <-]. split; [reflexivity|]. exists st, src.
      split; [exists i; auto | auto].
  - intros (Hmem & st & src & Hreg & Hnoerr & ->).
    destruct (regular_file_open _ _ _ _ Hreg) as (Hex & Hisreg & Hopen).
    unfold calculate_blake3. rewrite Hex, Hisreg, Hnew, Hmem, Hopen.
    rewrite hash_stream_eof by (assumption || reflexivity).
    reflexivity.
Qed.

End CalculateOutcomes.

Section CalculateErrors.
Context `{HashEngine}.
Variable fs : filesystem.
Variable file_path : string.

(** Why [calculate_blake3] throws. A path that names nothing, or a link
    whose target is missing, is reported as not existing; anything that is
    not a regular file is refused; both are decided before the buffer is
    allocated, whatever the chunk size. On a path that passes the two
    checks a chunk size whose buffer cannot be allocated makes the call
    throw what the allocator throws, whether or not the file could have been
    opened; otherwise a regular file that cannot be opened and one whose
    device fails have messages of their own. *)
Theorem calculate_blake3_error_messages heap chunk_size :
  (forall i, fs file_path = None
             \/ (fs file_path = Some i /\ resolve i = Return None) ->
     calculate_blake3 fs heap file_path chunk_size
     = Some (Throw ("File does not exist: " +:+ file_path)))
  /\ (forall i j st,
        fs file_path = Some i -> resolve i = Return (Some j) ->
        inode_stat j = Return st -> own_type j ≠ ft_regular ->
        calculate_blake3 fs heap file_path chunk_size
        = Some (Throw ("Path is not a regular file: " +:+ file_path)))
  /\ (forall i st content what,
        fs file_path = Some i ->
        resolve i = Return (Some (Regular (Return st) content)) ->
        new_array heap chunk_size = Some what ->
        calculate_blake3 fs heap file_path chunk_size = Some (Throw what))
  /\ (forall i st,
        fs file_path = Some i ->
        resolve i = Return (Some (Regular (Return st) None)) ->
        new_array heap chunk_size = None ->
        calculate_blake3 fs heap file_path chunk_size
        = Some (Throw ("Cannot open file: " +:+ file_path)))
  /\ (forall st src,
        readable_regular_file fs file_path st src ->
        then_error src = true -> (1 ≤ chunk_size)%N ->
        heap chunk_size = None ->
        calculate_blake3 fs heap file_path chunk_size
        = Some (Throw ("Error reading file: " +:+ file_path))).
Proof.
  split; [|split; [|split; [|split]]].
  - intros i [Hnone|[Hfs Hres]];
      unfold calculate_blake3, fs_exists, path_status, status.
    + rewrite Hnone. reflexivity.
    + rewrite Hfs. simpl. rewrite Hres. reflexivity.
  - intros i j st Hfs Hres Hst Hty.
    unfold calculate_blake3, fs_exists, fs_is_regular_file, path_status, status.
    rewrite Hfs. simpl. rewrite Hres. simpl. rewrite Hst. simpl.
    rewrite bool_decide_eq_true_2
      by (destruct j as [| | | | |[] ? ?]; simpl in *; discriminate).
    rewrite bool_decide_eq_false_2 by assumption. reflexivity.
  - intros i st content what Hfs Hres Hmem.
    unfold calculate_blake3, fs_exists, fs_is_regular_file, path_status, status.
    rewrite Hfs. simpl. rewrite Hres. simpl. rewrite Hmem. reflexivity.
  - intros i st Hfs Hres Hmem.
    unfold calculate_blake3, fs_exists, fs_is_regular_file, path_status, status,
      ifstream_open, open_source.
    rewrite Hfs. simpl. rewrite Hres. simpl. rewrite Hmem. reflexivity.
  - intros st src Hreg Herr Hpos Hmem.
    destruct (regular_file_open _ _ _ _ Hreg) as (Hex & Hisreg & Hopen).
    unfold calculate_blake3. rewrite Hex, Hisreg.
    unfold new_array. rewrite bool_decide_eq_false_2 by lia.
    rewrite Hmem, Hopen.
    edestruct (hash_stream_error chunk_size) as [h ->];
      [exact Hpos | reflexivity | exact Herr |].
    reflexivity.
Qed.

(** With [chunk_size = 0] the call fails to return exactly on the paths
    that pass both checks and open: there the loop spins; everywhere else
    the call throws as it does for any other chunk size. *)
Theorem calculate_blake3_zero_chunk_hangs_iff heap :
  calculate_blake3 fs heap file_path 0 = None
  <-> fs_exists fs file_path = Return true
      /\ fs_is_regular_file fs file_path = Return true
      /\ is_Some (ifstream_open fs file_path).
Proof.
  unfold calculate_blake3. change (new_array heap 0) with (@None string).
  split.
  - destruct (fs_exists fs file_path) as [[|]|]; try discriminate.
    destruct (fs_is_regular_file fs file_path) as [[|]|]; try discriminate.
    destruct (ifstream_open fs file_path) as [file|]; [eauto|discriminate].
  - intros (-> & -> & [file Hopen]). rewrite Hopen.
    unfold hash_stream.
    rewrite read_loop_zero by (eapply ifstream_open_good; eauto).
    reflexivity.
Qed.

End CalculateErrors.

Lemma calculate_blake3_returns_digest_iff_witness :
  calculate_blake3 (H := echo_engine) hashing_fs gibibyte "/tmp/a.txt" 3
  = Some (Return
      "68656c6c6f000000000000000000000000000000000000000000000000000000")
  <-> gibibyte 3%N = None
      /\ exists st src,
            readable_regular_file hashing_fs "/tmp/a.txt" st src
            /\ then_error src = false
            /\ "68656c6c6f000000000000000000000000000000000000000000000000000000"
               = digest_of (H := echo_engine) (available src).
Proof.
  apply (calculate_blake3_returns_digest_iff (H := echo_engine) hashing_fs
           "/tmp/a.txt" gibibyte 3).
  - intros h a b. simpl. symmetry. apply app_assoc.
  - lia.
Defined.

Lemma calculate_blake3_error_messages_witness :
  calculate_blake3 (H := echo_engine) failure_fs gibibyte "/dangling" 0
  = Some (Throw "File does not exist: /dangling")
  /\ calculate_blake3 (H := echo_engine) failure_fs gibibyte "/d" 0
     = Some (Throw "Path is not a regular file: /d")
  /\ calculate_blake3 (H := echo_engine) failure_fs gibibyte "/locked"
       4611686018427387904
     = Some (Throw "std::bad_alloc")
  /\ calculate_blake3 (H := echo_engine) failure_fs gibibyte "/locked" 0
     = Some (Throw "Cannot open file: /locked")
  /\ calculate_blake3 (H := echo_engine) failure_fs gibibyte "/failing" 2
     = Some (Throw "Error reading file: /failing").
Proof.
  split; [|split; [|split; [|split]]].
  - apply (proj1 (calculate_blake3_error_messages (H := echo_engine)
                    failure_fs "/dangling" gibibyte 0) DanglingSymlink).
    right. split; reflexivity.
  - apply (proj1 (proj2 (calculate_blake3_error_messages (H := echo_engine)
                           failure_fs "/d" gibibyte 0))
             (listing []) (listing []) dir_stat); try reflexivity.
    discriminate.
  - apply (proj1 (proj2 (proj2 (calculate_blake3_error_messages
                                  (H := echo_engine) failure_fs "/locked"
                                  gibibyte 4611686018427387904)))
             locked_txt (plain_stat 5) None); reflexivity.
  - apply (proj1 (proj2 (proj2 (proj2 (calculate_blake3_error_messages
                                  (H := echo_engine) failure_fs "/locked"
                                  gibibyte 0))))
             locked_txt (plain_stat 5)); reflexivity.
  - apply (proj2 (proj2 (proj2 (proj2 (calculate_blake3_error_messages
                                  (H := echo_engine) failure_fs "/failing"
                                  gibibyte 2))))
             (plain_stat 5)
             {| available := [x68; x65; x6c]; then_error := true |}).
    + exists failing_txt. split; reflexivity.
    + reflexivity.
    + lia.
    + reflexivity.
Defined.

(** ** More on the batch scheduler *)

Section BatchAnyPaths.
Variable job : string -> option (attempt job_exit).
Variable file_paths : list string.

Lemma build_prefix_any p k :
  k ≤ length file_paths ->
  (forall i path, file_paths !! i = Some path ->
     exists j, job path = Some j
               /\ results p !! i = Some (slot_of path j).1
               /\ errors p !! i = Some (slot_of path j).2) ->
  dom (foldl (build_entry file_paths p) ∅ (seq 0 k))
  = list_to_set (take k file_paths)
  /\ forall i path, i < k -> file_paths !! i = Some path ->
       exists j, job path = Some j
                 /\ foldl (build_entry file_paths p) ∅ (seq 0 k) !! path
                    = Some (value_of j).
Proof.
  intros Hk Hslots. induction k as [|k IH].
  - simpl. split; [apply dom_empty_L | intros; lia].
  - destruct IH as [IHdom IHlook]; [lia|].
    destruct (lookup_lt_is_Some_2 file_paths k) as [pk Hpk]; [lia|].
    destruct (Hslots _ _ Hpk) as (jk & Hjk & Hrk & Hek).
    rewrite seq_S, foldl_app. simpl.
    rewrite (build_entry_slot _ _ _ _ _ _ Hpk Hrk Hek).
    split.
    + rewrite dom_insert_L, IHdom, (take_S_r _ _ _ Hpk), list_to_set_app_L.
      simpl. rewrite union_empty_r_L. apply union_comm_L.
    + intros i path Hi Hpath.
      destruct (decide (path = pk)) as [->|Hne].
      * exists jk. rewrite lookup_insert_eq. auto.
      * destruct (IHlook i path) as (j & Hj & Hlook); [|assumption|].
        { destruct (decide (i = k)) as [->|]; [congruence | lia]. }
        exists j. split; [assumption|].
        rewrite lookup_insert_ne by congruence. assumption.
Qed.

Lemma batch_under_entries_any schedule num_threads m :
  (0 < num_threads)%Z ->
  batch_under job file_paths schedule num_threads = Some m ->
  dom m = list_to_set file_paths
  /\ base.size m = length (remove_dups file_paths)
  /\ forall path, path ∈ file_paths ->
       exists j, job path = Some j /\ m !! path = Some (value_of j).
Proof.
  intros Hpos. unfold batch_under.
  set (p := run_pool job file_paths schedule _).
  destruct (decide (joined p)) as [Hjoin|]; [|discriminate].
  intros [= <-].
  assert (Hinv : pool_inv job file_paths (Z.to_nat num_threads) p)
    by (apply run_pool_inv, pool_init_inv).
  pose proof (joined_slots job file_paths (Z.to_nat num_threads) p
                ltac:(lia) Hinv Hjoin) as Hslots.
  destruct (build_prefix_any p (length file_paths) (le_n _) Hslots)
    as [Hdom Hlook].
  rewrite firstn_all in Hdom. unfold build_results.
  split; [exact Hdom|]. split.
  - rewrite <- size_dom, Hdom.
    replace (list_to_set file_paths : gset string)
      with (list_to_set (remove_dups file_paths) : gset string).
    + apply size_list_to_set, NoDup_remove_dups.
    + apply set_eq. intros x.
      rewrite !elem_of_list_to_set, elem_of_remove_dups. reflexivity.
  - intros path Hin. apply list_elem_of_lookup in Hin as [i Hi].
    apply (Hlook i); [eapply lookup_lt_Some; eauto | assumption].
Qed.

End BatchAnyPaths.

Section BatchEntries.
Context `{HashEngine}.
Variable fs : filesystem.

Lemma hash_job_by_cause path :
  endless fs path = false ->
  match ifstream_open fs path with
  | None => hash_job fs path = Some (Return (Failed "Cannot open file"))
  | Some file =>
      if device_fails file
      then hash_job fs path = Some (Return (Failed "Error reading file"))
      else exists hex, hash_job fs path = Some (Return (Stored hex))
                       /\ String.length hex = 64
  end.
Proof.
  intros Hends. unfold hash_job. rewrite Hends.
  destruct (ifstream_open fs path) as [file|] eqn:Hopen; [|reflexivity].
  pose proof (ifstream_open_good _ _ _ Hopen) as Hgood.
  destruct (device_fails file) eqn:Hdev.
  - destruct (hash_stream_error batch_chunk_size file blake3_hasher_init
                batch_chunk_size_positive Hgood Hdev) as [h ->].
    reflexivity.
  - destruct (read_loop_total batch_chunk_size (S (length (unread file)))
                file blake3_hasher_init batch_chunk_size_positive Hgood)
      as [[file' hasher] Hrun]; [lia|].
    unfold hash_stream. rewrite Hrun. simpl.
    assert (Hbad : badbit file' = false).
    { clear -Hrun Hgood Hdev.
      revert Hrun. generalize (S (length (unread file))).
      generalize (@blake3_hasher_init H).
      intros h n. revert file h Hgood Hdev.
      induction n as [|n IH]; intros file h Hgood Hdev; simpl;
        rewrite (good_stream_ok _ Hgood); simpl; [discriminate|].
      unfold read. rewrite Hgood. simpl.
      destruct (N.leb_spec batch_chunk_size (N.of_nat (length (unread file)))).
      - apply IH; [reflexivity | exact Hdev].
      - rewrite Hdev. rewrite read_loop_exit by reflexivity.
        intros [= <- _]. reflexivity. }
    rewrite Hbad. eexists. split; [reflexivity | apply to_hex_length].
Qed.

(** With any list of paths, repeated or not: the keys of the returned
    dictionary are the paths of the list, one entry for each distinct path,
    and repeating a path changes nothing for it or for the others. *)
Theorem calculate_blake3_batch_repeated_paths hardware_concurrency schedule
    file_paths num_threads m :
  calculate_blake3_batch fs hardware_concurrency schedule file_paths
    num_threads = Some m ->
  dom m = list_to_set file_paths
  /\ base.size m = length (remove_dups file_paths)
  /\ forall path, path ∈ file_paths ->
       exists j, hash_job fs path = Some j /\ m !! path = Some (value_of j).
Proof.
  intros Hm. unfold calculate_blake3_batch in Hm.
  exact (batch_under_entries_any _ _ _ _ _
           (resolve_num_threads_positive _ _) Hm).
Qed.

(** What an entry says about its path: a path that cannot be opened has the
    entry "Cannot open file"; one that opens on a failing device has "Error
    reading file"; any other has a digest of 64 characters, whatever kind of
    file it names. No entry is ever the fallback "Unknown error". *)
Theorem calculate_blake3_batch_entry_by_cause hardware_concurrency schedule
    file_paths num_threads m :
  calculate_blake3_batch fs hardware_concurrency schedule file_paths
    num_threads = Some m ->
  (forall path, path ∈ file_paths ->
     match ifstream_open fs path with
     | None => m !! path = Some (py_error_info "Cannot open file")
     | Some file =>
         if device_fails file
         then m !! path = Some (py_error_info "Error reading file")
         else exists hex, m !! path = Some (py_str hex)
                          /\ String.length hex = 64
     end)
  /\ (forall path, m !! path ≠ Some (py_error_info "Unknown error")).
Proof.
  intros Hm. unfold calculate_blake3_batch in Hm.
  destruct (batch_under_entries_any _ _ _ _ _
              (resolve_num_threads_positive _ _) Hm) as (Hdom & _ & Hlook).
  assert (Hcause : forall path, path ∈ file_paths ->
     match ifstream_open fs path with
     | None => m !! path = Some (py_error_info "Cannot open file")
     | Some file =>
         if device_fails file
         then m !! path = Some (py_error_info "Error reading file")
         else exists hex, m !! path = Some (py_str hex)
                          /\ String.length hex = 64
     end).
  { intros path Hin. destruct (Hlook path Hin) as (j & Hj & Hmj).
    assert (Hends : endless fs path = false).
    { destruct (endless fs path) eqn:He; [|reflexivity].
      rewrite (proj2 (hash_job_endless fs path) He) in Hj. discriminate. }
    pose proof (hash_job_by_cause path Hends) as Hcase.
    destruct (ifstream_open fs path) as [file|].
    - destruct (device_fails file).
      + rewrite Hcase in Hj. injection Hj as <-. exact Hmj.
      + destruct Hcase as (hex & Hhex & Hlen).
        rewrite Hhex in Hj. injection Hj as <-.
        exists hex. split; [|exact Hlen].
        rewrite Hmj. simpl. rewrite bool_decide_eq_false_2; [reflexivity|].
        intros ->. discriminate.
    - rewrite Hcase in Hj. injection Hj as <-. exact Hmj. }
  split; [exact Hcause|].
  intros path Heq.
  assert (Hin : path ∈ file_paths).
  { apply (elem_of_list_to_set (C := gset string)). rewrite <- Hdom.
    apply elem_of_dom. eauto. }
  specialize (Hcause path Hin).
  destruct (ifstream_open fs path) as [file|].
  - destruct (device_fails file).
    + rewrite Hcause in Heq. discriminate.
    + destruct Hcause as (hex & Hhex & _). rewrite Hhex in Heq. discriminate.
  - rewrite Hcause in Heq. discriminate.
Qed.

End BatchEntries.

Lemma calculate_blake3_batch_repeated_paths_witness :
  let file_paths := ["/tmp/a.txt"; "/tmp/missing"; "/tmp/a.txt"] in
  exists m,
    calculate_blake3_batch (H := echo_engine) hashing_fs 1
      [0; 0; 0; 0; 0; 0; 0] file_paths 1 = Some m
    /\ dom m = list_to_set file_paths
    /\ base.size m = length (remove_dups file_paths)
    /\ forall path, path ∈ file_paths ->
         exists j, hash_job (H := echo_engine) hashing_fs path = Some j
                   /\ m !! path = Some (value_of j).
Proof.
  eexists. split; [vm_compute; reflexivity|].
  apply (calculate_blake3_batch_repeated_paths (H := echo_engine) hashing_fs 1
           [0; 0; 0; 0; 0; 0; 0]
           ["/tmp/a.txt"; "/tmp/missing"; "/tmp/a.txt"] 1).
  vm_compute. reflexivity.
Defined.

Lemma calculate_blake3_batch_entry_by_cause_witness :
  let file_paths := ["/tmp/a.txt"; "/tmp/missing"] in
  exists m,
    calculate_blake3_batch (H := echo_engine) hashing_fs 1
      [0; 0; 0; 0; 0] file_paths 1 = Some m
    /\ (forall path, path ∈ file_paths ->
          match ifstream_open hashing_fs path with
          | None => m !! path = Some (py_error_info "Cannot open file")
          | Some file =>
              if device_fails file
              then m !! path = Some (py_error_info "Error reading file")
              else exists hex, m !! path = Some (py_str hex)
                               /\ String.length hex = 64
          end)
    /\ (forall path, m !! path ≠ Some (py_error_info "Unknown error")).
Proof.
  eexists. split; [vm_compute; reflexivity|].
  apply (calculate_blake3_batch_entry_by_cause (H := echo_engine) hashing_fs 1
           [0; 0; 0; 0; 0] ["/tmp/a.txt"; "/tmp/missing"] 1).
  vm_compute. reflexivity.
Defined.

Section CursorFacts.
Variable job : string -> option (attempt job_exit).
Variable file_paths : list string.

Lemma exited_insert (l : list worker) t w0 w :
  l !! t = Some w0 -> w0 ≠ Exited ->
  length (filter (fun x => x = Exited) (<[t := w]> l))
  = length (filter (fun x => x = Exited) l)
    + (if decide (w = Exited) then 1 else 0).
Proof.
  revert t. induction l as [|x l IH]; intros t Hl Hw0; [discriminate|].
  destruct t as [|t]; simpl in *.
  - injection Hl as ->. rewrite !filter_cons.
    destruct (decide (w = Exited)), (decide (w0 = Exited)); simpl;
      [congruence | lia | congruence | lia].
  - rewrite !filter_cons.
    destruct (decide (x = Exited)); simpl; rewrite (IH t Hl Hw0); lia.
Qed.

Lemma exited_replicate n :
  length (filter (fun x => x = Exited) (replicate n Claiming)) = 0.
Proof.
  induction n as [|n IH]; [reflexivity|].
  simpl. rewrite filter_cons_False by discriminate. exact IH.
Qed.

Local Abbreviation cursor_inv := (cursor_inv file_paths).

Lemma cursor_inv_step t p :
  cursor_inv p -> cursor_inv (worker_step job file_paths t p).
Proof.
  intros [Hlow Hhigh]. unfold worker_step.
  destruct (threads p !! t) as [[| idx |]|] eqn:Ht; try (split; assumption).
  - unfold cursor_inv, exited_count. simpl.
    rewrite (exited_insert _ _ _ _ Ht) by discriminate.
    fold (exited_count p).
    case_bool_decide as Hidx.
    + rewrite decide_True by reflexivity. split; [lia|].
      intros _. rewrite (Hhigh Hidx). lia.
    + rewrite decide_False by discriminate. split.
      * intros _. rewrite Hlow by lia. lia.
      * intros Hge. rewrite Hlow by lia. lia.
  - destruct (file_paths !! idx) as [path|]; [|split; assumption].
    destruct (job path) as [[[hex|msg]|w]|]; try (split; assumption).
    all: unfold cursor_inv, exited_count; simpl;
      rewrite (exited_insert _ _ _ _ Ht) by discriminate;
      rewrite decide_False by discriminate; fold (exited_count p);
      rewrite Nat.add_0_r; split; assumption.
Qed.

Lemma cursor_inv_run schedule p :
  cursor_inv p -> cursor_inv (run_pool job file_paths schedule p).
Proof.
  revert p. induction schedule as [|t schedule IH]; intros p Hinv;
    [assumption|].
  simpl. apply IH, cursor_inv_step. assumption.
Qed.

(** When every worker has been joined the cursor stands at the number of
    paths plus the number of workers: each index was claimed once, and each
    worker made one claim beyond the end of the list, the one that ended its
    loop. *)
Theorem cursor_after_join schedule num_threads :
  0 < num_threads ->
  joined (run_pool job file_paths schedule (pool_init file_paths num_threads)) ->
  next_index (run_pool job file_paths schedule
                (pool_init file_paths num_threads))
  = length file_paths + num_threads.
Proof.
  intros Hpos Hjoin.
  set (p := run_pool _ _ _ _) in *.
  assert (Hinv : pool_inv job file_paths num_threads p)
    by (apply run_pool_inv, pool_init_inv).
  assert (Hcur : cursor_inv p).
  { apply cursor_inv_run. split; simpl.
    - intros _. apply exited_replicate.
    - intros Hle. assert (length file_paths = 0) as -> by lia.
      unfold exited_count. simpl. rewrite exited_replicate. reflexivity. }
  assert (Hall : exited_count p = num_threads).
  { unfold exited_count. rewrite <- (inv_threads _ _ _ _ Hinv).
    unfold joined in Hjoin. clear -Hjoin.
    induction Hjoin as [|w ws Hw _ IH]; [reflexivity|].
    rewrite filter_cons_True by assumption. simpl. rewrite IH. reflexivity. }
  destruct Hcur as [Hlow Hhigh].
  destruct (Nat.le_gt_cases (length file_paths) (next_index p)) as [Hge|Hlt].
  - rewrite (Hhigh Hge), Hall. reflexivity.
  - rewrite Hlow in Hall by lia. lia.
Qed.

(** At every point of every execution the two result vectors keep the
    length of the input, every index held by a worker is within the list and
    below the cursor, no two workers hold the same index, and the slots from
    the cursor onwards are still empty. *)
Theorem workers_never_share_a_slot schedule num_threads :
  let p := run_pool job file_paths schedule
             (pool_init file_paths num_threads) in
  length (results p) = length file_paths
  /\ length (errors p) = length file_paths
  /\ (forall t i, threads p !! t = Some (Hashing i) ->
        i < length file_paths /\ i < next_index p)
  /\ (forall t t' i, threads p !! t = Some (Hashing i) ->
        threads p !! t' = Some (Hashing i) -> t = t')
  /\ (forall i, i < length file_paths -> next_index p ≤ i ->
        results p !! i = Some (EmptyString, EmptyString)
        /\ errors p !! i = Some EmptyString).
Proof.
  intros p.
  assert (Hinv : pool_inv job file_paths num_threads p)
    by (apply run_pool_inv, pool_init_inv).
  destruct Hinv as [_ Hr He Hcl Hown _ Hfresh _].
  split; [exact Hr|]. split; [exact He|]. split; [|split].
  - intros t i Ht. destruct (Hcl t i Ht). auto.
  - exact Hown.
  - intros i Hi Hge. apply Hfresh; auto.
Qed.

End CursorFacts.

Lemma cursor_after_join_witness :
  next_index (run_pool (hash_job (H := echo_engine) hashing_fs)
                ["/tmp/a.txt"; "/dev/null"] [0; 1; 1; 0; 1; 0]
                (pool_init ["/tmp/a.txt"; "/dev/null"] 2))
  = 2 + 2.
Proof.
  apply (cursor_after_join (hash_job (H := echo_engine) hashing_fs)
           ["/tmp/a.txt"; "/dev/null"] [0; 1; 1; 0; 1; 0] 2).
  - lia.
  - apply (bool_decide_unpack _). vm_compute. reflexivity.
Defined.

Lemma workers_never_share_a_slot_witness :
  let p := run_pool (hash_job (H := echo_engine) hashing_fs)
             ["/tmp/a.txt"; "/dev/null"] [0; 1; 1]
             (pool_init ["/tmp/a.txt"; "/dev/null"] 2) in
  length (results p) = 2
  /\ length (errors p) = 2
  /\ (forall t i, threads p !! t = Some (Hashing i) ->
        i < 2 /\ i < next_index p)
  /\ (forall t t' i, threads p !! t = Some (Hashing i) ->
        threads p !! t' = Some (Hashing i) -> t = t')
  /\ (forall i, i < 2 -> next_index p ≤ i ->
        results p !! i = Some (EmptyString, EmptyString)
        /\ errors p !! i = Some EmptyString).
Proof.
  apply (workers_never_share_a_slot (hash_job (H := echo_engine) hashing_fs)
           ["/tmp/a.txt"; "/dev/null"] [0; 1; 1] 2).
Defined.

(** ** Schedules under which the batch returns *)

Section FairSchedules.
Variable job : string -> option (attempt job_exit).
Variable file_paths : list string.
Variable num_threads : nat.
Hypothesis job_ends : forall path, path ∈ file_paths -> is_Some (job path).

Local Abbreviation left_of := (steps_left_of (length file_paths)).

Lemma steps_left_step t t' p :
  pool_inv job file_paths num_threads p ->
  left_of t (worker_step job file_paths t' p)
  ≤ left_of t p - (if decide (t' = t) then 1 else 0).
Proof.
  intros Hinv. unfold worker_step, steps_left_of.
  destruct (threads p !! t') as [[| idx |]|] eqn:Ht'.
  - simpl. destruct (decide (t' = t)) as [->|Hne].
    + rewrite Ht'. simpl.
      rewrite list_lookup_insert_eq by (eapply lookup_lt_Some; eauto).
      case_bool_decide; simpl; lia.
    + rewrite list_lookup_insert_ne by assumption.
      destruct (threads p !! t) as [[| |]|]; simpl; lia.
  - destruct (inv_claimed _ _ _ _ Hinv t' idx Ht') as [_ Hidx].
    destruct (lookup_lt_is_Some_2 file_paths idx Hidx) as [path Hpath].
    rewrite Hpath.
    destruct (job_ends path) as [j Hj];
      [eapply list_elem_of_lookup_2; eauto|].
    rewrite Hj.
    assert (Hgoal :
      from_option (steps_left (length file_paths) (next_index p)) 0
        (<[t' := Claiming]> (threads p) !! t)
      ≤ from_option (steps_left (length file_paths) (next_index p)) 0
          (threads p !! t) - (if decide (t' = t) then 1 else 0)).
    { destruct (decide (t' = t)) as [->|Hne].
      - rewrite Ht'. simpl.
        rewrite list_lookup_insert_eq by (eapply lookup_lt_Some; eauto).
        simpl. lia.
      - rewrite list_lookup_insert_ne by assumption. lia. }
    destruct j as [[hex|msg]|w]; exact Hgoal.
  - destruct (decide (t' = t)) as [->|Hne]; [rewrite Ht'; simpl|]; lia.
  - destruct (decide (t' = t)) as [->|Hne]; [rewrite Ht'; simpl|]; lia.
Qed.

Lemma steps_left_run t schedule : forall p,
  pool_inv job file_paths num_threads p ->
  left_of t (run_pool job file_paths schedule p)
  ≤ left_of t p - turns t schedule.
Proof.
  induction schedule as [|t' schedule IH]; intros p Hinv;
    [unfold turns; simpl; lia|].
  simpl. etransitivity; [apply IH, worker_step_inv, Hinv|].
  pose proof (steps_left_step t t' p Hinv) as Hstep.
  unfold turns. destruct (decide (t' = t)) as [->|Hne].
  - rewrite filter_cons_True by reflexivity. simpl. lia.
  - rewrite filter_cons_False by assumption. lia.
Qed.

(** When the block of every path is left, a schedule that gives every
    worker two turns for each path and one more lets all of them leave
    their loops. *)
Lemma every_worker_exits schedule :
  (forall t, t < num_threads ->
     2 * length file_paths + 1 ≤ turns t schedule) ->
  joined (run_pool job file_paths schedule (pool_init file_paths num_threads)).
Proof.
  intros Hfair.
  set (p := run_pool _ _ _ _).
  assert (Hinv : pool_inv job file_paths num_threads p)
    by (apply run_pool_inv, pool_init_inv).
  unfold joined. apply Forall_lookup. intros t w Hw.
  assert (Ht : t < num_threads).
  { rewrite <- (inv_threads _ _ _ _ Hinv). eapply lookup_lt_Some; eauto. }
  pose proof (steps_left_run t schedule (pool_init file_paths num_threads)
                (pool_init_inv _ _ _)) as Hleft.
  fold p in Hleft. unfold steps_left_of in Hleft at 1. rewrite Hw in Hleft.
  unfold steps_left_of in Hleft. simpl in Hleft.
  rewrite lookup_replicate_2 in Hleft by assumption. simpl in Hleft.
  specialize (Hfair t Ht).
  destruct w; simpl in Hleft; [lia | lia | reflexivity].
Qed.

End FairSchedules.

(** Whether [calculate_blake3_batch] returns does not depend on the order
    in which the workers run, as long as each of them is given its turns:
    under a schedule that gives every worker two turns for each path and one
    more, the call returns exactly when no path names a device that never
    runs out. *)
Theorem calculate_blake3_batch_returns_iff_paths_end `{HashEngine}
    (fs : filesystem) (hardware_concurrency : Z) (schedule : list nat)
    (file_paths : list string) (num_threads : Z) :
  (forall t,
     t < Z.to_nat (resolve_num_threads hardware_concurrency num_threads) ->
     2 * length file_paths + 1 ≤ turns t schedule) ->
  is_Some (calculate_blake3_batch fs hardware_concurrency schedule file_paths
             num_threads)
  <-> forall path, path ∈ file_paths -> endless fs path = false.
Proof.
  intros Hfair. unfold calculate_blake3_batch. split.
  - intros [m Hm] path Hin.
    destruct (batch_under_entries_any _ _ _ _ _
                (resolve_num_threads_positive _ _) Hm) as (_ & _ & Hlook).
    destruct (Hlook path Hin) as (j & Hj & _).
    destruct (endless fs path) eqn:Hends; [|reflexivity].
    rewrite (proj2 (hash_job_endless fs path) Hends) in Hj. discriminate.
  - intros Hend. unfold batch_under.
    destruct (decide (joined _)) as [|Hnot]; [eauto|].
    exfalso. apply Hnot. apply every_worker_exits; [|exact Hfair].
    intros path Hin.
    destruct (hash_job_total fs path (Hend path Hin))
      as [(? & -> & _)|(? & -> & _)]; eauto.
Qed.

Lemma calculate_blake3_batch_returns_iff_paths_end_witness :
  is_Some (calculate_blake3_batch (H := echo_engine) hashing_fs 2
             [0; 1; 0; 1; 0; 1; 0; 1; 0; 1] ["/tmp/a.txt"; "/dev/null"] 0)
  <-> forall path, path ∈ ["/tmp/a.txt"; "/dev/null"] ->
        endless hashing_fs path = false.
Proof.
  apply (calculate_blake3_batch_returns_iff_paths_end (H := echo_engine)
           hashing_fs 2 [0; 1; 0; 1; 0; 1; 0; 1; 0; 1]
           ["/tmp/a.txt"; "/dev/null"] 0).
  intros [|[|t]] Ht; [vm_compute; lia | vm_compute; lia |].
  vm_compute in Ht. lia.
Defined.

(** ** More on the directory scan *)

Section RootChecks.
Variable clk : nat -> clock_reading.
Variable fs : filesystem.
Variable root_path : string.
Variable max_depth : Z.
Variable include_hidden : bool.

(** What [scandir_recursive] does with its root before and at the start of
    the traversal: a path that names nothing, or a link whose target is
    missing, is reported as not existing; anything that is not a directory
    is refused; a directory that may not be listed, like an empty one, gives
    the empty list and no error. *)
Theorem scandir_recursive_root_checks :
  (forall i, fs root_path = None
             \/ (fs root_path = Some i /\ resolve i = Return None) ->
     scandir_recursive clk fs root_path max_depth include_hidden
     = Throw ("Path does not exist: " +:+ root_path))
  /\ (forall i j st,
        fs root_path = Some i -> resolve i = Return (Some j) ->
        inode_stat j = Return st -> own_type j ≠ ft_directory ->
        scandir_recursive clk fs root_path max_depth include_hidden
        = Throw ("Path is not a directory: " +:+ root_path))
  /\ (forall i st entries,
        fs root_path = Some i ->
        resolve i
        = Return (Some (Directory (Return st) PermissionDenied entries)) ->
        scandir_recursive clk fs root_path max_depth include_hidden
        = Return [])
  /\ (forall i st,
        fs root_path = Some i ->
        resolve i = Return (Some (Directory (Return st) Listable [])) ->
        scandir_recursive clk fs root_path max_depth include_hidden
        = Return []).
Proof.
  split; [|split; [|split]].
  - intros i [Hnone|[Hfs Hres]];
      unfold scandir_recursive, fs_exists, path_status, status.
    + rewrite Hnone. reflexivity.
    + rewrite Hfs. simpl. rewrite Hres. reflexivity.
  - intros i j st Hfs Hres Hst Hty.
    unfold scandir_recursive, fs_exists, fs_is_directory, path_status, status.
    rewrite Hfs. simpl. rewrite Hres. simpl. rewrite Hst. simpl.
    rewrite bool_decide_eq_true_2
      by (destruct j as [| | | | |[] ? ?]; simpl in *; discriminate).
    rewrite bool_decide_eq_false_2 by assumption. reflexivity.
  - intros i st entries Hfs Hres.
    unfold scandir_recursive, fs_exists, fs_is_directory, path_status, status,
      scan_root.
    rewrite Hfs. simpl. rewrite Hres. reflexivity.
  - intros i st Hfs Hres.
    unfold scandir_recursive, fs_exists, fs_is_directory, path_status, status,
      scan_root.
    rewrite Hfs. simpl. rewrite Hres. reflexivity.
Qed.

End RootChecks.

Lemma scandir_recursive_root_checks_witness :
  scandir_recursive steady_clock failure_fs "/dangling" 0 false
  = Throw "Path does not exist: /dangling"
  /\ scandir_recursive steady_clock failure_fs "/locked" 0 false
     = Throw "Path is not a directory: /locked"
  /\ scandir_recursive steady_clock failure_fs "/denied" 0 false = Return []
  /\ scandir_recursive steady_clock failure_fs "/d" 0 false = Return [].
Proof.
  split; [|split; [|split]].
  - apply (proj1 (scandir_recursive_root_checks steady_clock failure_fs
                    "/dangling" 0 false) DanglingSymlink).
    right. split; reflexivity.
  - apply (proj1 (proj2 (scandir_recursive_root_checks steady_clock
                           failure_fs "/locked" 0 false))
             locked_txt locked_txt (plain_stat 5)); try reflexivity.
    discriminate.
  - apply (proj1 (proj2 (proj2 (scandir_recursive_root_checks steady_clock
                                  failure_fs "/denied" 0 false)))
             denied_dir dir_stat [("x", a_txt)]); reflexivity.
  - apply (proj2 (proj2 (proj2 (scandir_recursive_root_checks steady_clock
                                  failure_fs "/d" 0 false)))
             (listing []) dir_stat); reflexivity.
Defined.

Section DepthSign.
Variable clk : nat -> clock_reading.
Variable include_hidden : bool.

Lemma loop_body_nonpositive_depth max_depth c depth p filename e :
  (max_depth ≤ 0)%Z ->
  loop_body max_depth include_hidden c depth p filename e
  = loop_body 0 include_hidden c depth p filename e.
Proof.
  intros Hle. unfold loop_body.
  rewrite !bool_decide_eq_false_2 by lia. reflexivity.
Qed.

Lemma scan_entry_nonpositive_depth max_depth e :
  (max_depth ≤ 0)%Z ->
  forall depth dir filename s,
    scan_entry clk max_depth include_hidden depth dir filename e s
    = scan_entry clk 0 include_hidden depth dir filename e s.
Proof.
  intros Hle.
  induction e as [st content | st acc kids IHkids | target _ | | what
                 | kind st content] using inode_nested_ind;
    intros depth dir filename s; rewrite !scan_entry_eq; unfold body_of;
    cbv zeta; simpl; rewrite !(loop_body_nonpositive_depth max_depth) by exact Hle;
    try reflexivity.
  destruct (aborted s); [reflexivity|].
  destruct (recursion_pending_after _); [|reflexivity].
  destruct acc; try reflexivity.
  generalize (after_body
    (visit_at depth dir filename (Directory st Listable kids) s)
    (loop_body 0 include_hidden (clk (samples s)) depth
       (path_append dir filename) filename (Directory st Listable kids)) s).
  induction IHkids as [|[n k] kids Hk _ IH]; intros s1; [reflexivity|].
  rewrite !scan_list_cons. simpl in Hk. rewrite Hk. apply IH.
Qed.

(** A depth limit of zero or less is no limit: a negative [max_depth]
    gives what [max_depth = 0] gives. *)
Theorem scandir_recursive_nonpositive_depth fs root_path max_depth :
  (max_depth ≤ 0)%Z ->
  scandir_recursive clk fs root_path max_depth include_hidden
  = scandir_recursive clk fs root_path 0 include_hidden.
Proof.
  intros Hle. unfold scandir_recursive, scan_root.
  destruct (fs_exists fs root_path) as [[|]|]; simpl; try reflexivity.
  destruct (fs_is_directory fs root_path) as [[|]|]; simpl; try reflexivity.
  destruct (fs root_path) as [root|]; [|reflexivity].
  destruct (resolve root) as [[[| st [| |] entries | | | |]|]|]; try reflexivity.
  assert (Heq : forall s,
    scan_list clk max_depth include_hidden 0 root_path entries s
    = scan_list clk 0 include_hidden 0 root_path entries s).
  { induction entries as [|[n e] entries IH]; intros s; [reflexivity|].
    rewrite !scan_list_cons, scan_entry_nonpositive_depth by exact Hle.
    apply IH. }
  rewrite Heq. reflexivity.
Qed.

End DepthSign.

Lemma scandir_recursive_nonpositive_depth_witness :
  scandir_recursive steady_clock
    (single_root "/r" (listing nested_entries)) "/r" (-3) false
  = scandir_recursive steady_clock
      (single_root "/r" (listing nested_entries)) "/r" 0 false.
Proof.
  apply (scandir_recursive_nonpositive_depth steady_clock false
           (single_root "/r" (listing nested_entries)) "/r" (-3)).
  lia.
Defined.

Lemma string_append_assoc (a b c : string) :
  (a +:+ b) +:+ c = a +:+ (b +:+ c).
Proof.
  induction a as [|x a IH]; [reflexivity|].
  change (String x a +:+ b) with (String x (a +:+ b)).
  change (String x (a +:+ b) +:+ c) with (String x ((a +:+ b) +:+ c)).
  change (String x a +:+ (b +:+ c)) with (String x (a +:+ (b +:+ c))).
  rewrite IH. reflexivity.
Qed.

Lemma string_append_empty (a : string) : a +:+ EmptyString = a.
Proof.
  induction a as [|x a IH]; [reflexivity|].
  change (String x a +:+ EmptyString) with (String x (a +:+ EmptyString)).
  rewrite IH. reflexivity.
Qed.

Lemma prefix_append (a s : string) : String.prefix a (a +:+ s) = true.
Proof.
  induction a as [|x a IH]; [destruct s; reflexivity|].
  change (String x a +:+ s) with (String x (a +:+ s)).
  simpl. destruct (ascii_dec x x); [exact IH | congruence].
Qed.

Lemma path_append_extends dir filename :
  exists s, path_append dir filename = dir +:+ s.
Proof. unfold path_append. destruct (ends_with_separator dir); eauto. Qed.

Lemma path_below_extends chain : forall dir,
  exists s, path_below dir chain = dir +:+ s.
Proof.
  unfold path_below.
  induction chain as [|c chain IH]; intros dir; cbn [foldl].
  - exists EmptyString. rewrite string_append_empty. reflexivity.
  - destruct (IH (path_append dir c)) as [s2 Hs2].
    destruct (path_append_extends dir c) as [s1 Hs1].
    exists (s1 +:+ s2). rewrite Hs2, Hs1.
    apply string_append_assoc.
Qed.

(** Every returned record lies under the root: its path is the path of its
    directory followed by its name, and the path of that directory begins
    with [root_path]. *)
Theorem scandir_recursive_paths_under_root clk fs root_path entries max_depth
    include_hidden records r :
  root_listing fs root_path entries ->
  scandir_recursive clk fs root_path max_depth include_hidden
  = Return records ->
  r ∈ records ->
  String.prefix root_path (FileInfo.path r) = true
  /\ exists parent,
       FileInfo.path r = path_append parent (FileInfo.name r)
       /\ String.prefix root_path parent = true.
Proof.
  intros Hroot Hscan Hin.
  rewrite (scandir_recursive_on_listing _ _ _ _ _ _ Hroot) in Hscan.
  destruct (List.find is_fatal _); [discriminate|]. injection Hscan as <-.
  destruct (records_sound _ _ _ _ _ _ Hin)
    as (chain & filename & e & t & _ & _ & _ & Hmake).
  destruct (make_info_names _ _ _ _ _ Hmake) as [Hpath Hname].
  destruct (path_below_extends chain root_path) as [s1 Hs1].
  destruct (path_append_extends (path_below root_path chain) filename)
    as [s2 Hs2].
  split.
  - rewrite Hpath, Hs2, Hs1, string_append_assoc. apply prefix_append.
  - exists (path_below root_path chain). rewrite Hpath, Hname.
    split; [reflexivity|]. rewrite Hs1. apply prefix_append.
Qed.

Lemma scandir_recursive_paths_under_root_witness :
  String.prefix "/tmp/root" (FileInfo.path (a_txt_record "/tmp/root/a.txt"))
  = true
  /\ exists parent,
       FileInfo.path (a_txt_record "/tmp/root/a.txt")
       = path_append parent (FileInfo.name (a_txt_record "/tmp/root/a.txt"))
       /\ String.prefix "/tmp/root" parent = true.
Proof.
  apply (scandir_recursive_paths_under_root steady_clock
           (single_root "/tmp/root" (listing scenario_entries))
           "/tmp/root" scenario_entries 0 false
           [a_txt_record "/tmp/root/a.txt"]
           (a_txt_record "/tmp/root/a.txt")).
  - exists (listing scenario_entries), dir_stat. split; reflexivity.
  - reflexivity.
  - left.
Defined.

(** A directory in scope that cannot be opened, for a reason other than a
    denied permission, makes the whole call throw a message with the fatal
    prefix: what the scan had collected is not returned. *)
Theorem scandir_recursive_unopenable_directory_throws clk fs root_path entries
    max_depth include_hidden chain d st what kids :
  root_listing fs root_path entries ->
  occurs entries chain d (Directory st (OpenError what) kids) ->
  (include_hidden = false ->
   Forall (fun x => is_hidden x = false) (chain ++ [d])) ->
  ((0 < max_depth)%Z -> (Z.of_nat (length chain) < max_depth)%Z) ->
  exists message,
    scandir_recursive clk fs root_path max_depth include_hidden
    = Throw message
    /\ is_fatal message = true.
Proof.
  intros Hroot Hocc Hvis Hlim.
  rewrite (scandir_recursive_on_listing _ _ _ _ _ _ Hroot).
  destruct (List.find is_fatal _) as [err|] eqn:Hfind.
  - exists err. split; [reflexivity|].
    apply List.find_some in Hfind. tauto.
  - exfalso.
    pose proof (returned_not_aborted _ _ _ _ _ Hfind) as Hab.
    destruct (entries_complete clk max_depth include_hidden root_path entries
                chain d _ Hab Hocc Hvis Hlim) as (t & Hv & _).
    destruct (scan_from_init clk max_depth include_hidden root_path entries)
      as (_ & _ & He & _).
    set (v := {| v_depth := length chain; v_path := _; v_name := d;
                 v_entry := _; v_sample := t |}) in Hv.
    assert (Hin : ("Fatal error: " +:+ what)
                  ∈ scan_errors
                      (scan_list clk max_depth include_hidden 0 root_path
                         entries scan_init)).
    { rewrite He. simpl. apply list_elem_of_bind. exists v.
      split; [|exact Hv].
      unfold errors_of. apply elem_of_app. right.
      unfold body_of. subst v. simpl. rewrite body_in_scope.
      - destruct (make_info _ _ _ _); left.
      - intros [Hpos Hle]. specialize (Hlim Hpos). lia.
      - intros Hih. specialize (Hvis Hih).
        destruct (proj1 (Forall_app _ _ _) Hvis) as [_ Hf].
        exact (proj1 (Forall_singleton _ _) Hf). }
    apply list_elem_of_In in Hin.
    pose proof (List.find_none _ _ Hfind _ Hin) as Hnot.
    discriminate.
Qed.

Lemma scandir_recursive_unopenable_directory_throws_witness :
  exists message,
    scandir_recursive steady_clock
      (single_root "/r" (listing unopenable_entries)) "/r" 0 false
    = Throw message
    /\ is_fatal message = true.
Proof.
  apply (scandir_recursive_unopenable_directory_throws steady_clock
           (single_root "/r" (listing unopenable_entries)) "/r"
           unopenable_entries 0 false [] "a" (Return dir_stat)
           "Input/output error" []).
  - exists (listing unopenable_entries), dir_stat. split; reflexivity.
  - apply occurs_here. left.
  - intros _. repeat constructor.
  - lia.
Defined.

Lemma make_info_any_clock c c' p filename e r :
  make_info c p filename e = Return r ->
  exists r', make_info c' p filename e = Return r' /\ same_entry r r'.
Proof.
  unfold make_info, same_entry.
  destruct (entry_is_symlink e);
    destruct (entry_is_directory e) as [dir|]; simpl; try discriminate.
  - destruct (last_write_time e) as [ftime|]; simpl; [|discriminate].
    intros [= <-]. eexists. split; [reflexivity|]. simpl. auto.
  - destruct (if dir then Return 0%N else file_size e) as [sz|]; simpl;
      [|discriminate].
    destruct (last_write_time e) as [ftime|]; simpl; [|discriminate].
    intros [= <-]. eexists. split; [reflexivity|]. simpl. auto.
Qed.

(** Widening a scan only adds records. When a scan that excludes hidden
    entries, or has a depth limit, returns, and the scan of the same tree
    with hidden entries included, or with a limit at least as large or none,
    returns as well, every record of the first has its counterpart in the
    second, the same but for the modification time, which depends on when
    the clocks were read. *)
Theorem wider_scan_only_adds_records clk fs root_path entries
    max_depth include_hidden max_depth' include_hidden' records records' r :
  root_listing fs root_path entries ->
  (include_hidden = true -> include_hidden' = true) ->
  ((0 < max_depth')%Z -> (0 < max_depth ≤ max_depth')%Z) ->
  scandir_recursive clk fs root_path max_depth include_hidden
  = Return records ->
  scandir_recursive clk fs root_path max_depth' include_hidden'
  = Return records' ->
  r ∈ records ->
  exists r', r' ∈ records' /\ same_entry r r'.
Proof.
  intros Hroot Hih Hmd Hscan Hscan' Hin.
  rewrite (scandir_recursive_on_listing _ _ _ _ _ _ Hroot) in Hscan.
  rewrite (scandir_recursive_on_listing _ _ _ _ _ _ Hroot) in Hscan'.
  destruct (List.find is_fatal _); [discriminate|]. injection Hscan as <-.
  destruct (List.find is_fatal _) eqn:Hfind'; [discriminate|].
  injection Hscan' as <-.
  destruct (records_sound _ _ _ _ _ _ Hin)
    as (chain & filename & e & t & Hocc & Hvis & Hlim & Hmake).
  destruct (entries_complete clk max_depth' include_hidden' root_path entries
              chain filename e) as (t' & _ & Hrec & _).
  - apply returned_not_aborted. exact Hfind'.
  - exact Hocc.
  - intros Hfalse. apply Hvis.
    destruct include_hidden; [|reflexivity].
    rewrite Hih in Hfalse by reflexivity. discriminate.
  - intros Hpos. specialize (Hmd Hpos). specialize (Hlim ltac:(lia)). lia.
  - destruct (make_info_any_clock _ (clk t') _ _ _ _ Hmake) as (r' & Hr' & Hsame).
    exists r'. split; [apply Hrec; exact Hr' | exact Hsame].
Qed.

Lemma wider_scan_only_adds_records_witness :
  exists r',
    r' ∈ [a_txt_record "/tmp/root/a.txt"; hidden_record; b_txt_record]
    /\ same_entry (a_txt_record "/tmp/root/a.txt") r'.
Proof.
  apply (wider_scan_only_adds_records steady_clock
           (single_root "/tmp/root" (listing scenario_entries))
           "/tmp/root" scenario_entries 1 false 0 true
           [a_txt_record "/tmp/root/a.txt"]
           [a_txt_record "/tmp/root/a.txt"; hidden_record; b_txt_record]
           (a_txt_record "/tmp/root/a.txt")).
  - exists (listing scenario_entries), dir_stat. split; reflexivity.
  - discriminate.
  - lia.
  - reflexivity.
  - reflexivity.
  - left.
Defined.

(** ** The clock samples *)

Lemma to_unix_seconds_offset ftime c c' :
  clock_offset c = clock_offset c' ->
  to_unix_seconds ftime c = to_unix_seconds ftime c'.
Proof.
  unfold clock_offset, to_unix_seconds. intros Hoff. f_equal. lia.
Qed.

Lemma make_info_offset c c' p filename e :
  clock_offset c = clock_offset c' ->
  make_info c p filename e = make_info c' p filename e.
Proof.
  intros Hoff. unfold make_info.
  destruct (entry_is_symlink e);
    destruct (entry_is_directory e) as [dir|]; simpl; try reflexivity.
  - destruct (last_write_time e) as [ftime|]; simpl; [|reflexivity].
    rewrite (to_unix_seconds_offset ftime c c' Hoff). reflexivity.
  - destruct (if dir then Return 0%N else file_size e) as [sz|]; simpl;
      [|reflexivity].
    destruct (last_write_time e) as [ftime|]; simpl; [|reflexivity].
    rewrite (to_unix_seconds_offset ftime c c' Hoff). reflexivity.
Qed.

Section ClockOffset.
Variables clk clk' : nat -> clock_reading.
Hypothesis together : forall t, clock_offset (clk t) = clock_offset (clk' t).
Variable max_depth : Z.
Variable include_hidden : bool.

Lemma loop_body_offset t depth p filename e :
  loop_body max_depth include_hidden (clk t) depth p filename e
  = loop_body max_depth include_hidden (clk' t) depth p filename e.
Proof.
  unfold loop_body. rewrite (make_info_offset (clk t) (clk' t)) by apply together.
  reflexivity.
Qed.

Lemma scan_entry_offset e :
  forall depth dir filename s,
    scan_entry clk max_depth include_hidden depth dir filename e s
    = scan_entry clk' max_depth include_hidden depth dir filename e s.
Proof.
  induction e as [st content | st acc kids IHkids | target _ | | what
                 | kind st content] using inode_nested_ind;
    intros depth dir filename s; rewrite !scan_entry_eq; unfold body_of;
    cbv zeta; simpl; rewrite !(loop_body_offset (samples s));
    try reflexivity.
  destruct (aborted s); [reflexivity|].
  destruct (recursion_pending_after _); [|reflexivity].
  destruct acc; try reflexivity.
  generalize (after_body
    (visit_at depth dir filename (Directory st Listable kids) s)
    (loop_body max_depth include_hidden (clk' (samples s)) depth
       (path_append dir filename) filename (Directory st Listable kids)) s).
  induction IHkids as [|[n k] kids Hk _ IH]; intros s1; [reflexivity|].
  rewrite !scan_list_cons. simpl in Hk. rewrite Hk. apply IH.
Qed.

Lemma scan_list_offset depth dir entries : forall s,
  scan_list clk max_depth include_hidden depth dir entries s
  = scan_list clk' max_depth include_hidden depth dir entries s.
Proof.
  induction entries as [|[n e] entries IH]; intros s; [reflexivity|].
  rewrite !scan_list_cons, scan_entry_offset. apply IH.
Qed.

(** The clock samples matter only through the difference of the two clocks
    in each sample: when that difference is the same, sample by sample, two
    scans of the same tree give the same outcome, and so do two calls of
    [get_file_info] on the same path. Taking the two samples one after the
    other makes the result independent of when they are taken, as long as
    the clocks advance together. *)
Theorem mtime_depends_on_clock_offset_only `{PathLexer} fs path :
  scandir_recursive clk fs path max_depth include_hidden
  = scandir_recursive clk' fs path max_depth include_hidden
  /\ get_file_info (clk 0) fs path = get_file_info (clk' 0) fs path.
Proof.
  split.
  - unfold scandir_recursive, scan_root.
    destruct (fs_exists fs path) as [[|]|]; simpl; try reflexivity.
    destruct (fs_is_directory fs path) as [[|]|]; simpl; try reflexivity.
    destruct (fs path) as [root|]; [|reflexivity].
    destruct (resolve root) as [[[| st [| |] entries | | | |]|]|];
      try reflexivity.
    rewrite scan_list_offset. reflexivity.
  - unfold get_file_info.
    destruct (fs_exists fs path) as [[|]|]; simpl; try reflexivity.
    destruct (path_status fs path) as [s|]; simpl; [|reflexivity].
    destruct (path_symlink_status fs path) as [ls|]; simpl; [|reflexivity].
    destruct (fs_is_regular_file fs path) as [reg|]; simpl; [|reflexivity].
    destruct (if reg then path_file_size fs path else Return 0%N) as [sz|];
      simpl; [|reflexivity].
    destruct (path_last_write_time fs path) as [ftime|]; simpl;
      [|reflexivity].
    rewrite (to_unix_seconds_offset ftime (clk 0) (clk' 0)) by apply together.
    reflexivity.
Qed.

End ClockOffset.

Lemma mtime_depends_on_clock_offset_only_witness :
  scandir_recursive steady_clock
    (single_root "/tmp/root" (listing scenario_entries)) "/tmp/root" 0 true
  = scandir_recursive advancing_clock
      (single_root "/tmp/root" (listing scenario_entries)) "/tmp/root" 0 true
  /\ get_file_info (H := plain_lexer) (steady_clock 0)
       (single_root "/tmp/root" (listing scenario_entries)) "/tmp/root"
     = get_file_info (H := plain_lexer) (advancing_clock 0)
         (single_root "/tmp/root" (listing scenario_entries)) "/tmp/root".
Proof.
  apply (mtime_depends_on_clock_offset_only steady_clock advancing_clock).
  intros t. unfold clock_offset. simpl. lia.
Defined.

(** ** More on [get_file_info] *)

Lemma land_single_bit (p k : N) :
  negb (N.land p (2 ^ k) =? 0)%N = N.testbit p k.
Proof.
  destruct (N.testbit p k) eqn:Hbit.
  - apply negb_true_iff, N.eqb_neq. intros Hzero.
    pose proof (N.land_spec p (2 ^ k) k) as Hspec.
    rewrite Hzero, Hbit, N.pow2_bits_true in Hspec. discriminate.
  - apply negb_false_iff, N.eqb_eq. apply N.bits_inj. intros n.
    rewrite N.land_spec, N.bits_0, N.pow2_bits_eqb.
    destruct (N.eqb_spec k n) as [<-|]; [rewrite Hbit; reflexivity|].
    apply andb_false_r.
Qed.

Section InfoFacts.
Context `{PathLexer}.
Variable c : clock_reading.
Variable fs : filesystem.
Variable file_path : string.

Lemma get_file_info_inv m :
  get_file_info c fs file_path = Return m ->
  exists i s ls size_val ftime,
    fs file_path = Some i
    /\ status i = Return s
    /\ type s ≠ ft_not_found
    /\ symlink_status i = Return ls
    /\ (if bool_decide (type s = ft_regular) then file_size i
        else Return 0%N) = Return size_val
    /\ last_write_time i = Return ftime
    /\ FileMetadata.path m = file_path
    /\ FileMetadata.is_regular_file m = bool_decide (type s = ft_regular)
    /\ FileMetadata.is_directory m = bool_decide (type s = ft_directory)
    /\ FileMetadata.is_symlink m = bool_decide (type ls = ft_symlink)
    /\ FileMetadata.is_block_file m = bool_decide (type s = ft_block)
    /\ FileMetadata.is_character_file m = bool_decide (type s = ft_character)
    /\ FileMetadata.is_fifo m = bool_decide (type s = ft_fifo)
    /\ FileMetadata.is_socket m = bool_decide (type s = ft_socket)
    /\ FileMetadata.size m = size_val
    /\ FileMetadata.permissions m = permissions s
    /\ FileMetadata.is_readable m
       = negb (N.land (permissions s) owner_read =? 0)%N
    /\ FileMetadata.is_writable m
       = negb (N.land (permissions s) owner_write =? 0)%N
    /\ FileMetadata.is_executable m
       = negb (N.land (permissions s) owner_exec =? 0)%N.
Proof.
  unfold get_file_info, fs_exists, fs_is_regular_file, path_status,
    path_symlink_status, path_file_size, path_last_write_time.
  destruct (fs file_path) as [i|]; simpl; [|discriminate].
  destruct (status i) as [s|] eqn:Hstatus; simpl; [|discriminate].
  case_bool_decide as Hex; simpl; [|discriminate].
  destruct (symlink_status i) as [ls|] eqn:Hls; simpl; [|discriminate].
  destruct (if bool_decide (type s = ft_regular) then file_size i
            else Return 0%N) as [sz|] eqn:Hsz; simpl; [|discriminate].
  destruct (last_write_time i) as [ftime|] eqn:Htime; simpl; [|discriminate].
  intros [= <-]. exists i, s, ls, sz, ftime. simpl. repeat split; auto.
Qed.

(** What a returned [FileMetadata] always satisfies: at most one of the six
    type fields is set; the size is zero unless the path leads to a regular
    file; and the three permission flags are bits 8, 7 and 6 of the
    permission mask. *)
Theorem get_file_info_fields_consistent m :
  get_file_info c fs file_path = Return m ->
  length (filter (fun b => b = true)
            [FileMetadata.is_regular_file m; FileMetadata.is_directory m;
             FileMetadata.is_block_file m; FileMetadata.is_character_file m;
             FileMetadata.is_fifo m; FileMetadata.is_socket m]) ≤ 1
  /\ (FileMetadata.is_regular_file m = false -> FileMetadata.size m = 0%N)
  /\ FileMetadata.is_readable m = N.testbit (FileMetadata.permissions m) 8
  /\ FileMetadata.is_writable m = N.testbit (FileMetadata.permissions m) 7
  /\ FileMetadata.is_executable m = N.testbit (FileMetadata.permissions m) 6.
Proof.
  intros Hget.
  destruct (get_file_info_inv m Hget)
    as (i & s & ls & sz & ftime & _ & _ & _ & _ & Hsz & _ & _
        & -> & -> & _ & -> & -> & -> & -> & -> & -> & -> & -> & ->).
  split; [|split; [|split; [|split]]].
  - destruct (type s); vm_compute; lia.
  - intros Hreg. rewrite Hreg in Hsz. congruence.
  - apply (land_single_bit _ 8).
  - apply (land_single_bit _ 7).
  - apply (land_single_bit _ 6).
Qed.

(** A path that names nothing, and a link whose target is missing, are both
    reported as not existing: [get_file_info] describes a dangling link by
    throwing, although the link itself is there. *)
Theorem get_file_info_missing_path i :
  fs file_path = None
  \/ (fs file_path = Some i /\ resolve i = Return None) ->
  get_file_info c fs file_path
  = Throw ("Path does not exist: " +:+ file_path).
Proof.
  intros [Hnone|[Hfs Hres]];
    unfold get_file_info, fs_exists, path_status, status.
  - rewrite Hnone. reflexivity.
  - rewrite Hfs. simpl. rewrite Hres. reflexivity.
Qed.

(** The record the scan builds for an entry and the metadata
    [get_file_info] returns for a path naming the same inode agree on
    [is_directory] and [is_symlink]; they agree on the size unless the inode
    is a symbolic link, for which the scan always records zero. *)
Theorem get_file_info_agrees_with_scan_record c' p filename e r m :
  fs file_path = Some e ->
  make_info c' p filename e = Return r ->
  get_file_info c fs file_path = Return m ->
  FileMetadata.is_directory m = FileInfo.is_directory r
  /\ FileMetadata.is_symlink m = FileInfo.is_symlink r
  /\ (FileInfo.is_symlink r = false ->
      FileMetadata.size m = FileInfo.size r)
  /\ (FileInfo.is_symlink r = true -> FileInfo.size r = 0%N).
Proof.
  intros Hfs Hmake Hget.
  destruct (get_file_info_inv m Hget)
    as (i & s & ls & sz & ftime & Hfs' & Hstatus & _ & Hls & Hsz & _ & _
        & _ & -> & -> & _ & _ & _ & _ & -> & _).
  assert (i = e) as -> by congruence.
  destruct (make_info_fields _ _ _ _ _ Hmake) as (Hsym & Hlink & Hplain).
  assert (Hlstype : type ls = own_type e).
  { unfold symlink_status in Hls.
    destruct (inode_stat e); simpl in Hls; [|discriminate].
    injection Hls as <-. reflexivity. }
  rewrite Hsym, Hlstype.
  destruct (is_link e) eqn:Hislink.
  - destruct (Hlink eq_refl) as (Hzero & s' & Hs' & Hdir).
    rewrite Hstatus in Hs'. injection Hs' as <-.
    split; [symmetry; exact Hdir|]. split; [|split; [discriminate|auto]].
    destruct e; simpl in *; try discriminate; reflexivity.
  - destruct (Hplain eq_refl) as (Hdir & Hdirsize & Hregsize).
    assert (Hty : type s = own_type e).
    { unfold status in Hstatus.
      destruct e; simpl in *; try discriminate;
        destruct st; simpl in Hstatus; try discriminate;
        injection Hstatus as <-; reflexivity. }
    rewrite Hty in *. split; [symmetry; exact Hdir|].
    split; [|split; [|discriminate]].
    + destruct e as [| | | | |[]]; simpl in *; try discriminate; reflexivity.
    + intros _. destruct e as [st content|st acc kids| | | |kind st content];
        simpl in *; try discriminate.
      * unfold file_size in Hsz. simpl in Hsz.
        destruct st as [st|]; simpl in *; [|discriminate].
        rewrite (Hregsize st content eq_refl). congruence.
      * rewrite Hdirsize by reflexivity. congruence.
      * exfalso. clear -Hmake.
        unfold make_info, entry_is_symlink, entry_is_directory, file_size in Hmake.
        simpl in Hmake.
        destruct kind; simpl in Hmake; destruct st; simpl in Hmake;
          discriminate.
Qed.

End InfoFacts.

Lemma get_file_info_fields_consistent_witness :
  length (filter (fun b => b = true)
            [FileMetadata.is_regular_file dev_null_metadata;
             FileMetadata.is_directory dev_null_metadata;
             FileMetadata.is_block_file dev_null_metadata;
             FileMetadata.is_character_file dev_null_metadata;
             FileMetadata.is_fifo dev_null_metadata;
             FileMetadata.is_socket dev_null_metadata]) ≤ 1
  /\ (FileMetadata.is_regular_file dev_null_metadata = false ->
      FileMetadata.size dev_null_metadata = 0%N)
  /\ FileMetadata.is_readable dev_null_metadata
     = N.testbit (FileMetadata.permissions dev_null_metadata) 8
  /\ FileMetadata.is_writable dev_null_metadata
     = N.testbit (FileMetadata.permissions dev_null_metadata) 7
  /\ FileMetadata.is_executable dev_null_metadata
     = N.testbit (FileMetadata.permissions dev_null_metadata) 6.
Proof.
  apply (get_file_info_fields_consistent (H := plain_lexer) (steady_clock 0)
           hashing_fs "/dev/null" dev_null_metadata).
  reflexivity.
Defined.

Lemma get_file_info_missing_path_witness :
  get_file_info (H := plain_lexer) (steady_clock 0)
    (single_root "/srv/link" DanglingSymlink) "/srv/link"
  = Throw "Path does not exist: /srv/link".
Proof.
  apply (get_file_info_missing_path (H := plain_lexer) (steady_clock 0)
           (single_root "/srv/link" DanglingSymlink) "/srv/link"
           DanglingSymlink).
  right. split; reflexivity.
Defined.

Lemma get_file_info_agrees_with_scan_record_witness :
  FileMetadata.is_directory a_txt_metadata
  = FileInfo.is_directory (a_txt_record "/tmp/a.txt")
  /\ FileMetadata.is_symlink a_txt_metadata
     = FileInfo.is_symlink (a_txt_record "/tmp/a.txt")
  /\ (FileInfo.is_symlink (a_txt_record "/tmp/a.txt") = false ->
      FileMetadata.size a_txt_metadata
      = FileInfo.size (a_txt_record "/tmp/a.txt"))
  /\ (FileInfo.is_symlink (a_txt_record "/tmp/a.txt") = true ->
      FileInfo.size (a_txt_record "/tmp/a.txt") = 0%N).
Proof.
  apply (get_file_info_agrees_with_scan_record (H := plain_lexer)
           (steady_clock 0) hashing_fs "/tmp/a.txt" (steady_clock 1)
           "/tmp/a.txt" "a.txt" a_txt (a_txt_record "/tmp/a.txt")
           a_txt_metadata); reflexivity.
Defined.

(** ** [FileInfo::to_dict] *)

Lemma to_dict_lookups (info : FileInfo.t) :
  to_dict info !! "path" = Some (py_text (FileInfo.path info))
  /\ to_dict info !! "name" = Some (py_text (FileInfo.name info))
  /\ to_dict info !! "size" = Some (py_int (FileInfo.size info))
  /\ to_dict info !! "mtime" = Some (py_float (FileInfo.mtime info))
  /\ to_dict info !! "is_directory"
     = Some (py_bool (FileInfo.is_directory info))
  /\ to_dict info !! "is_symlink"
     = Some (py_bool (FileInfo.is_symlink info)).
Proof.
  unfold to_dict. repeat split; simplify_map_eq; reflexivity.
Qed.

(** The dictionary of a record has exactly the six keys of the source, and
    no two records share a dictionary: every field can be read back. *)
Theorem to_dict_six_keys_injective (a b : FileInfo.t) :
  dom (to_dict a)
  = {["path"; "name"; "size"; "mtime"; "is_directory"; "is_symlink"]}
  /\ (to_dict a = to_dict b <-> a = b).
Proof.
  split.
  - unfold to_dict. rewrite !dom_insert_L, dom_empty_L. set_solver.
  - split; [|intros ->; reflexivity].
    intros Heq.
    destruct (to_dict_lookups a) as (Hp & Hn & Hs & Hm & Hd & Hl).
    destruct (to_dict_lookups b) as (Hp' & Hn' & Hs' & Hm' & Hd' & Hl').
    rewrite Heq in Hp, Hn, Hs, Hm, Hd, Hl.
    destruct a, b; simpl in *. congruence.
Qed.
